(** * Veritas-RAG: a shallow embedding of the artifact subsystem

    The development follows the Python sources module by module:

    - [Bytes], [Utf8], [Struct]   byte strings, the UTF-8 codec and the
                                  fragment of [struct] used by the store;
    - [Ids]                       [core/ids.py];
    - [Normalizer]                [ingestion/normalizer.py];
    - [Chunker]                   [ingestion/chunker.py];
    - [ChunkStore]                [storage/chunk_store.py];
    - [Search]                    [search/tokenizer.py], [search/bm25_index.py],
                                  [search/query.py], [search/retrieval.py];
    - [Manifest]                  [storage/manifest.py];
    - [FileIO]                    the file-system effects of the two writers
                                  [save_docs_meta] and [save_manifest];
    - [Sha256], [XXH32],          the hash functions, and instances of the
      [Instances]                 library classes on which the code runs;
    - [Spec]                      the predicates the theorems are stated with;
    - [Examples]                  the data of the examples;
    - [Paths], [Parsers]          [normalize_path] and the document identifiers
                                  of [core/ids.py]; [ingestion/parsers.py]
                                  after the extraction of the page texts;
    - [StoreChecks]               [ChunkStore.validate_invariants];
    - [Pipeline]                  [RetrievalPipeline.retrieve_and_fetch] and
                                  [rag/context.py];
    - [Invariants], [Scenarios]   more predicates and more examples.

    Part I holds the definitions, Part II the theorems.

    Conventions.  A Python [bytes] value is a [list ascii]; a Python [int] is
    a [Z]; a [float] is a [pyfloat], a rational or NaN; an exception is a
    [Raise] result.  The functions of third-party
    packages ([hashlib], [zstandard], [xxhash], [rank_bm25], [unicodedata],
    [re] character classes) are the fields of type classes; what the proofs
    need from them is stated as a class of laws next to each. *)

From Stdlib Require Import ZArith QArith Lia List Ascii String Bool Sorted.
From stdpp Require Import base option list gmap.
From Equations Require Import Equations.

Local Open Scope Z_scope.

(* ===================================================================== *)
(** * Part I: the embedding                                               *)
(* ===================================================================== *)

(** ** Results of fallible calls *)

Inductive exn :=
| StructError            (* struct.error: value out of range for a format *)
| UnicodeDecodeError     (* bytes.decode("utf-8") on ill-formed input *)
| ZstdError              (* zstandard could not decode a frame *)
| ValueError (msg : list N)
| IndexError
| ZeroDivisionError
| FileNotFoundError
| OSError.               (* errno 22: a seek to a negative offset *)

Inductive result (A : Type) :=
| Ok (a : A)
| Raise (e : exn).
Arguments Ok {A} a.
Arguments Raise {A} e.

#[global] Instance result_ret : MRet result := fun A a => Ok a.
#[global] Instance result_bind : MBind result := fun A B k r =>
  match r with
  | Ok a => k a
  | Raise e => Raise e
  end.

Definition of_option {A} (e : exn) (o : option A) : result A :=
  match o with
  | Some a => Ok a
  | None => Raise e
  end.

(** ** Byte strings *)

Module Bytes.

Abbreviation bytes := (list ascii).

Definition NUL : ascii := Ascii.zero.

Definition byte_of_Z (z : Z) : ascii := ascii_of_N (Z.to_N z).
Definition Z_of_byte (a : ascii) : Z := Z.of_N (N_of_ascii a).

Definition is_nul (a : ascii) : bool := (N_of_ascii a =? 0)%N.

Fixpoint drop_while {A} (p : A -> bool) (l : list A) : list A :=
  match l with
  | [] => []
  | x :: l' => if p x then drop_while p l' else l
  end.

(** [b[:n]] for [0 <= n]. *)
Definition prefix_slice (n : nat) (b : bytes) : bytes := take n b.

(** [b.ljust(width, fill)]. *)
Definition ljust (width : nat) (fill : ascii) (b : bytes) : bytes :=
  b ++ replicate (width - length b) fill.

(** [b.rstrip(b"\0")]. *)
Definition rstrip_nul (b : bytes) : bytes :=
  reverse (drop_while is_nul (reverse b)).

(** [f.seek(off); f.read(n)] on a file holding [file]. *)
Definition read_at (file : bytes) (off n : Z) : bytes :=
  take (Z.to_nat n) (drop (Z.to_nat off) file).

End Bytes.
Import Bytes.

(** ** Strings

    A Python [str] is the list of its code points.  ASCII literals are
    written [lit "..."]. *)

Abbreviation str := (list N).

Definition lit (s : string) : str := map N_of_ascii (list_ascii_of_string s).

(** The maximal runs of characters satisfying [p], from left to right.
    [cur] is the run being read, reversed. *)
Fixpoint runs_aux (p : N -> bool) (cur : str) (s : str) : list str :=
  match s with
  | [] => match cur with [] => [] | _ => [reverse cur] end
  | c :: s' =>
    if p c then runs_aux p (c :: cur) s'
    else
      match cur with
      | [] => runs_aux p [] s'
      | _ => reverse cur :: runs_aux p [] s'
      end
  end.

Definition runs (p : N -> bool) (s : str) : list str := runs_aux p [] s.

(** ** UTF-8

    [encode] is [str.encode("utf-8")] and [decode] is
    [bytes.decode("utf-8")], the strict codec of RFC 3629: no overlong
    forms, no surrogates, nothing above U+10FFFF.  A [str] holding a lone
    surrogate, on which Python's encoder raises, is outside the model:
    [wf_str] is the invariant of the strings that the program handles. *)

Module Utf8.

Definition byte (n : N) : ascii := ascii_of_N n.

Definition is_scalar (c : N) : bool :=
  ((c <? 55296) || ((57343 <? c) && (c <=? 1114111)))%N.

Definition wf_str (s : str) : Prop := Forall (fun c => is_scalar c = true) s.

Definition encode_char (c : N) : bytes :=
  (if c <? 128 then [byte c]
   else if c <? 2048 then [byte (192 + c / 64); byte (128 + c mod 64)]
   else if c <? 65536 then
     [byte (224 + c / 4096); byte (128 + (c / 64) mod 64); byte (128 + c mod 64)]
   else
     [byte (240 + (c / 262144) mod 8); byte (128 + (c / 4096) mod 64);
      byte (128 + (c / 64) mod 64); byte (128 + c mod 64)])%N.

(** [s.encode("utf-8")] *)
Definition encode (s : str) : bytes := flat_map encode_char s.

Definition bt (lo hi : N) (a : ascii) : bool :=
  ((lo <=? N_of_ascii a) && (N_of_ascii a <=? hi))%N.

Definition cont (a : ascii) : bool := bt 128 191 a.

(** The payload bits of a continuation byte. *)
Definition low6 (a : ascii) : N := (N_of_ascii a - 128)%N.

Definition cons_char (c : N) (r : result str) : result str :=
  s ← r; Ok (c :: s).

(** [b.decode("utf-8")] *)
Fixpoint decode (bs : bytes) : result str :=
  let bad := Raise UnicodeDecodeError in
  match bs with
  | [] => Ok []
  | b0 :: t0 =>
    let n0 := N_of_ascii b0 in
    if bt 0 127 b0 then cons_char n0 (decode t0) else
    match t0 with
    | [] => bad
    | b1 :: t1 =>
      if bt 194 223 b0 then
        if cont b1 then cons_char ((n0 - 192) * 64 + low6 b1)%N (decode t1) else bad
      else
      match t1 with
      | [] => bad
      | b2 :: t2 =>
        if bt 224 239 b0 then
          if (if bt 224 224 b0 then bt 160 191 b1
              else if bt 237 237 b0 then bt 128 159 b1
              else cont b1) && cont b2
          then cons_char ((n0 - 224) * 4096 + low6 b1 * 64 + low6 b2)%N (decode t2)
          else bad
        else
        match t2 with
        | [] => bad
        | b3 :: t3 =>
          if bt 240 244 b0 then
            if (if bt 240 240 b0 then bt 144 191 b1
                else if bt 244 244 b0 then bt 128 143 b1
                else cont b1) && cont b2 && cont b3
            then cons_char ((n0 - 240) * 262144 + low6 b1 * 4096
                            + low6 b2 * 64 + low6 b3)%N (decode t3)
            else bad
          else bad
        end
      end
    end
  end.

End Utf8.

(** ** The fragment of [struct] used by the chunk store

    Format strings start with ["<"] (little-endian, standard sizes, no
    alignment) and use the codes [s], [Q], [I], [B] and [i]. *)

Module Struct.

Inductive item :=
| Fs (n : nat)   (* "<n>s": a byte string of n bytes *)
| FQ             (* unsigned, 8 bytes *)
| FI             (* unsigned, 4 bytes *)
| FB             (* unsigned, 1 byte *)
| Fi.            (* signed, 4 bytes *)

Inductive value :=
| VBytes (b : bytes)
| VInt (z : Z).

Definition item_size (it : item) : nat :=
  match it with
  | Fs n => n
  | FQ => 8
  | FI => 4
  | FB => 1
  | Fi => 4
  end.

Definition digit_of (a : ascii) : option nat :=
  let n := nat_of_ascii a in
  if (48 <=? n)%nat && (n <=? 57)%nat then Some (n - 48)%nat else None.

(** The items after the byte-order mark; [count] is the repeat count read
    so far ([None]: no digits yet). *)
Fixpoint parse_items (count : option nat) (s : list ascii) : option (list item) :=
  match s with
  | [] => match count with None => Some [] | Some _ => None end
  | c :: s' =>
    match digit_of c with
    | Some d => parse_items (Some (10 * default 0%nat count + d)%nat) s'
    | None =>
      let rep := default 1%nat count in
      rest ← parse_items None s';
      if Ascii.eqb c "s" then Some (Fs (default 1%nat count) :: rest)
      else if Ascii.eqb c "Q" then Some (replicate rep FQ ++ rest)
      else if Ascii.eqb c "I" then Some (replicate rep FI ++ rest)
      else if Ascii.eqb c "B" then Some (replicate rep FB ++ rest)
      else if Ascii.eqb c "i" then Some (replicate rep Fi ++ rest)
      else None
    end
  end.

Definition parse_format (fmt : string) : option (list item) :=
  match list_ascii_of_string fmt with
  | c :: s => if Ascii.eqb c "<" then parse_items None s else None
  | [] => None
  end.

(** [struct.calcsize] *)
Definition calcsize (fmt : list item) : nat :=
  foldr (fun it n => (item_size it + n)%nat) 0%nat fmt.

(** Little-endian digits in base 256. *)
Fixpoint le_encode (n : nat) (v : Z) : bytes :=
  match n with
  | O => []
  | S k => byte_of_Z (v mod 256) :: le_encode k (v / 256)
  end.

Fixpoint le_decode (bs : bytes) : Z :=
  match bs with
  | [] => 0
  | b :: r => Z_of_byte b + 256 * le_decode r
  end.

Definition in_range (lo hi z : Z) : bool := (lo <=? z) && (z <? hi).

Definition pack_item (it : item) (v : value) : option bytes :=
  match it, v with
  | Fs n, VBytes b => Some (take n (ljust n NUL b))
  | FQ, VInt z => if in_range 0 (2 ^ 64) z then Some (le_encode 8 z) else None
  | FI, VInt z => if in_range 0 (2 ^ 32) z then Some (le_encode 4 z) else None
  | FB, VInt z => if in_range 0 (2 ^ 8) z then Some (le_encode 1 z) else None
  | Fi, VInt z =>
    if in_range (- 2 ^ 31) (2 ^ 31) z then Some (le_encode 4 (z mod 2 ^ 32)) else None
  | _, _ => None
  end.

Fixpoint pack_items (fmt : list item) (vs : list value) : option bytes :=
  match fmt, vs with
  | [], [] => Some []
  | it :: fmt', v :: vs' =>
    b ← pack_item it v;
    r ← pack_items fmt' vs';
    Some (b ++ r)
  | _, _ => None
  end.

(** [struct.pack(fmt, *vs)]; [None] stands for [struct.error]. *)
Definition pack (fmt : list item) (vs : list value) : result bytes :=
  of_option StructError (pack_items fmt vs).

Definition unpack_item (it : item) (b : bytes) : value :=
  match it with
  | Fs _ => VBytes b
  | FQ | FI | FB => VInt (le_decode b)
  | Fi =>
    let u := le_decode b in
    VInt (if u <? 2 ^ 31 then u else u - 2 ^ 32)
  end.

Fixpoint unpack_items (fmt : list item) (b : bytes) : list value :=
  match fmt with
  | [] => []
  | it :: fmt' =>
    unpack_item it (take (item_size it) b) :: unpack_items fmt' (drop (item_size it) b)
  end.

(** [struct.unpack(fmt, b)]: the buffer must have exactly [calcsize fmt]
    bytes. *)
Definition unpack (fmt : list item) (b : bytes) : result (list value) :=
  if (length b =? calcsize fmt)%nat then Ok (unpack_items fmt b) else Raise StructError.

End Struct.

(** ** Third-party packages

    Each class lists the entry points of one package as the sources call
    them. *)

(** [hashlib]: [sha256 b] is [hashlib.sha256(b).digest()]. *)
Class HashLib := sha256 : bytes -> bytes.

(** [xxhash]: [xxh32 b] is [xxhash.xxh32(b).intdigest()]. *)
Class XXHashLib := xxh32 : bytes -> Z.

(** [zstandard]: [ZstdCompressor(level).compress] and
    [ZstdDecompressor().decompress]. *)
Class ZstdLib := {
  zstd_compress : Z -> bytes -> bytes;
  zstd_decompress : bytes -> result bytes
}.

(** [unicodedata], [str] and [re]: the character tables.
    [isspace c] is [c.isspace()], [is_word c] is whether [c] matches [\w],
    [lower] is [str.lower] and [nfkc] is [unicodedata.normalize("NFKC", _)]. *)
Class UnicodeLib := {
  isspace : N -> bool;
  is_word : N -> bool;
  lower : str -> str;
  nfkc : str -> str
}.

(** [json]: [json_iterencode v indent] is the list of text chunks that
    [json.dump(v, f, indent=indent)] passes to [f.write], one after the
    other, already encoded as the file will hold them. *)
#[warnings="-register-all"]
Inductive json :=
| JNull
| JInt (n : Z)
| JStr (s : str)
| JObj (members : list (str * json)).

Class JsonLib := json_iterencode : json -> Z -> list bytes.

(** A Python [float] as the ranking meets it: a number or NaN.  The code
    only compares the scores and hands them on, so that a rational stands
    for a number.  [x < y] is false as soon as an operand is NaN. *)
Inductive pyfloat :=
| Float (q : Q)
| NaN.

Definition float_lt (x y : pyfloat) : bool :=
  match x, y with
  | Float a, Float b => Qle_bool a b && negb (Qle_bool b a)
  | _, _ => false
  end.

(** [rank_bm25]: the [BM25Okapi] objects, their constructor and
    [get_scores].  The constructor may raise (it divides by the size of
    the vocabulary).  A score may be NaN: the formula of the library
    divides by a term that is zero for a document without token when
    [b = 1]. *)
Class RankBM25 := {
  BM25Okapi : Type;
  bm25_okapi : list (list str) -> Q -> Q -> result BM25Okapi;
  get_scores : BM25Okapi -> list str -> list pyfloat
}.

(** ** [core/ids.py] *)

Module Ids.
Section WithHash.
Context `{!HashLib}.

Definition hex_digit (d : N) : N :=
  (if d <? 10 then 48 + d else 87 + d)%N.

(** [digest.hex()] *)
Definition hex (b : bytes) : str :=
  flat_map (fun a => let n := N_of_ascii a in [hex_digit (n / 16); hex_digit (n mod 16)]%N) b.

(** [hashlib.sha256(b).hexdigest()] *)
Definition hexdigest (b : bytes) : str := hex (sha256 b).

(** The decimal digits of a natural number, most significant first. *)
Equations digits (n : N) : str by wf (N.to_nat n) lt :=
  digits n with decide (n < 10)%N := {
    | left _ => [48 + n]%N;
    | right _ => digits (n / 10) ++ [48 + n mod 10]%N }.
Next Obligation.
  assert (n / 10 < n)%N by (apply N.div_lt; lia). lia.
Qed.

(** [str(n)] for an [int], as an f-string formats it: the decimal
    numeral, with a leading [-] for a negative number. *)
Definition str_of_int (n : Z) : str :=
  if n <? 0 then 45%N :: digits (Z.to_N (- n)) else digits (Z.to_N n).

Definition generate_doc_id (doc_uid normalized_text_hash : str) : str :=
  let combined := doc_uid ++ normalized_text_hash in
  let hash_obj := hexdigest (Utf8.encode combined) in
  take 16 hash_obj.

Definition generate_chunk_id
    (doc_uid : str) (offset_start offset_end : Z) (chunk_text : str) : str :=
  let chunk_text_hash := hexdigest (Utf8.encode chunk_text) in
  let combined :=
    doc_uid ++ str_of_int offset_start ++ str_of_int offset_end ++ chunk_text_hash in
  let hash_obj := hexdigest (Utf8.encode combined) in
  take 16 hash_obj.

End WithHash.
End Ids.

(** ** [ingestion/normalizer.py] *)

Module Normalizer.
Section WithUnicode.
Context `{!UnicodeLib}.

Definition SP : N := 32%N.
Definition TAB : N := 9%N.
Definition LF : N := 10%N.
Definition CR : N := 13%N.

Definition is_blank (c : N) : bool := ((c =? SP) || (c =? TAB))%N.

(** [re.sub(r"[ \t]+", " ", s)]: every maximal run of spaces and tabs
    becomes one space.  [in_run] says that the previous character belonged
    to the run being replaced. *)
Fixpoint sub_blank_runs (in_run : bool) (s : str) : str :=
  match s with
  | [] => []
  | c :: s' =>
    if is_blank c then
      if in_run then sub_blank_runs true s' else SP :: sub_blank_runs true s'
    else c :: sub_blank_runs false s'
  end.

(** [s.replace("\r\n", "\n")] *)
Fixpoint replace_crlf (s : str) : str :=
  match s with
  | [] => []
  | c :: s' =>
    match s' with
    | d :: s'' =>
      if ((c =? CR) && (d =? LF))%N then LF :: replace_crlf s''
      else c :: replace_crlf s'
    | [] => [c]
    end
  end.

(** [s.replace("\r", "\n")] *)
Definition replace_cr (s : str) : str :=
  map (fun c => if (c =? CR)%N then LF else c) s.

(** [s.lstrip()], [s.rstrip()] and [s.strip()] *)
Definition lstrip (s : str) : str := drop_while isspace s.
Definition rstrip (s : str) : str := reverse (drop_while isspace (reverse s)).
Definition strip (s : str) : str := rstrip (lstrip s).

Definition normalize_text (text : str) : str :=
  let normalized := nfkc text in
  let normalized := sub_blank_runs false normalized in
  let normalized := replace_cr (replace_crlf normalized) in
  let normalized := strip normalized in
  normalized.

End WithUnicode.
End Normalizer.

(** ** [core/contracts.py] *)

Record Config := {
  chunk_size : Z;
  chunk_overlap : Z;
  bm25_k1 : Q;
  bm25_b : Q;
  bm25_use_stopwords : bool;
  zstd_level : Z
}.

Record Page := {
  page_number : Z;
  page_text : str;
  page_offset_start : Z;
  page_offset_end : Z
}.

Record Document := {
  d_doc_uid : str;
  d_doc_id : str;
  d_source_path : str;
  raw_text : str;
  normalized_text : str;
  title : option str;
  pages : option (list Page)
}.

Record SourceRef := {
  source_path : str;
  sr_offset_start : Z;
  sr_offset_end : Z;
  sr_page_start : option Z;
  sr_page_end : option Z
}.

Record Chunk := {
  chunk_id : str;
  doc_uid : str;
  doc_id : str;
  text : str;
  offset_start : Z;
  offset_end : Z;
  chunk_index : Z;
  source_ref : SourceRef;
  page_start : option Z;
  page_end : option Z
}.

Record RetrievalResult := {
  r_chunk_id : str;
  score : pyfloat;
  matched_terms : list str;
  snippet : str;
  r_source_ref : SourceRef
}.

Record ArtifactManifest := {
  schema_version : str;
  artifact_version : str;
  build_timestamp : str;
  total_docs : Z;
  total_chunks : Z;
  index_type : str;
  compression : str;
  checksums : list (str * str)   (* a dict, in its iteration order *)
}.

(** ** [ingestion/chunker.py] *)

Module Chunker.
Section WithLibs.
Context `{!UnicodeLib} `{!HashLib}.

Definition not_space (c : N) : bool := negb (isspace c).

(** [s.split()]: the maximal runs of non-whitespace characters. *)
Definition split (s : str) : list str := runs not_space s.

Definition count_words (s : str) : nat := length (split s).

(** [text[i]] *)
Definition char_at (s : str) (i : nat) : N := nth i s 0%N.

(** [while pos < len(text) and p(text[pos]): pos += 1]; the loop runs at
    most [len(text) - pos] times, which is the [fuel] it is given. *)
Fixpoint skip_forward_loop (fuel : nat) (p : N -> bool) (s : str) (pos : nat) : nat :=
  match fuel with
  | O => pos
  | S fuel' =>
    if (pos <? length s)%nat && p (char_at s pos)
    then skip_forward_loop fuel' p s (S pos)
    else pos
  end.

Definition skip_forward (p : N -> bool) (s : str) (pos : nat) : nat :=
  skip_forward_loop (length s - pos) p s pos.

(** [while pos > 0 and p(text[pos - 1]): pos -= 1] *)
Fixpoint skip_backward (p : N -> bool) (s : str) (pos : nat) : nat :=
  match pos with
  | O => O
  | S q => if p (char_at s q) then skip_backward p s q else pos
  end.

(** The loop of [_find_chunk_end]; [remaining] is
    [target_words - word_count]. *)
Fixpoint chunk_end_loop (remaining : nat) (s : str) (pos : nat) : nat :=
  match remaining with
  | O => pos
  | S r =>
    if (pos <? length s)%nat
    then chunk_end_loop r s (skip_forward not_space s (skip_forward isspace s pos))
    else pos
  end.

Definition find_chunk_end (s : str) (start_pos : nat) (target_words : Z) : nat :=
  let words := split (drop start_pos s) in
  if Z.of_nat (length words) <=? target_words then length s
  else chunk_end_loop (Z.to_nat target_words) s start_pos.

(** The loop of [_find_chunk_start]. *)
Fixpoint chunk_start_loop (remaining : nat) (s : str) (pos : nat) : nat :=
  match remaining with
  | O => pos
  | S r =>
    if (0 <? pos)%nat
    then chunk_start_loop r s (skip_backward not_space s (skip_backward isspace s pos))
    else pos
  end.

Definition find_chunk_start (s : str) (end_pos : nat) (target_words : Z) : nat :=
  let words := split (take end_pos s) in
  if Z.of_nat (length words) <=? target_words then O
  else chunk_start_loop (Z.to_nat target_words) s end_pos.

Definition derive_page_range (pages : option (list Page)) (offset_start offset_end : Z)
    : option Z * option Z :=
  match pages with
  | None | Some [] => (None, None)
  | Some ps =>
    foldl (fun '(page_start, page_end) page =>
             let page_overlaps :=
               negb ((page_offset_end page <=? offset_start)
                     || (offset_end <=? page_offset_start page)) in
             if page_overlaps then
               (match page_start with None => Some (page_number page) | _ => page_start end,
                Some (page_number page))
             else (page_start, page_end))
          (None, None) ps
  end.

(** One iteration of the [while] loop of [chunk_document], entered with
    [current_pos < len(normalized_text)]. *)
Inductive step :=
| Break (emitted : list Chunk)
| Continue (c : Chunk) (next_pos : nat).

Definition chunk_step (cfg : Config) (document : Document)
    (current_pos : nat) (chunk_index : Z) : step :=
  let normalized_text := normalized_text document in
  let end_pos := find_chunk_end normalized_text current_pos (chunk_size cfg) in
  if (end_pos <=? current_pos)%nat then Break [] else
  let chunk_text := take (end_pos - current_pos) (drop current_pos normalized_text) in
  match chunk_text with
  | [] => Break []
  | _ =>
    let offset_start := Z.of_nat current_pos in
    let offset_end := Z.of_nat end_pos in
    let '(page_start, page_end) :=
      derive_page_range (pages document) offset_start offset_end in
    let chunk_id :=
      Ids.generate_chunk_id (d_doc_uid document) offset_start offset_end chunk_text in
    let source_ref :=
      {| source_path := d_source_path document;
         sr_offset_start := offset_start; sr_offset_end := offset_end;
         sr_page_start := page_start; sr_page_end := page_end |} in
    let chunk :=
      {| chunk_id := chunk_id; doc_uid := d_doc_uid document;
         doc_id := d_doc_id document; text := chunk_text;
         offset_start := offset_start; offset_end := offset_end;
         chunk_index := chunk_index; source_ref := source_ref;
         page_start := page_start; page_end := page_end |} in
    if (length normalized_text <=? end_pos)%nat then Break [chunk] else
    let overlap_pos := find_chunk_start normalized_text end_pos (chunk_overlap cfg) in
    Continue chunk overlap_pos
  end.

(** The [while] loop; [None] when [fuel] iterations were not enough. *)
Fixpoint chunk_loop (fuel : nat) (cfg : Config) (document : Document)
    (current_pos : nat) (chunk_index : Z) : option (list Chunk) :=
  match fuel with
  | O => None
  | S fuel' =>
    if (current_pos <? length (normalized_text document))%nat then
      match chunk_step cfg document current_pos chunk_index with
      | Break emitted => Some emitted
      | Continue c next_pos =>
        (c ::.) <$> chunk_loop fuel' cfg document next_pos (chunk_index + 1)
      end
    else Some []
  end.

Definition chunk_document_in (fuel : nat) (cfg : Config) (document : Document)
    : option (list Chunk) :=
  let words := split (normalized_text document) in
  match words with
  | [] => Some []
  | _ => chunk_loop fuel cfg document 0 0
  end.

(** [chunk_document]: the loop runs at most once per character of the
    text when each iteration moves the cursor forward, which is the fuel it
    is given here; [None] says that this was not enough. *)
Definition chunk_document (cfg : Config) (document : Document) : option (list Chunk) :=
  chunk_document_in (S (length (normalized_text document))) cfg document.

End WithLibs.
End Chunker.

(** ** [storage/compression.py] *)

Module Compression.
Section WithZstd.
Context `{!ZstdLib}.

Definition compress_data (data : bytes) (level : Z) : bytes := zstd_compress level data.
Definition decompress_data (compressed_data : bytes) : result bytes :=
  zstd_decompress compressed_data.

End WithZstd.
End Compression.

(** ** [storage/chunk_store.py]

    A [store] is a [ChunkStore] object together with the three files of
    its directory.  [docs.meta] is kept as the JSON value it holds. *)

Module ChunkStore.

(** The values of the dict [self.index]. *)
Record record := {
  rec_doc_uid : str;
  rec_doc_id : str;
  store_offset : Z;
  length_ : Z;
  checksum : Z;
  is_active : bool;
  rec_offset_start : Z;
  rec_offset_end : Z;
  rec_chunk_index : Z;
  rec_page_start : option Z;
  rec_page_end : option Z
}.

(** The values of the JSON object in [docs.meta]. *)
Record doc_info := {
  info_doc_id : option str;
  info_source_path : option str;
  info_title : option str;
  info_page_count : option Z
}.

Record store := {
  (* the files; [None]: the file does not exist *)
  chunks_bin : option bytes;
  chunks_idx : option bytes;
  docs_meta : option (list (str * doc_info));
  (* the attributes of the object *)
  index : gmap str record;
  doc_uid_to_chunks : gmap str (list str);
  doc_id_to_source_path : gmap str str
}.

(** [ChunkStore(store_dir)] on a directory holding the given files. *)
Definition init (bin idx : option bytes) (meta : option (list (str * doc_info))) : store :=
  {| chunks_bin := bin; chunks_idx := idx; docs_meta := meta;
     index := ∅; doc_uid_to_chunks := ∅; doc_id_to_source_path := ∅ |}.

(** A new object on the directory of [st]. *)
Definition reopen (st : store) : store :=
  init (chunks_bin st) (chunks_idx st) (docs_meta st).

(** Methods run in a state monad over [store] in which a call may raise;
    the state at the time of the exception is kept. *)
Definition M (A : Type) : Type := store -> result A * store.

#[global] Instance M_ret : MRet M := fun A a st => (Ok a, st).
#[global] Instance M_bind : MBind M := fun A B k m st =>
  match m st with
  | (Ok a, st') => k a st'
  | (Raise e, st') => (Raise e, st')
  end.

Definition gets {A} (f : store -> A) : M A := fun st => (Ok (f st), st).
Definition modify (f : store -> store) : M unit := fun st => (Ok tt, f st).
Definition lift {A} (r : result A) : M A := fun st => (r, st).
Definition raise {A} (e : exn) : M A := lift (Raise e).

Fixpoint for_each {A} (body : A -> M unit) (l : list A) : M unit :=
  match l with
  | [] => mret tt
  | x :: l' => _ ← body x; for_each body l'
  end.

Definition set_chunks_bin (b : option bytes) (st : store) : store :=
  {| chunks_bin := b; chunks_idx := chunks_idx st; docs_meta := docs_meta st;
     index := index st; doc_uid_to_chunks := doc_uid_to_chunks st;
     doc_id_to_source_path := doc_id_to_source_path st |}.
Definition set_chunks_idx (b : option bytes) (st : store) : store :=
  {| chunks_bin := chunks_bin st; chunks_idx := b; docs_meta := docs_meta st;
     index := index st; doc_uid_to_chunks := doc_uid_to_chunks st;
     doc_id_to_source_path := doc_id_to_source_path st |}.
Definition set_docs_meta (m : option (list (str * doc_info))) (st : store) : store :=
  {| chunks_bin := chunks_bin st; chunks_idx := chunks_idx st; docs_meta := m;
     index := index st; doc_uid_to_chunks := doc_uid_to_chunks st;
     doc_id_to_source_path := doc_id_to_source_path st |}.
Definition set_index (i : gmap str record) (st : store) : store :=
  {| chunks_bin := chunks_bin st; chunks_idx := chunks_idx st; docs_meta := docs_meta st;
     index := i; doc_uid_to_chunks := doc_uid_to_chunks st;
     doc_id_to_source_path := doc_id_to_source_path st |}.
Definition set_doc_uid_to_chunks (m : gmap str (list str)) (st : store) : store :=
  {| chunks_bin := chunks_bin st; chunks_idx := chunks_idx st; docs_meta := docs_meta st;
     index := index st; doc_uid_to_chunks := m;
     doc_id_to_source_path := doc_id_to_source_path st |}.
Definition set_doc_id_to_source_path (m : gmap str str) (st : store) : store :=
  {| chunks_bin := chunks_bin st; chunks_idx := chunks_idx st; docs_meta := docs_meta st;
     index := index st; doc_uid_to_chunks := doc_uid_to_chunks st;
     doc_id_to_source_path := m |}.

(** [open(path, "ab").write(data)]: the file is created when missing. *)
Definition append_file (file : option bytes) (data : bytes) : option bytes :=
  Some (default [] file ++ data).

Definition INDEX_RECORD_FORMAT : string := "<32s32s32sQIIBQQIii".

Definition index_record_items : list Struct.item :=
  default [] (Struct.parse_format INDEX_RECORD_FORMAT).

Definition INDEX_RECORD_SIZE : nat := Struct.calcsize index_record_items.

(** The twelve arguments of [_write_index_record], which are also the
    twelve fields that [load_index] reads back. *)
Record index_fields := {
  f_chunk_id : str;
  f_doc_uid : str;
  f_doc_id : str;
  f_store_offset : Z;
  f_length : Z;
  f_checksum : Z;
  f_is_active : bool;
  f_offset_start : Z;
  f_offset_end : Z;
  f_chunk_index : Z;
  f_page_start : Z;
  f_page_end : Z
}.

(** [s.encode("utf-8")[:32].ljust(32, b"\0")] *)
Definition pad_id (s : str) : bytes :=
  ljust 32 NUL (prefix_slice 32 (Utf8.encode s)).

Definition pack_index_record (r : index_fields) : result bytes :=
  let chunk_id_bytes := pad_id (f_chunk_id r) in
  let doc_uid_bytes := pad_id (f_doc_uid r) in
  let doc_id_bytes := pad_id (f_doc_id r) in
  Struct.pack index_record_items
    [Struct.VBytes chunk_id_bytes; Struct.VBytes doc_uid_bytes; Struct.VBytes doc_id_bytes;
     Struct.VInt (f_store_offset r); Struct.VInt (f_length r); Struct.VInt (f_checksum r);
     Struct.VInt (if f_is_active r then 1 else 0);
     Struct.VInt (f_offset_start r); Struct.VInt (f_offset_end r);
     Struct.VInt (f_chunk_index r); Struct.VInt (f_page_start r); Struct.VInt (f_page_end r)].

Definition write_index_record (r : index_fields) : M unit :=
  record ← lift (pack_index_record r);
  modify (fun st => set_chunks_idx (append_file (chunks_idx st) record) st).

(** [b.rstrip(b"\0").decode("utf-8")] *)
Definition unpad_id (b : bytes) : result str := Utf8.decode (rstrip_nul b).

(** The body of the loop of [load_index] up to the update of the maps:
    [struct.unpack] and the decoding of the fields. *)
Definition unpack_index_record (record_bytes : bytes) : result index_fields :=
  vs ← Struct.unpack index_record_items record_bytes;
  match vs with
  | [Struct.VBytes chunk_id_bytes; Struct.VBytes doc_uid_bytes; Struct.VBytes doc_id_bytes;
     Struct.VInt store_offset; Struct.VInt length; Struct.VInt checksum;
     Struct.VInt is_active_byte;
     Struct.VInt offset_start; Struct.VInt offset_end;
     Struct.VInt chunk_index; Struct.VInt page_start; Struct.VInt page_end] =>
    chunk_id ← unpad_id chunk_id_bytes;
    doc_uid ← unpad_id doc_uid_bytes;
    doc_id ← unpad_id doc_id_bytes;
    let is_active := negb (is_active_byte =? 0) in
    Ok {| f_chunk_id := chunk_id; f_doc_uid := doc_uid; f_doc_id := doc_id;
          f_store_offset := store_offset; f_length := length; f_checksum := checksum;
          f_is_active := is_active;
          f_offset_start := offset_start; f_offset_end := offset_end;
          f_chunk_index := chunk_index; f_page_start := page_start; f_page_end := page_end |}
  | _ => Raise StructError
  end.

Definition page_arg (p : option Z) : Z := default (-1) p.
Definition page_of (p : Z) : option Z := if p =? -1 then None else Some p.

Definition write_chunk (chunk : Chunk) (compressed_data : bytes) (checksum : Z) : M unit :=
  store_offset ← gets (fun st =>
    match chunks_bin st with Some b => Z.of_nat (length b) | None => 0 end);
  _ ← modify (fun st => set_chunks_bin (append_file (chunks_bin st) compressed_data) st);
  let length := Z.of_nat (length compressed_data) in
  _ ← write_index_record
        {| f_chunk_id := chunk_id chunk; f_doc_uid := doc_uid chunk;
           f_doc_id := doc_id chunk;
           f_store_offset := store_offset; f_length := length; f_checksum := checksum;
           f_is_active := true;
           f_offset_start := offset_start chunk; f_offset_end := offset_end chunk;
           f_chunk_index := chunk_index chunk;
           f_page_start := page_arg (page_start chunk);
           f_page_end := page_arg (page_end chunk) |};
  _ ← modify (fun st => set_index
        (<[chunk_id chunk :=
            {| rec_doc_uid := doc_uid chunk; rec_doc_id := doc_id chunk;
               store_offset := store_offset; length_ := length; checksum := checksum;
               is_active := true;
               rec_offset_start := offset_start chunk; rec_offset_end := offset_end chunk;
               rec_chunk_index := chunk_index chunk;
               rec_page_start := page_start chunk; rec_page_end := page_end chunk |}]>
         (index st)) st);
  modify (fun st => set_doc_uid_to_chunks
        (<[doc_uid chunk := default [] (doc_uid_to_chunks st !! doc_uid chunk)
                            ++ [chunk_id chunk]]> (doc_uid_to_chunks st)) st).

Definition load_docs_meta : M (list (str * doc_info)) :=
  gets (fun st => default [] (docs_meta st)).

(** The successive results of [f.read(INDEX_RECORD_SIZE)] up to the first
    short one. *)
Equations read_records (data : bytes) : list bytes by wf (length data) lt :=
  read_records data with decide (length data < INDEX_RECORD_SIZE)%nat := {
    | left _ => [];
    | right _ =>
      take INDEX_RECORD_SIZE data :: read_records (drop INDEX_RECORD_SIZE data) }.
Next Obligation.
  rewrite length_drop. change INDEX_RECORD_SIZE with 141%nat in *. lia.
Qed.

(** The body of the loop of [load_index] for one record. *)
Definition load_record (record_bytes : bytes) : M unit :=
  f ← lift (unpack_index_record record_bytes);
  let chunk_id := f_chunk_id f in
  let doc_uid := f_doc_uid f in
  _ ← modify (fun st => set_index
        (<[chunk_id :=
            {| rec_doc_uid := doc_uid; rec_doc_id := f_doc_id f;
               store_offset := f_store_offset f; length_ := f_length f;
               checksum := f_checksum f; is_active := f_is_active f;
               rec_offset_start := f_offset_start f; rec_offset_end := f_offset_end f;
               rec_chunk_index := f_chunk_index f;
               rec_page_start := page_of (f_page_start f);
               rec_page_end := page_of (f_page_end f) |}]> (index st)) st);
  modify (fun st =>
    let ids := default [] (doc_uid_to_chunks st !! doc_uid) in
    set_doc_uid_to_chunks
      (<[doc_uid := if bool_decide (chunk_id ∈ ids) then ids else ids ++ [chunk_id]]>
         (doc_uid_to_chunks st)) st).

Definition load_index : M unit :=
  idx ← gets chunks_idx;
  match idx with
  | None => mret tt
  | Some data =>
    _ ← modify (fun st =>
          set_doc_id_to_source_path ∅ (set_doc_uid_to_chunks ∅ (set_index ∅ st)));
    docs_meta ← load_docs_meta;
    _ ← for_each (fun '(doc_uid, doc_info) =>
          match info_doc_id doc_info, info_source_path doc_info with
          | Some doc_id, Some source_path =>
            modify (fun st => set_doc_id_to_source_path
                                (<[doc_id := source_path]> (doc_id_to_source_path st)) st)
          | _, _ => mret tt
          end) docs_meta;
    for_each load_record (read_records data)
  end.

Definition tombstone_chunk (chunk_id : str) : M unit :=
  idx ← gets index;
  match idx !! chunk_id with
  | None => mret tt
  | Some record =>
    _ ← write_index_record
          {| f_chunk_id := chunk_id; f_doc_uid := rec_doc_uid record;
             f_doc_id := rec_doc_id record;
             f_store_offset := store_offset record; f_length := length_ record;
             f_checksum := checksum record; f_is_active := false;
             f_offset_start := rec_offset_start record;
             f_offset_end := rec_offset_end record;
             f_chunk_index := rec_chunk_index record;
             f_page_start := page_arg (rec_page_start record);
             f_page_end := page_arg (rec_page_end record) |};
    modify (fun st => set_index
      (<[chunk_id :=
          {| rec_doc_uid := rec_doc_uid record; rec_doc_id := rec_doc_id record;
             store_offset := store_offset record; length_ := length_ record;
             checksum := checksum record; is_active := false;
             rec_offset_start := rec_offset_start record;
             rec_offset_end := rec_offset_end record;
             rec_chunk_index := rec_chunk_index record;
             rec_page_start := rec_page_start record;
             rec_page_end := rec_page_end record |}]> (index st)) st)
  end.

Definition tombstone_document (doc_uid : str) : M unit :=
  m ← gets doc_uid_to_chunks;
  match m !! doc_uid with
  | None => mret tt
  | Some ids => for_each tombstone_chunk ids
  end.

Section WithLibs.
Context `{!ZstdLib} `{!XXHashLib}.

(** [f.seek(offset); f.read(n)] on a file opened with ["rb"]: the
    operating system refuses a negative [offset]; [n = -1] reads to the
    end of the file, and a smaller [n] is refused. *)
Definition seek_read (file : bytes) (offset n : Z) : result bytes :=
  if offset <? 0 then Raise OSError
  else if n <? -1 then Raise (ValueError (lit "read length must be non-negative or -1"))
  else if n <? 0 then Ok (drop (Z.to_nat offset) file)
  else Ok (read_at file offset n).

Definition page_field (p : option Z) : option Z :=
  match p with
  | Some v => if v =? -1 then None else Some v
  | None => None
  end.

Definition read_chunk (chunk_id : str) : M (option Chunk) :=
  idx ← gets index;
  match idx !! chunk_id with
  | None => mret None
  | Some record =>
    if negb (is_active record) then mret None else
    bin ← gets chunks_bin;
    file ← lift (of_option FileNotFoundError bin);
    compressed_data ← lift (seek_read file (store_offset record) (length_ record));
    decompressed_data ← lift (Compression.decompress_data compressed_data);
    text ← lift (Utf8.decode decompressed_data);
    let computed_checksum := xxh32 decompressed_data in
    if negb (computed_checksum =? checksum record)
    then raise (ValueError (lit "Checksum mismatch for chunk " ++ chunk_id)) else
    paths ← gets doc_id_to_source_path;
    let source_path := default [] (paths !! rec_doc_id record) in
    let source_ref :=
      {| source_path := source_path;
         sr_offset_start := rec_offset_start record;
         sr_offset_end := rec_offset_end record;
         sr_page_start := page_field (rec_page_start record);
         sr_page_end := page_field (rec_page_end record) |} in
    mret (Some
      {| chunk_id := chunk_id; doc_uid := rec_doc_uid record; doc_id := rec_doc_id record;
         text := text;
         offset_start := rec_offset_start record; offset_end := rec_offset_end record;
         chunk_index := rec_chunk_index record; source_ref := source_ref;
         page_start := page_field (rec_page_start record);
         page_end := page_field (rec_page_end record) |})
  end.

End WithLibs.
End ChunkStore.

(** ** [search/tokenizer.py], [search/bm25_index.py], [search/query.py],
       [search/retrieval.py] *)

Module Search.
Import ChunkStore.
Section WithLibs.
Context `{!UnicodeLib} `{!RankBM25} `{!ZstdLib} `{!XXHashLib}.

Record BM25Tokenizer := {
  use_stopwords : bool;
  stopwords : list str       (* a set *)
}.

Definition default_stopwords : list str :=
  map lit
    ["the"; "a"; "an"; "and"; "or"; "but"; "in"; "on"; "at"; "to"; "for"; "of";
     "with"; "by"; "is"; "are"; "was"; "were"; "be"; "been"; "being"; "have";
     "has"; "had"; "do"; "does"; "did"; "will"; "would"; "should"; "could";
     "may"; "might"; "must"; "can"]%string.

(** [BM25Tokenizer(use_stopwords, stopwords)] *)
Definition new_tokenizer (use_stopwords : bool) (stopwords : option (list str))
    : BM25Tokenizer :=
  {| use_stopwords := use_stopwords;
     stopwords := match stopwords with None => default_stopwords | Some sw => sw end |}.

(** [re.findall(r"\w+", s)] *)
Definition findall_words (s : str) : list str := runs is_word s.

Definition tokenize (self : BM25Tokenizer) (text : str) : list str :=
  let text_lower := lower text in
  let tokens := findall_words text_lower in
  if use_stopwords self
  then filter (fun t => t ∉ stopwords self) tokens
  else tokens.

Definition tokenize_query (self : BM25Tokenizer) (query : str) : list str :=
  tokenize self query.

Record BM25Index := {
  config : Config;
  tokenizer : BM25Tokenizer;
  bm25 : option BM25Okapi;     (* [None] until [build] *)
  chunk_ids : list str;
  chunk_id_to_index : gmap str nat
}.

(** [BM25Index(config)] *)
Definition new_index (config : Config) : BM25Index :=
  {| config := config;
     tokenizer := new_tokenizer (bm25_use_stopwords config) None;
     bm25 := None; chunk_ids := []; chunk_id_to_index := ∅ |}.

Definition build (self : BM25Index) (chunks : list Chunk) : result BM25Index :=
  match chunks with
  | [] => Raise (ValueError (lit "Cannot build index from empty chunk list"))
  | _ =>
    let tokenized_corpus := map (fun chunk => tokenize (tokenizer self) (text chunk)) chunks in
    let ids := map chunk_id chunks in
    let id_to_index :=
      foldl (fun m '(idx, chunk) => <[chunk_id chunk := idx]> m) ∅ (imap pair chunks) in
    okapi ← bm25_okapi tokenized_corpus (bm25_k1 (config self)) (bm25_b (config self));
    Ok {| config := config self; tokenizer := tokenizer self;
          bm25 := Some okapi; chunk_ids := ids; chunk_id_to_index := id_to_index |}
  end.

(** [scores[i]] for [i] in [range(len(scores))]. *)
Definition score_at (scores : list pyfloat) (i : nat) : pyfloat :=
  nth i scores (Float 0).

(** [sorted(l, key=key, reverse=True)]: a stable sort; among equal keys the
    original order is kept.  [x] is placed before the first element whose
    key is not greater.  The sort compares keys with [<] only.  When a key
    is NaN these comparisons are not an order, and the order that Python's
    sort returns then depends on its merging strategy: such lists are
    outside the model, which still returns a permutation for them. *)
Fixpoint insert_desc (key : nat -> pyfloat) (x : nat) (l : list nat) : list nat :=
  match l with
  | [] => [x]
  | y :: l' =>
    if float_lt (key y) (key x)
    then x :: l                    (* key y < key x *)
    else if float_lt (key x) (key y)
    then y :: insert_desc key x l' (* key x < key y *)
    else x :: l                    (* equal keys: x came first *)
  end.

Definition sorted_desc (key : nat -> pyfloat) (l : list nat) : list nat :=
  foldr (insert_desc key) [] l.

(** [l[:k]] for any [int] k. *)
Definition slice_to {A} (k : Z) (l : list A) : list A :=
  if 0 <=? k then take (Z.to_nat k) l
  else take (length l - Z.to_nat (- k)) l.

Definition top_indices (scores : list pyfloat) (top_k : Z) : list nat :=
  slice_to top_k (sorted_desc (score_at scores) (seq 0 (length scores))).

Definition search (self : BM25Index) (query : str) (top_k : Z)
    : result (list (str * pyfloat)) :=
  match bm25 self with
  | None => Raise (ValueError (lit "Index not built. Call build() first."))
  | Some okapi =>
    let query_tokens := tokenize_query (tokenizer self) query in
    match query_tokens with
    | [] => Ok []
    | _ =>
      let scores := get_scores okapi query_tokens in
      mapM (fun idx =>
              cid ← of_option IndexError (chunk_ids self !! idx);
              Ok (cid, score_at scores idx))
           (top_indices scores top_k)
    end
  end.

(** The order of [str]: lexicographic on code points. *)
Fixpoint str_ltb (a b : str) : bool :=
  match a, b with
  | _, [] => false
  | [], _ :: _ => true
  | x :: a', y :: b' => ((x <? y) || ((x =? y) && str_ltb a' b'))%N
  end.

Fixpoint insert_str (x : str) (l : list str) : list str :=
  match l with
  | [] => [x]
  | y :: l' => if str_ltb y x then y :: insert_str x l' else x :: l
  end.

(** [sorted(l)] on strings *)
Definition sorted_strs (l : list str) : list str := foldr insert_str [] l.

(** [hay.find(needle)] *)
Fixpoint find (needle hay : str) : Z :=
  if bool_decide (needle `prefix_of` hay) then 0
  else
    match hay with
    | [] => -1
    | _ :: hay' => let r := find needle hay' in if r =? -1 then -1 else r + 1
    end.

(** [text[a:b]] for [0 <= a]. *)
Definition slice (a b : Z) (s : str) : str :=
  take (Z.to_nat b - Z.to_nat a) (drop (Z.to_nat a) s).

Definition generate_snippet (text : str) (matched_terms : list str) (max_length : Z) : str :=
  match matched_terms, text with
  | [], _ | _, [] => match text with [] => [] | _ => slice 0 max_length text end
  | _, _ =>
    let text_lower := lower text in
    let len := Z.of_nat (length text) in
    let first_pos :=
      foldl (fun first_pos term =>
               let pos := find (lower term) text_lower in
               if negb (pos =? -1) && (pos <? first_pos) then pos else first_pos)
            len matched_terms in
    if first_pos =? len then slice 0 max_length text else
    let start := Z.max 0 (first_pos - max_length / 2) in
    let end_ := Z.min len (first_pos + max_length / 2) in
    let snippet := slice start end_ text in
    let snippet := if 0 <? start then lit "..." ++ snippet else snippet in
    let snippet := if end_ <? len then snippet ++ lit "..." else snippet in
    snippet
  end.

(** [QueryProcessor.process_query]; [with_store] says whether the processor
    was given a chunk store. *)
Definition process_query (index : BM25Index) (with_store : bool)
    (query : str) (top_k : Z) : M (list RetrievalResult) :=
  results ← lift (search index query top_k);
  let query_tokens := remove_dups (tokenize_query (tokenizer index) query) in
  mapM (fun '(chunk_id, score) =>
          let empty_ref :=
            {| source_path := []; sr_offset_start := 0; sr_offset_end := 0;
               sr_page_start := None; sr_page_end := None |} in
          found ← (if with_store then read_chunk chunk_id else mret None);
          let '(matched_terms, snippet, source_ref) :=
            match found with
            | Some chunk =>
              let chunk_tokens := tokenize (tokenizer index) (text chunk) in
              let matched_terms :=
                sorted_strs (filter (fun t => t ∈ chunk_tokens) query_tokens) in
              (matched_terms, generate_snippet (text chunk) matched_terms 200,
               source_ref chunk)
            | None => ([], [], empty_ref)
            end in
          mret {| r_chunk_id := chunk_id; score := score;
                  matched_terms := matched_terms; snippet := snippet;
                  r_source_ref := source_ref |})
       results.

(** [RetrievalPipeline] *)
Definition retrieve_ids (index : BM25Index) (query : str) (top_k : Z)
    : result (list (str * pyfloat)) :=
  search index query top_k.

Definition retrieve (index : BM25Index) (query : str) (top_k : Z)
    : M (list RetrievalResult) :=
  process_query index true query top_k.

Definition fetch_chunks (chunk_ids : list str) : M (list Chunk) :=
  found ← mapM read_chunk chunk_ids;
  mret (omap id found).

End WithLibs.
End Search.

(** ** [storage/manifest.py]

    The artifact directory maps the names of the files it holds to their
    contents; [artifact_dir / filename] is the entry [filename].  The
    directory holds readable regular files only (no I/O errors). *)

Module Manifest.

Abbreviation directory := (gmap str bytes).

Section WithHash.
Context `{!HashLib}.

(** [file_path.exists()] *)
Definition exists_ (dir : directory) (filename : str) : bool :=
  bool_decide (is_Some (dir !! filename)).

(** The successive results of [f.read(4096)] up to the first empty one. *)
Equations read_blocks (data : bytes) : list bytes by wf (length data) lt :=
  read_blocks [] := [];
  read_blocks (b :: data') := take 4096 (b :: data') :: read_blocks (drop 4096 (b :: data')).
Next Obligation.
  rewrite length_drop. simpl. lia.
Qed.

(** A [hashlib] hash object is the bytes it was fed so far. *)
Definition sha256_new : bytes := [].
Definition sha256_update (h chunk : bytes) : bytes := h ++ chunk.
Definition sha256_hexdigest (h : bytes) : str := Ids.hexdigest h.

Definition compute_file_checksum (dir : directory) (file_path : str) : result str :=
  match dir !! file_path with
  | None => Raise FileNotFoundError
  | Some data =>
    let sha256 := foldl sha256_update sha256_new (read_blocks data) in
    Ok (sha256_hexdigest sha256)
  end.

Definition required_files : list str :=
  map lit ["chunks.bin"; "chunks.idx"; "bm25_index.pkl"; "docs.meta"]%string.

(** The loop of [create_manifest]. *)
Fixpoint collect_checksums (dir : directory) (files : list str) : result (list (str * str)) :=
  match files with
  | [] => Ok []
  | filename :: files' =>
    if exists_ dir filename then
      c ← compute_file_checksum dir filename;
      rest ← collect_checksums dir files';
      Ok ((filename, c) :: rest)
    else collect_checksums dir files'
  end.

Definition create_manifest (dir : directory) (total_docs total_chunks : Z)
    (index_type compression schema_version artifact_version now : str)
    : result ArtifactManifest :=
  let files_to_check := required_files in
  checksums ← collect_checksums dir files_to_check;
  Ok {| schema_version := schema_version; artifact_version := artifact_version;
        build_timestamp := now; total_docs := total_docs; total_chunks := total_chunks;
        index_type := index_type; compression := compression; checksums := checksums |}.

(** The first loop of [validate_manifest]: [false] is the early
    [return False]. *)
Fixpoint required_exist (dir : directory) (files : list str) : bool :=
  match files with
  | [] => true
  | filename :: files' =>
    if negb (exists_ dir filename) then false else required_exist dir files'
  end.

(** The second loop. *)
Fixpoint checksums_match (dir : directory) (items : list (str * str)) : result bool :=
  match items with
  | [] => Ok true
  | (filename, expected_checksum) :: items' =>
    if negb (exists_ dir filename) then Ok false else
    actual_checksum ← compute_file_checksum dir filename;
    if negb (bool_decide (actual_checksum = expected_checksum)) then Ok false
    else checksums_match dir items'
  end.

Definition validate_manifest (manifest : ArtifactManifest) (dir : directory) : result bool :=
  if negb (required_exist dir required_files) then Ok false
  else checksums_match dir (checksums manifest).

End WithHash.
End Manifest.

(** ** The file-system effects of [save_docs_meta] and [save_manifest]

    Both are [with open(path, "w") as f: json.dump(value, f, indent=2)].
    A call is the list of the operations it performs on the file system,
    in order; [run] gives the state of the file system after each. *)

Module FileIO.

Inductive fs_op :=
| OpenTruncate (path : str)              (* open(path, "w") *)
| WriteChunk (path : str) (data : bytes) (* f.write(data) *)
| Rename (src dst : str).                (* src.rename(dst) *)

Abbreviation filesystem := (gmap str bytes).

Definition apply_op (fs : filesystem) (op : fs_op) : filesystem :=
  match op with
  | OpenTruncate path => <[path := []]> fs
  | WriteChunk path data => <[path := default [] (fs !! path) ++ data]> fs
  | Rename src dst =>
    match fs !! src with
    | Some data => <[dst := data]> (delete src fs)
    | None => fs
    end
  end.

(** The states of the file system after each operation, the first being
    the state after the first operation. *)
Fixpoint run (fs : filesystem) (ops : list fs_op) : list filesystem :=
  match ops with
  | [] => []
  | op :: ops' => let fs' := apply_op fs op in fs' :: run fs' ops'
  end.

Section WithJson.
Context `{!JsonLib}.

(** [with open(path, "w") as f: json.dump(value, f, indent=2)] *)
Definition dump_to (path : str) (value : json) : list fs_op :=
  OpenTruncate path :: map (WriteChunk path) (json_iterencode value 2).

Definition opt_member (key : string) (v : option json) : list (str * json) :=
  match v with
  | Some j => [(lit key, j)]
  | None => []
  end.

Definition json_of_doc_info (i : ChunkStore.doc_info) : json :=
  JObj (opt_member "doc_id" (JStr <$> ChunkStore.info_doc_id i)
        ++ opt_member "source_path" (JStr <$> ChunkStore.info_source_path i)
        ++ opt_member "title" (JStr <$> ChunkStore.info_title i)
        ++ opt_member "page_count" (JInt <$> ChunkStore.info_page_count i)).

Definition json_of_docs_meta (m : list (str * ChunkStore.doc_info)) : json :=
  JObj (map (fun '(doc_uid, i) => (doc_uid, json_of_doc_info i)) m).

(** [ChunkStore.save_docs_meta] *)
Definition save_docs_meta (docs_meta_path : str) (docs_meta : list (str * ChunkStore.doc_info))
    : list fs_op :=
  dump_to docs_meta_path (json_of_docs_meta docs_meta).

(** The dictionary that [save_manifest] builds from the manifest. *)
Definition manifest_dict (manifest : ArtifactManifest) : json :=
  JObj [(lit "schema_version", JStr (schema_version manifest));
        (lit "artifact_version", JStr (artifact_version manifest));
        (lit "build_timestamp", JStr (build_timestamp manifest));
        (lit "total_docs", JInt (total_docs manifest));
        (lit "total_chunks", JInt (total_chunks manifest));
        (lit "index_type", JStr (index_type manifest));
        (lit "compression", JStr (compression manifest));
        (lit "checksums",
         JObj (map (fun '(k, v) => (k, JStr v)) (checksums manifest)))].

(** [ArtifactManifestManager.save_manifest] *)
Definition save_manifest (manifest : ArtifactManifest) (file_path : str) : list fs_op :=
  dump_to file_path (manifest_dict manifest).

End WithJson.
End FileIO.

(* ===================================================================== *)
(** * Part I, continued: the libraries, for running the code              *)
(* ===================================================================== *)

(** ** SHA-256 (FIPS 180-4) and XXH32 over [bytes]

    [hashlib.sha256] and [xxhash.xxh32] as functions, so that the
    identifiers and checksums of the examples are the ones Python
    computes. *)

Module Sha256.

Definition w32 (x : Z) : Z := x mod 2 ^ 32.
Definition rotr (n x : Z) : Z := Z.lor (Z.shiftr x n) (w32 (Z.shiftl x (32 - n))).
Definition ch (x y z : Z) : Z := Z.lxor (Z.land x y) (Z.land (Z.lxor x (2 ^ 32 - 1)) z).
Definition maj (x y z : Z) : Z :=
  Z.lxor (Z.lxor (Z.land x y) (Z.land x z)) (Z.land y z).
Definition bsig0 (x : Z) : Z := Z.lxor (Z.lxor (rotr 2 x) (rotr 13 x)) (rotr 22 x).
Definition bsig1 (x : Z) : Z := Z.lxor (Z.lxor (rotr 6 x) (rotr 11 x)) (rotr 25 x).
Definition ssig0 (x : Z) : Z := Z.lxor (Z.lxor (rotr 7 x) (rotr 18 x)) (Z.shiftr x 3).
Definition ssig1 (x : Z) : Z := Z.lxor (Z.lxor (rotr 17 x) (rotr 19 x)) (Z.shiftr x 10).

(** The constants are defined as the standard defines them: the first 32
    bits of the fractional parts of the cube roots ([K]) and of the square
    roots ([initial]) of the first primes. *)
Definition is_prime (n : Z) : bool :=
  forallb (fun d => negb (n mod Z.of_nat d =? 0)) (seq 2 (Z.to_nat n - 2)).

Definition primes : list Z := filter (fun n => is_prime n) (map Z.of_nat (seq 2 310)).

(** The integer cube root of [n < 2 ^ 108], bit by bit from the top. *)
Definition cube_root (n : Z) : Z :=
  foldl (fun r i => let r' := r + 2 ^ Z.of_nat i in if r' ^ 3 <=? n then r' else r)
        0 (reverse (seq 0 36)).

Definition K : list Z := map (fun p => w32 (cube_root (p * 2 ^ 96))) primes.

Record state := {
  ha : Z; hb : Z; hc : Z; hd : Z; he : Z; hf : Z; hg : Z; hh : Z
}.

Definition initial : state :=
  let h i := w32 (Z.sqrt (nth i primes 0 * 2 ^ 64)) in
  {| ha := h 0%nat; hb := h 1%nat; hc := h 2%nat; hd := h 3%nat;
     he := h 4%nat; hf := h 5%nat; hg := h 6%nat; hh := h 7%nat |}.

(** Big-endian words. *)
Definition be32 (x : Z) : bytes :=
  [byte_of_Z (x / 2 ^ 24 mod 256); byte_of_Z (x / 2 ^ 16 mod 256);
   byte_of_Z (x / 2 ^ 8 mod 256); byte_of_Z (x mod 256)].

Fixpoint be_words (n : nat) (b : bytes) : list Z :=
  match n with
  | O => []
  | S n' =>
    foldl (fun acc a => acc * 256 + Z_of_byte a) 0 (take 4 b) :: be_words n' (drop 4 b)
  end.

(** The message schedule: [ws] holds W(t-1), ..., W(0). *)
Fixpoint schedule (n : nat) (ws : list Z) : list Z :=
  match n with
  | O => ws
  | S n' =>
    let w := w32 (ssig1 (nth 1 ws 0) + nth 6 ws 0 + ssig0 (nth 14 ws 0) + nth 15 ws 0) in
    schedule n' (w :: ws)
  end.

Definition round (s : state) (kw : Z * Z) : state :=
  let t1 := hh s + bsig1 (he s) + ch (he s) (hf s) (hg s) + kw.1 + kw.2 in
  let t2 := bsig0 (ha s) + maj (ha s) (hb s) (hc s) in
  {| ha := w32 (t1 + t2); hb := ha s; hc := hb s; hd := hc s;
     he := w32 (hd s + t1); hf := he s; hg := hf s; hh := hg s |}.

Definition compress (s : state) (block : bytes) : state :=
  let ws := reverse (schedule 48 (reverse (be_words 16 block))) in
  let s' := foldl round s (zip K ws) in
  {| ha := w32 (ha s + ha s'); hb := w32 (hb s + hb s'); hc := w32 (hc s + hc s');
     hd := w32 (hd s + hd s'); he := w32 (he s + he s'); hf := w32 (hf s + hf s');
     hg := w32 (hg s + hg s'); hh := w32 (hh s + hh s') |}.

Definition pad (m : bytes) : bytes :=
  let len := Z.of_nat (length m) in
  let zeros := Z.to_nat ((55 - len) mod 64) in
  m ++ [byte_of_Z 128] ++ replicate zeros NUL
    ++ be32 (len * 8 / 2 ^ 32 mod 2 ^ 32) ++ be32 (len * 8 mod 2 ^ 32).

Fixpoint blocks (n : nat) (b : bytes) : list bytes :=
  match n with
  | O => []
  | S n' => take 64 b :: blocks n' (drop 64 b)
  end.

Definition digest (m : bytes) : bytes :=
  let p := pad m in
  let s := foldl compress initial (blocks (length p / 64) p) in
  be32 (ha s) ++ be32 (hb s) ++ be32 (hc s) ++ be32 (hd s)
  ++ be32 (he s) ++ be32 (hf s) ++ be32 (hg s) ++ be32 (hh s).

End Sha256.

Module XXH32.

Definition w32 (x : Z) : Z := x mod 2 ^ 32.
Definition rotl (n x : Z) : Z := w32 (Z.lor (Z.shiftl x n) (Z.shiftr x (32 - n))).

Definition PRIME1 : Z := 2654435761.
Definition PRIME2 : Z := 2246822519.
Definition PRIME3 : Z := 3266489917.
Definition PRIME4 : Z := 668265263.
Definition PRIME5 : Z := 374761393.

(** Little-endian word at the head of [b]. *)
Definition le32 (b : bytes) : Z :=
  foldr (fun a acc => Z_of_byte a + 256 * acc) 0 (take 4 b).

Definition round (acc input : Z) : Z :=
  w32 (rotl 13 (w32 (acc + input * PRIME2)) * PRIME1).

(** The 16-byte stripes: four lanes. *)
Fixpoint stripes (n : nat) (v : Z * Z * Z * Z) (b : bytes) : Z * Z * Z * Z * bytes :=
  match n with
  | O => (v, b)
  | S n' =>
    let '(v1, v2, v3, v4) := v in
    stripes n' (round v1 (le32 b), round v2 (le32 (drop 4 b)),
                round v3 (le32 (drop 8 b)), round v4 (le32 (drop 12 b)))
            (drop 16 b)
  end.

Fixpoint tail_words (n : nat) (h : Z) (b : bytes) : Z * bytes :=
  match n with
  | O => (h, b)
  | S n' => tail_words n' (w32 (rotl 17 (w32 (h + le32 b * PRIME3)) * PRIME4)) (drop 4 b)
  end.

Definition tail_bytes (h : Z) (b : bytes) : Z :=
  foldl (fun h a => w32 (rotl 11 (w32 (h + Z_of_byte a * PRIME5)) * PRIME1)) h b.

Definition avalanche (h : Z) : Z :=
  let h := Z.lxor h (Z.shiftr h 15) in
  let h := w32 (h * PRIME2) in
  let h := Z.lxor h (Z.shiftr h 13) in
  let h := w32 (h * PRIME3) in
  Z.lxor h (Z.shiftr h 16).

(** [xxh32(data, seed=0).intdigest()] *)
Definition intdigest (data : bytes) : Z :=
  let len := length data in
  let '(h, rest) :=
    if (16 <=? len)%nat then
      let '(v1, v2, v3, v4, rest) :=
        stripes (len / 16) (w32 (PRIME1 + PRIME2), PRIME2, 0, w32 (- PRIME1)) data in
      (w32 (rotl 1 v1 + rotl 7 v2 + rotl 12 v3 + rotl 18 v4), rest)
    else (PRIME5, data) in
  let h := w32 (h + Z.of_nat len) in
  let '(h, rest) := tail_words (length rest / 4) h rest in
  avalanche (tail_bytes h rest).

End XXH32.

Definition ascii_bytes (s : string) : bytes := list_ascii_of_string s.
Definition hexs (b : bytes) : str := @Ids.hex b.

(** ** Instances of the library classes *)

Module Instances.

#[export] Instance hashlib_sha256 : HashLib := Sha256.digest.

#[export] Instance xxhash_xxh32 : XXHashLib := XXH32.intdigest.

(** A codec that frames the data unchanged behind the zstd magic number;
    it stands for [zstandard] where an example has to run. *)
Definition frame_magic : bytes := map byte_of_Z [40; 181; 47; 253].

#[export] Instance raw_frames : ZstdLib := {
  zstd_compress level data := frame_magic ++ data;
  zstd_decompress frame :=
    if bool_decide (take 4 frame = frame_magic) then Ok (drop 4 frame)
    else Raise ZstdError
}.

(** The character tables restricted to what the examples need:
    Python's white space, the ASCII word characters and letter cases, and
    the compatibility mappings of the space characters. *)
Definition py_isspace (c : N) : bool :=
  bool_decide (c ∈ [9; 10; 11; 12; 13; 28; 29; 30; 31; 32; 133; 160; 5760;
                     8232; 8233; 8239; 8287; 12288]%N)
  || ((8192 <=? c) && (c <=? 8202))%N.

Definition ascii_is_word (c : N) : bool :=
  (((48 <=? c) && (c <=? 57)) || ((65 <=? c) && (c <=? 90))
   || ((97 <=? c) && (c <=? 122)) || (c =? 95))%N.

Definition ascii_lower (s : str) : str :=
  map (fun c => if ((65 <=? c) && (c <=? 90))%N then (c + 32)%N else c) s.

Definition space_compat (c : N) : N :=
  if bool_decide (c ∈ [160; 8239; 8287; 12288]%N) || ((8192 <=? c) && (c <=? 8202))%N
  then 32%N else c.

#[export] Instance basic_unicode : UnicodeLib := {
  isspace := py_isspace;
  is_word := ascii_is_word;
  lower := ascii_lower;
  nfkc := map space_compat
}.

(** A scorer that counts the occurrences of the query terms; it stands
    for [rank_bm25], and like it refuses a corpus without any term. *)
Definition term_count (query_tokens doc : list str) : Q :=
  inject_Z (Z.of_nat (length (filter (fun t => t ∈ query_tokens) doc))).

#[export] Instance term_frequency : RankBM25 := {
  BM25Okapi := list (list str);
  bm25_okapi corpus k1 b :=
    match concat corpus with
    | [] => Raise ZeroDivisionError
    | _ => Ok corpus
    end;
  get_scores corpus query_tokens :=
    map (fun doc => Float (term_count query_tokens doc)) corpus
}.

(** An encoder that writes one token per chunk, without indentation; it
    stands for [json]. *)
Definition quoted (s : str) : bytes :=
  Utf8.encode ([34%N] ++ s ++ [34%N]).

Fixpoint json_tokens (v : json) : list bytes :=
  match v with
  | JNull => [Utf8.encode (lit "null")]
  | JInt n => [Utf8.encode (Ids.str_of_int n)]
  | JStr s => [quoted s]
  | JObj members =>
    [Utf8.encode (lit "{")]
    ++ (fix go (ms : list (str * json)) : list bytes :=
          match ms with
          | [] => []
          | (k, v) :: ms' =>
            [quoted k ++ Utf8.encode (lit ": ")] ++ json_tokens v
            ++ match ms' with [] => [] | _ => [Utf8.encode (lit ", ")] end
            ++ go ms'
          end) members
    ++ [Utf8.encode (lit "}")]
  end.

#[export] Instance plain_json : JsonLib := fun v indent => json_tokens v.

End Instances.

(* ===================================================================== *)
(** * Part I, continued: the vocabulary of the theorems                   *)
(* ===================================================================== *)

Module Spec.
Import Struct ChunkStore Manifest FileIO Normalizer Chunker Search.
Local Close Scope Z_scope.

(** ** Records of the index *)

(** What a packed value reads back as: a byte string comes back cut or
    padded to the width of its field. *)
Definition stored (it : item) (v : value) : value :=
  match it, v with
  | Fs n, VBytes b => VBytes (take n (ljust n NUL b))
  | _, _ => v
  end.

(** An identifier that its 32-byte field holds without loss. *)
Definition id_fits (s : str) : Prop :=
  Utf8.wf_str s /\ (length (Utf8.encode s) <= 32)%nat /\ last s <> Some 0%N.

(** The index file is a whole number of records. *)
Definition aligned (data : bytes) : Prop :=
  exists k : nat, length data = (k * 141)%nat.

(** Every key of the in-memory index is such an identifier. *)
Definition keys_fit (st : store) : Prop :=
  map_Forall (fun k _ => id_fits k) (index st).

(** ** Identifiers *)

Definition is_digit (c : N) : bool := ((48 <=? c) && (c <=? 57))%N.

Definition is_lower_hex (c : N) : bool :=
  (is_digit c || ((97 <=? c) && (c <=? 102)))%N.

(** The number that a string of decimal digits denotes. *)
Definition decimal_value (s : str) : N :=
  foldl (fun acc c => 10 * acc + (c - 48))%N 0%N s.

(** [s] is the decimal numeral of [n]: digits only, at least one, that
    denote [n], with no leading zero but for [0] itself. *)
Definition decimal_of (n : N) (s : str) : Prop :=
  s <> [] /\ Forall (fun c => is_digit c = true) s
  /\ decimal_value s = n
  /\ (head s = Some 48%N -> s = [48%N]).

(** The value of a hexadecimal digit [0-9a-f]. *)
Definition hex_value (c : N) : N := (if is_digit c then c - 48 else c - 87)%N.

(** [s] is the lowercase hexadecimal form of [b]: two digits for each
    byte, the high one first. *)
Fixpoint hex_of (b : bytes) (s : str) : Prop :=
  match b, s with
  | [], [] => True
  | a :: b', hi :: lo :: s' =>
    is_lower_hex hi = true /\ is_lower_hex lo = true
    /\ (16 * hex_value hi + hex_value lo)%N = N_of_ascii a
    /\ hex_of b' s'
  | _, _ => False
  end.

(** ** Files *)

(** The claim of an atomic replacement of [target] by [content]: the
    operations rename a temporary sibling over the target, and at no point
    does the target hold anything but its old or its new content. *)
Definition replaces_atomically
    (target : str) (content : bytes) (ops : list fs_op) : Prop :=
  (exists tmp, tmp <> target /\ Rename tmp target ∈ ops)
  /\ forall fs0 : filesystem,
       Forall (fun fs => fs !! target = fs0 !! target \/ fs !! target = Some content)
              (run fs0 ops).

(** Only [path] is opened and written; nothing is renamed. *)
Definition writes_in_place (path : str) (op : fs_op) : Prop :=
  op = OpenTruncate path \/ exists data, op = WriteChunk path data.

(** The file at [path] is rewritten in place with [content]: the
    operations open and write [path] itself; the first one leaves it
    empty, every later state holds a prefix of [content], the last state
    holds all of it, and no other file changes. *)
Definition rewrites_in_place (path : str) (content : bytes) (ops : list fs_op) : Prop :=
  Forall (writes_in_place path) ops
  /\ forall fs0 : filesystem,
       head (run fs0 ops) = Some (<[path := []]> fs0)
       /\ last (run fs0 ops) = Some (<[path := content]> fs0)
       /\ Forall (fun fs => exists written,
                    written `prefix_of` content /\ fs = <[path := written]> fs0)
                 (run fs0 ops).

(** ** Ranking *)

(** [before key p q]: in a stable descending sort by [key], the entry at
    position [p] comes before the entry at position [q]. *)
Definition before (key : nat -> Q) (p q : nat) : Prop :=
  (key q < key p)%Q \/ ((key p == key q)%Q /\ (p < q)%nat).

(** The number that a score is, when it is one. *)
Definition number (x : pyfloat) : Q :=
  match x with
  | Float q => q
  | NaN => 0%Q
  end.

(** ** Chunks *)

(** The length of the longest prefix of [l] whose elements satisfy [p]. *)
Fixpoint span_len {A} (p : A -> bool) (l : list A) : nat :=
  match l with
  | x :: l' => if p x then S (span_len p l') else 0
  | [] => 0
  end.

(** The start offsets strictly increase along the list. *)
Definition starts_increase (chunks : list Chunk) : Prop :=
  StronglySorted (fun c1 c2 => (offset_start c1 < offset_start c2)%Z) chunks.

Section WithLibs.
Context {hashlib : HashLib} {zstd : ZstdLib} {unicode : UnicodeLib} {rank : RankBM25}.

(** What the proofs use of [hashlib.sha256]: a digest has 32 bytes. *)
Definition sha256_spec : Prop := forall m : bytes, length (sha256 m) = 32%nat.

(** The digest of which a chunk identifier is the beginning: the
    lowercase hexadecimal SHA-256 of the UTF-8 bytes of
    [doc_uid + decimal(offset_start) + decimal(offset_end)
     + hex(sha256(UTF-8 of chunk_text))]. *)
Definition chunk_digest (doc_uid : str) (offset_start offset_end : Z) (chunk_text : str)
    (digest : str) : Prop :=
  exists ds de text_hash : str,
    decimal_of (Z.to_N offset_start) ds /\ decimal_of (Z.to_N offset_end) de
    /\ hex_of (sha256 (Utf8.encode chunk_text)) text_hash
    /\ hex_of (sha256 (Utf8.encode (doc_uid ++ ds ++ de ++ text_hash))) digest.


(** What the proofs use of [rank_bm25]: [get_scores] returns one score per
    document of the corpus. *)
Definition rank_bm25_spec : Prop :=
  forall corpus k1 b okapi query_tokens,
    bm25_okapi corpus k1 b = Ok okapi ->
    length (get_scores okapi query_tokens) = length corpus.

(** A listed file is present and hashes to the digest stored for it. *)
Definition entry_ok (dir : directory) (entry : str * str) : Prop :=
  exists data, dir !! entry.1 = Some data /\ Ids.hexdigest data = entry.2.

(** What strict validation checks. *)
Definition manifest_valid (manifest : ArtifactManifest) (dir : directory) : Prop :=
  (forall f, f ∈ required_files -> is_Some (dir !! f))
  /\ Forall (entry_ok dir) (checksums manifest).

(** No tab, and no space next to another; [prev] says that a space
    came just before. *)
Fixpoint collapsed (prev : bool) (s : str) : bool :=
  match s with
  | [] => true
  | c :: s' =>
    if is_blank c then (c =? SP)%N && negb prev && collapsed true s'
    else collapsed false s'
  end.

(** What the proof uses of [unicodedata.normalize("NFKC", _)]: it is
    idempotent; a piece of a normalized string is normalized; and two
    normalized strings joined by a space or a line feed are
    normalized (these two characters are starters that take part in no
    composition). *)
Definition nfkc_stable (s : str) : Prop := nfkc s = s.

Record nfkc_spec : Prop := {
  nfkc_idem : forall s, nfkc_stable (nfkc s);
  nfkc_piece : forall a b, nfkc_stable (a ++ b) -> nfkc_stable a /\ nfkc_stable b;
  nfkc_join : forall a c b,
    c = SP \/ c = LF -> nfkc_stable a -> nfkc_stable b -> nfkc_stable (a ++ c :: b)
}.

(** [scan n l]: how many characters of [l] the loops of
    [_find_chunk_end] and [_find_chunk_start] consume in [n]
    iterations. *)
Fixpoint scan (n : nat) (l : str) : nat :=
  match n with
  | O => 0
  | S n' =>
    match l with
    | [] => 0
    | _ =>
      let a := span_len isspace l in
      let b := span_len not_space (drop a l) in
      a + b + scan n' (drop (a + b) l)
    end
  end.

(** The number of words of [l]; [inw] says that [l] continues a word. *)
Fixpoint wc (inw : bool) (l : str) : nat :=
  match l with
  | [] => 0
  | c :: l' =>
    if not_space c then (if inw then 0 else 1) + wc true l'
    else wc false l'
  end.

(** Whether the text read so far ends inside a word. *)
Definition ends_in_word (inw : bool) (l : str) : bool :=
  match last l with
  | None => inw
  | Some c => not_space c
  end.

End WithLibs.
End Spec.

(* ===================================================================== *)
(** * Part I, continued: the data of the examples                         *)
(* ===================================================================== *)

Module Examples.
Import Instances.

Definition ex_doc : Document :=
  {| d_doc_uid := lit "abc123def456"; d_doc_id := lit "0123456789abcdef";
     d_source_path := lit "test.txt"; raw_text := lit "a b c d";
     normalized_text := lit "a b c d"; title := None; pages := None |}.

Definition ex_cfg : Config :=
  {| chunk_size := 2; chunk_overlap := 1; bm25_k1 := 1.5; bm25_b := 0.75;
     bm25_use_stopwords := false; zstd_level := 3 |}.

Definition ex_ref (stop : Z) : SourceRef :=
  {| source_path := lit "test.txt"; sr_offset_start := 0; sr_offset_end := stop;
     sr_page_start := None; sr_page_end := None |}.

(** A chunk with the identifier that [generate_chunk_id] gives it. *)
Definition ex_chunk : Chunk :=
  {| chunk_id := lit "074c963cf28f7494"; doc_uid := lit "abc123def456";
     doc_id := lit "0123456789abcdef"; text := lit "Hello world";
     offset_start := 0; offset_end := 11; chunk_index := 0;
     source_ref := ex_ref 11; page_start := None; page_end := None |}.

Definition ex_chunk' (id body : string) (idx : Z) : Chunk :=
  {| chunk_id := lit id; doc_uid := lit "abc123def456";
     doc_id := lit "0123456789abcdef"; text := lit body;
     offset_start := 0; offset_end := Z.of_nat (length (lit body)); chunk_index := idx;
     source_ref := ex_ref (Z.of_nat (length (lit body)));
     page_start := None; page_end := None |}.

(** A corpus in which the second and the third entry score alike for the
    query [machine]. *)
Definition ex_corpus : list Chunk :=
  [ex_chunk' "c0" "deep learning" 0;
   ex_chunk' "c1" "machine learning" 1;
   ex_chunk' "c2" "a learning machine" 2;
   ex_chunk' "c3" "machine machine" 3].

(** The store: empty, after writing [ex_chunk], after the tombstone, and
    after it was opened again. *)
Definition st0 : ChunkStore.store := ChunkStore.init None None None.

Definition st1 : ChunkStore.store :=
  (ChunkStore.write_chunk ex_chunk
     (Compression.compress_data (Utf8.encode (text ex_chunk)) 3)
     (xxh32 (Utf8.encode (text ex_chunk))) st0).2.

Definition st2 : ChunkStore.store :=
  (ChunkStore.tombstone_chunk (chunk_id ex_chunk) st1).2.

Definition st3 : ChunkStore.store :=
  (ChunkStore.load_index (ChunkStore.reopen st2)).2.

(** The index that [build] returns, if it returns one. *)
Definition built (chunks : list Chunk) : Search.BM25Index :=
  match Search.build (Search.new_index ex_cfg) chunks with
  | Ok index => index
  | Raise _ => Search.new_index ex_cfg
  end.

(** The record of the format test of the repository
    ([tests/unit/test_chunk_store_format.py]), with no page range. *)
Definition ex_record : ChunkStore.index_fields :=
  {| ChunkStore.f_chunk_id := replicate 16 97%N;
     ChunkStore.f_doc_uid := replicate 16 98%N;
     ChunkStore.f_doc_id := replicate 16 99%N;
     ChunkStore.f_store_offset := 1000; ChunkStore.f_length := 500;
     ChunkStore.f_checksum := 12345; ChunkStore.f_is_active := true;
     ChunkStore.f_offset_start := 0; ChunkStore.f_offset_end := 100;
     ChunkStore.f_chunk_index := 0;
     ChunkStore.f_page_start := -1; ChunkStore.f_page_end := -1 |}.

Definition ex_docs_meta : list (str * ChunkStore.doc_info) :=
  [(lit "abc123def456",
    {| ChunkStore.info_doc_id := Some (lit "0123456789abcdef");
       ChunkStore.info_source_path := Some (lit "test.txt");
       ChunkStore.info_title := None;
       ChunkStore.info_page_count := None |})].

Definition ex_manifest : ArtifactManifest :=
  {| schema_version := lit "1.0"; artifact_version := lit "1.0";
     build_timestamp := lit "2024-01-01T00:00:00";
     total_docs := 1; total_chunks := 1;
     index_type := lit "bm25"; compression := lit "zstd";
     checksums := [] |}.

End Examples.

(* ===================================================================== *)
(** * Part I, continued: the rest of the modules                          *)
(* ===================================================================== *)

(** ** [core/ids.py]: paths and document identifiers *)

Module Paths.

Definition SLASH : N := 47%N.
Definition BACKSLASH : N := 92%N.

(** [s.split(sep)] for a separator of one character: the pieces between
    the separators, the empty ones included.  [cur] is the piece being
    read, reversed. *)
Fixpoint split_aux (sep : N) (cur : str) (s : str) : list str :=
  match s with
  | [] => [reverse cur]
  | c :: s' =>
    if (c =? sep)%N then reverse cur :: split_aux sep [] s'
    else split_aux sep (c :: cur) s'
  end.

Definition split_on (sep : N) (s : str) : list str := split_aux sep [] s.

(** [sep.join(parts)] *)
Fixpoint join (sep : str) (parts : list str) : str :=
  match parts with
  | [] => []
  | part :: parts' =>
    match parts' with
    | [] => part
    | _ => part ++ sep ++ join sep parts'
    end
  end.

(** [s.replace(a, b)] for strings of one character. *)
Definition replace_char (a b : N) (s : str) : str :=
  map (fun c => if (c =? a)%N then b else c) s.

(** The body of the loop of [normalize_path]; [parts.pop()] removes the
    last element. *)
Definition resolve_part (parts : list str) (part : str) : list str :=
  if bool_decide (part = lit ".") then parts
  else if bool_decide (part = lit "..") then
    match parts with
    | [] => parts
    | _ => removelast parts
    end
  else parts ++ [part].

Definition normalize_path (rel_path : str) : str :=
  let normalized := replace_char BACKSLASH SLASH rel_path in
  let parts := foldl resolve_part [] (split_on SLASH normalized) in
  join [SLASH] parts.

Section WithHash.
Context `{!HashLib}.

Definition generate_doc_uid (rel_path : str) : str :=
  let normalized_path := normalize_path rel_path in
  let hash_obj := Ids.hexdigest (Utf8.encode normalized_path) in
  take 16 hash_obj.

End WithHash.
End Paths.

(** ** [ingestion/parsers.py]

    [parse_pdf] after the file was read: the texts of the pages as
    PyMuPDF returns them; the path relative to the corpus root; the title
    of the PDF metadata and the stem of the file name. *)

Module Parsers.
Section WithLibs.
Context `{!UnicodeLib} `{!HashLib}.

(** The first loop of [parse_pdf]: the pages, numbered from [page_num],
    with their offsets in the raw text. *)
Fixpoint collect_pages (page_num current_offset : Z) (texts : list str) : list Page :=
  match texts with
  | [] => []
  | text :: texts' =>
    let page_start := current_offset in
    let page_end := current_offset + Z.of_nat (length text) in
    {| page_number := page_num; page_text := text;
       page_offset_start := page_start; page_offset_end := page_end |}
    :: collect_pages (page_num + 1) page_end texts'
  end.

(** The second loop: the offsets of the pages in the normalized text, and
    the parts that make up this text.  [first] is [idx = 0]. *)
Fixpoint place_pages (first : bool) (offset : Z) (pages : list Page)
    : list Page * list str :=
  match pages with
  | [] => ([], [])
  | page :: pages' =>
    let normalized_page_text := Normalizer.normalize_text (page_text page) in
    let separator := if first then [] else [[Normalizer.LF]] in
    let offset := if first then offset else offset + 1 in
    let offset_end := offset + Z.of_nat (length normalized_page_text) in
    let '(placed, parts) := place_pages false offset_end pages' in
    ({| page_number := page_number page; page_text := page_text page;
        page_offset_start := offset; page_offset_end := offset_end |} :: placed,
     separator ++ normalized_page_text :: parts)
  end.

(** [a or b] on an optional string: [b] when [a] is [None] or empty. *)
Definition or_else (a : option str) (b : str) : str :=
  match a with
  | Some (c :: s) => c :: s
  | _ => b
  end.

Definition parse_pdf (texts : list str) (rel_path : str)
    (metadata_title : option str) (stem : str) : Document :=
  let pages := collect_pages 1 0 texts in
  let raw_text := Paths.join [Normalizer.LF] texts in
  let '(pages, normalized_text_parts) := place_pages true 0 pages in
  let normalized_text := concat normalized_text_parts in
  let doc_uid := Paths.generate_doc_uid rel_path in
  let normalized_text_hash := Ids.hexdigest (Utf8.encode normalized_text) in
  let doc_id := Ids.generate_doc_id doc_uid normalized_text_hash in
  let title := or_else metadata_title stem in
  {| d_doc_uid := doc_uid; d_doc_id := doc_id; d_source_path := rel_path;
     raw_text := raw_text; normalized_text := normalized_text;
     title := Some title; pages := Some pages |}.

End WithLibs.
End Parsers.

(** ** [storage/chunk_store.py], continued *)

Module StoreChecks.
Import ChunkStore.

(** [ChunkStore.validate_invariants].  [items] is [self.index.items()],
    the entries of the index in the order of the dict; the second loop
    of the method does nothing. *)
Definition validate_invariants (items : list (str * record)) (st : store) : list str :=
  match chunks_bin st with
  | Some file =>
    let bin_size := Z.of_nat (length file) in
    flat_map
      (fun '(chunk_id, record) =>
         if negb (is_active record) then []
         else
           let store_offset := store_offset record in
           let length := length_ record in
           if bin_size <? store_offset + length then
             [lit "Chunk " ++ chunk_id ++ lit ": store_offset " ++ Ids.str_of_int store_offset
              ++ lit " + length " ++ Ids.str_of_int length
              ++ lit " exceeds chunks.bin size " ++ Ids.str_of_int bin_size]
           else [])
      items
  | None => []
  end.

End StoreChecks.

(** ** [search/retrieval.py], continued, and [rag/context.py] *)

Module Pipeline.
Import ChunkStore Search.
Section WithLibs.
Context `{!UnicodeLib} `{!RankBM25} `{!ZstdLib} `{!XXHashLib}.

(** [RetrievalPipeline.retrieve_and_fetch] *)
Definition retrieve_and_fetch (index : BM25Index) (query : str) (top_k : Z)
    : M (list RetrievalResult * list Chunk) :=
  results ← retrieve index query top_k;
  let chunk_ids := map r_chunk_id results in
  chunks ← fetch_chunks chunk_ids;
  mret (results, chunks).

End WithLibs.

(** The citation that [assemble_context] puts before the text of a
    chunk. *)
Definition citation_of (chunk : Chunk) : str :=
  let citation := lit "[Doc: " ++ source_path (source_ref chunk) in
  let citation :=
    match sr_page_start (source_ref chunk) with
    | Some page => citation ++ lit ", Page: " ++ Ids.str_of_int page
    | None => citation
    end in
  citation ++ lit "]".

(** The loop of [assemble_context]; [seen_docs] is a set. *)
Fixpoint context_parts (seen_docs : list str) (chunks : list Chunk) : list str :=
  match chunks with
  | [] => []
  | chunk :: chunks' =>
    let doc_key := doc_id chunk in
    if bool_decide (doc_key ∈ seen_docs) then context_parts seen_docs chunks'
    else (citation_of chunk ++ lit " " ++ text chunk)
         :: context_parts (doc_key :: seen_docs) chunks'
  end.

Definition assemble_context (chunks : list Chunk) : str :=
  Paths.join [Normalizer.LF; Normalizer.LF] (context_parts [] chunks).

End Pipeline.

(** ** The vocabulary of the theorems, continued *)

Module Invariants.
Import ChunkStore.

(** A component that [normalize_path] keeps. *)
Definition kept (part : str) : Prop :=
  part <> lit "." /\ part <> lit ".."
  /\ (Paths.SLASH ∉ part) /\ (Paths.BACKSLASH ∉ part).

Section WithUnicode.
Context `{!UnicodeLib}.

(** The offsets of a page delimit its normalized text in [text]. *)
Definition page_slice (text : str) (page : Page) : Prop :=
  exists a b : nat,
    page_offset_start page = Z.of_nat a /\ page_offset_end page = Z.of_nat b
    /\ (a <= b <= length text)%nat
    /\ take (b - a) (drop a text) = Normalizer.normalize_text (page_text page).

End WithUnicode.

Section WithHash.
Context `{!HashLib}.

(** A chunk of [document]: its text is the slice of the normalized text
    that its offsets delimit, which is not empty, and its other fields
    are derived from the document and the offsets. *)
Definition chunk_slice (document : Document) (c : Chunk) : Prop :=
  exists a b : nat,
    offset_start c = Z.of_nat a /\ offset_end c = Z.of_nat b
    /\ (a < b <= length (normalized_text document))%nat
    /\ text c = take (b - a) (drop a (normalized_text document))
    /\ doc_uid c = d_doc_uid document /\ doc_id c = d_doc_id document
    /\ chunk_id c
       = Ids.generate_chunk_id (d_doc_uid document) (offset_start c) (offset_end c) (text c)
    /\ (page_start c, page_end c)
       = Chunker.derive_page_range (pages document) (offset_start c) (offset_end c)
    /\ source_ref c
       = {| source_path := d_source_path document;
            sr_offset_start := offset_start c; sr_offset_end := offset_end c;
            sr_page_start := page_start c; sr_page_end := page_end c |}.

End WithHash.

(** A file after a call, against the file before it: untouched, or the
    same bytes followed by new ones (a missing file counts as empty). *)
Definition appended (old new : option bytes) : Prop :=
  new = old \/ exists data, new = Some (default [] old ++ data).

(** The call left the earlier bytes of [chunks.bin] and [chunks.idx] in
    place and did not touch [docs.meta]. *)
Definition append_only (st st' : store) : Prop :=
  appended (chunks_bin st) (chunks_bin st')
  /\ appended (chunks_idx st) (chunks_idx st')
  /\ docs_meta st' = docs_meta st.


(** The payload of the record lies within [chunks.bin]: what
    [validate_invariants] checks of an active record. *)
Definition within_bin (st : store) (rec : record) : Prop :=
  exists file,
    chunks_bin st = Some file
    /\ 0 <= store_offset rec /\ 0 <= length_ rec
    /\ store_offset rec + length_ rec <= Z.of_nat (length file).

(** Every active record ends within [chunks.bin] (a missing file is
    empty). *)
Definition store_valid (st : store) : Prop :=
  forall id rec,
    index st !! id = Some rec -> is_active rec = true ->
    store_offset rec + length_ rec <= Z.of_nat (length (default [] (chunks_bin st))).

(** [read_chunk] returns [None] for [id]: the id is unknown or its
    record is inactive. *)
Definition absent (st : store) (id : str) : Prop :=
  match index st !! id with
  | None => True
  | Some rec => is_active rec = false
  end.

(** The source reference of a result whose chunk was not read. *)
Definition empty_ref : SourceRef :=
  {| source_path := []; sr_offset_start := 0; sr_offset_end := 0;
     sr_page_start := None; sr_page_end := None |}.

(** The order of Python on strings, strict and large. *)
Definition str_lt (a b : str) : Prop := Search.str_ltb a b = true.
Definition str_le (a b : str) : Prop := Search.str_ltb b a = false.

#[export] Instance absent_dec st id : Decision (absent st id).
Proof. unfold absent. destruct (index st !! id); apply _. Defined.

#[export] Typeclasses Opaque absent.

(** The page spans [[page_offset_start, page_offset_end)] and the chunk
    spans [[offset_start, offset_end)] share a position. *)
Definition overlaps (offset_start offset_end : Z) (page : Page) : Prop :=
  page_offset_start page < offset_end /\ offset_start < page_offset_end page.

#[export] Instance overlaps_dec offset_start offset_end page :
  Decision (overlaps offset_start offset_end page).
Proof. unfold overlaps. apply _. Defined.

End Invariants.

(** ** The data of the examples, continued *)

Module Scenarios.
Import Instances Examples.

(** A path with a backslash, a [.] and a [..]. *)
Definition ex_path : str := lit "docs\a/./b/../c.txt".

(** The texts of the pages of a document, with blanks to normalize. *)
Definition ex_pages : list str := [lit "Page  one "; lit " two"; lit "three"].

(** A second chunk of the document of [ex_chunk]. *)
Definition ex_other : Chunk := ex_chunk' "c1" "machine learning" 1.

(** The store after [ex_chunk] and [ex_other] were written; then after
    the document of both was tombstoned. *)
Definition st_both : ChunkStore.store :=
  (ChunkStore.write_chunk ex_other
     (Compression.compress_data (Utf8.encode (text ex_other)) 3)
     (xxh32 (Utf8.encode (text ex_other))) st1).2.

Definition st_cleared : ChunkStore.store :=
  (ChunkStore.tombstone_document (doc_uid ex_chunk) st_both).2.


(** What a call returned, if it returned. *)
Definition returned {A} (r : result (list A)) : list A :=
  match r with
  | Ok l => l
  | Raise _ => []
  end.

(** The results for [hello] while [ex_chunk] is live, and after it was
    tombstoned and the store opened again. *)
Definition ex_results : list RetrievalResult :=
  returned (Search.retrieve (built [ex_chunk]) (lit "hello") 5 st1).1.

Definition ex_results_dead : list RetrievalResult :=
  returned (Search.retrieve (built [ex_chunk]) (lit "hello") 5 st3).1.

Definition ex_fetched : list Chunk :=
  returned (Search.fetch_chunks [chunk_id ex_chunk; lit "missing"] st1).1.

Definition ex_chunks : list Chunk :=
  default [] (Chunker.chunk_document_in 8 ex_cfg ex_doc).

End Scenarios.

(* ===================================================================== *)
(** * Part II: the theorems                                               *)
(* ===================================================================== *)

Import Bytes Spec.

(** Linear arithmetic with division and modulo by constants. *)
Ltac div_lia := zify; Z.to_euclidean_division_equations; lia.

Module Utf8Facts.
Import Utf8.
Local Open Scope N_scope.

Lemma N_of_byte n : n < 256 -> N_of_ascii (byte n) = n.
Proof. intros. apply N_ascii_embedding. lia. Qed.

Lemma byte_of_N_of_ascii a : byte (N_of_ascii a) = a.
Proof. apply ascii_N_embedding. Qed.

Lemma N_of_ascii_lt a : N_of_ascii a < 256.
Proof. apply N_ascii_bounded. Qed.

Lemma bt_byte lo hi n : n < 256 -> bt lo hi (byte n) = ((lo <=? n) && (n <=? hi)).
Proof. intros. unfold bt. now rewrite N_of_byte. Qed.

Lemma bt_true lo hi a : bt lo hi a = true <-> lo <= N_of_ascii a <= hi.
Proof. unfold bt. rewrite andb_true_iff, !N.leb_le. tauto. Qed.

Lemma bt_false lo hi a : bt lo hi a = false <-> N_of_ascii a < lo \/ hi < N_of_ascii a.
Proof. unfold bt. rewrite andb_false_iff, !N.leb_gt. tauto. Qed.

Ltac bt_norm :=
  unfold cont, low6;
  repeat match goal with
  | |- context [bt ?lo ?hi (byte ?n)] => rewrite (bt_byte lo hi n) by lia
  | |- context [N_of_ascii (byte ?n)] => rewrite (N_of_byte n) by lia
  end.

Ltac bool_lia :=
  repeat (match goal with
  | |- context [(?a <=? ?b)] =>
      first [ replace (a <=? b) with true by (symmetry; apply N.leb_le; lia)
            | replace (a <=? b) with false by (symmetry; apply N.leb_gt; lia) ]
  | |- context [(?a <? ?b)] =>
      first [ replace (a <? b) with true by (symmetry; apply N.ltb_lt; lia)
            | replace (a <? b) with false by (symmetry; apply N.ltb_ge; lia) ]
  end; cbn [andb orb]).

Lemma is_scalar_ranges c :
  is_scalar c = true <-> c < 55296 \/ 57343 < c <= 1114111.
Proof.
  unfold is_scalar. rewrite orb_true_iff, andb_true_iff, !N.ltb_lt, N.leb_le. tauto.
Qed.

Lemma digits c :
  exists d0 d1 d2 d3,
    d0 < 64 /\ d1 < 64 /\ d2 < 64 /\
    c = d0 + 64 * d1 + 4096 * d2 + 262144 * d3 /\
    c mod 64 = d0 /\ c / 64 = d1 + 64 * d2 + 4096 * d3 /\
    (c / 64) mod 64 = d1 /\ c / 4096 = d2 + 64 * d3 /\
    (c / 4096) mod 64 = d2 /\ c / 262144 = d3.
Proof.
  exists (c mod 64), ((c / 64) mod 64), ((c / 4096) mod 64), (c / 262144).
  assert (E1 : c / 4096 = c / 64 / 64) by (rewrite N.Div0.div_div; reflexivity).
  assert (E2 : c / 262144 = c / 4096 / 64) by (rewrite N.Div0.div_div; reflexivity).
  pose proof (N.div_mod c 64). pose proof (N.mod_lt c 64).
  pose proof (N.div_mod (c / 64) 64). pose proof (N.mod_lt (c / 64) 64).
  pose proof (N.div_mod (c / 4096) 64). pose proof (N.mod_lt (c / 4096) 64).
  rewrite <- E1 in *. rewrite <- E2 in *.
  repeat split; lia.
Qed.

Lemma decode_encode_char c rest :
  is_scalar c = true ->
  decode (encode_char c ++ rest) = cons_char c (decode rest).
Proof.
  rewrite is_scalar_ranges. intros Hr.
  destruct (digits c) as (d0 & d1 & d2 & d3 & H0 & H1 & H2 & Hc & E0 & E1 & E2 & E3 & E4 & E5).
  unfold encode_char. rewrite E0, E2, E4, E1, E3, E5. clear E0 E1 E2 E3 E4 E5.
  assert (d3 <= 4) by lia.
  rewrite (N.mod_small d3 8) by lia.
  assert (Hcase : c < 128 \/ 128 <= c < 2048 \/ 2048 <= c < 4096 \/ 4096 <= c < 53248
               \/ 53248 <= c < 55296 \/ 57344 <= c < 65536 \/ 65536 <= c < 262144
               \/ 262144 <= c < 1048576 \/ 1048576 <= c < 1114112) by lia.
  clear Hr.
  decompose [or] Hcase; clear Hcase; bool_lia; cbn [app decode]; bt_norm; bool_lia;
    cbn [andb]; f_equal; lia.
Qed.

Lemma decode_encode s :
  wf_str s -> decode (encode s) = Ok s.
Proof.
  induction 1 as [|c s Hc _ IH]; [reflexivity|].
  unfold encode in *. cbn [flat_map]. rewrite decode_encode_char by done.
  rewrite IH. reflexivity.
Qed.

Lemma encode_char_2 n0 n1 :
  194 <= n0 <= 223 -> 128 <= n1 <= 191 ->
  let c := (n0 - 192) * 64 + (n1 - 128) in
  encode_char c = [byte n0; byte n1] /\ is_scalar c = true.
Proof.
  intros H0 H1 c. subst c. split.
  - unfold encode_char. bool_lia. repeat f_equal; div_lia.
  - apply is_scalar_ranges. lia.
Qed.

Lemma encode_char_3 n0 n1 n2 :
  224 <= n0 <= 239 -> 128 <= n1 <= 191 -> 128 <= n2 <= 191 ->
  (n0 = 224 -> 160 <= n1) -> (n0 = 237 -> n1 <= 159) ->
  let c := (n0 - 224) * 4096 + (n1 - 128) * 64 + (n2 - 128) in
  encode_char c = [byte n0; byte n1; byte n2] /\ is_scalar c = true.
Proof.
  intros H0 H1 H2 Ha Hb c. subst c. split.
  - unfold encode_char. bool_lia. repeat f_equal; div_lia.
  - apply is_scalar_ranges. lia.
Qed.

Lemma encode_char_4 n0 n1 n2 n3 :
  240 <= n0 <= 244 -> 128 <= n1 <= 191 -> 128 <= n2 <= 191 -> 128 <= n3 <= 191 ->
  (n0 = 240 -> 144 <= n1) -> (n0 = 244 -> n1 <= 143) ->
  let c := (n0 - 240) * 262144 + (n1 - 128) * 4096 + (n2 - 128) * 64 + (n3 - 128) in
  encode_char c = [byte n0; byte n1; byte n2; byte n3] /\ is_scalar c = true.
Proof.
  intros H0 H1 H2 H3 Ha Hb c. subst c. split.
  - unfold encode_char. bool_lia. repeat f_equal; div_lia.
  - apply is_scalar_ranges. lia.
Qed.

Lemma cons_char_inv c r s :
  cons_char c r = Ok s -> exists s', r = Ok s' /\ s = c :: s'.
Proof.
  unfold cons_char. destruct r as [s'|e]; cbn; [|discriminate].
  intros [= <-]. eauto.
Qed.

Lemma decode_cons_inv b0 t0 s :
  decode (b0 :: t0) = Ok s ->
  exists c s' rest,
    b0 :: t0 = encode_char c ++ rest /\ s = c :: s' /\ decode rest = Ok s'
    /\ is_scalar c = true.
Proof.
  intros H. cbn [decode] in H.
  pose proof (byte_of_N_of_ascii b0) as B0.
  destruct (bt 0 127 b0) eqn:E0.
  { apply cons_char_inv in H as (s' & Hr & ->). apply bt_true in E0.
    exists (N_of_ascii b0), s', t0. repeat split; auto.
    - unfold encode_char. bool_lia. now rewrite B0.
    - apply is_scalar_ranges. lia. }
  destruct t0 as [|b1 t1]; [discriminate|].
  pose proof (byte_of_N_of_ascii b1) as B1.
  destruct (bt 194 223 b0) eqn:E1.
  { destruct (cont b1) eqn:C1; [|discriminate].
    apply cons_char_inv in H as (s' & Hr & ->). apply bt_true in E1, C1.
    destruct (encode_char_2 (N_of_ascii b0) (N_of_ascii b1)) as [He Hs]; try lia.
    rewrite B0, B1 in He. eexists _, s', t1. rewrite He. repeat split; auto. }
  destruct t1 as [|b2 t2]; [discriminate|].
  pose proof (byte_of_N_of_ascii b2) as B2.
  destruct (bt 224 239 b0) eqn:E2.
  { match type of H with (if ?c then _ else _) = _ => destruct c eqn:C; [|discriminate] end.
    apply cons_char_inv in H as (s' & Hr & ->).
    apply andb_true_iff in C as [C1 C2]. apply bt_true in E2, C2.
    destruct (encode_char_3 (N_of_ascii b0) (N_of_ascii b1) (N_of_ascii b2)) as [He Hs];
      try lia.
    1-3: destruct (bt 224 224 b0) eqn:Ea; [apply bt_true in Ea, C1; lia|];
         destruct (bt 237 237 b0) eqn:Eb; apply bt_true in C1;
         apply bt_false in Ea; [apply bt_true in Eb|apply bt_false in Eb]; lia.
    rewrite B0, B1, B2 in He. eexists _, s', t2. rewrite He. repeat split; auto. }
  destruct t2 as [|b3 t3]; [discriminate|].
  pose proof (byte_of_N_of_ascii b3) as B3.
  destruct (bt 240 244 b0) eqn:E3; [|discriminate].
  match type of H with (if ?c then _ else _) = _ => destruct c eqn:C; [|discriminate] end.
  apply cons_char_inv in H as (s' & Hr & ->).
  apply andb_true_iff in C as [C C3]. apply andb_true_iff in C as [C1 C2].
  apply bt_true in E3, C2, C3.
  destruct (encode_char_4 (N_of_ascii b0) (N_of_ascii b1) (N_of_ascii b2) (N_of_ascii b3))
    as [He Hs]; try lia.
  1-3: destruct (bt 240 240 b0) eqn:Ea; [apply bt_true in Ea, C1; lia|];
       destruct (bt 244 244 b0) eqn:Eb; apply bt_true in C1;
       apply bt_false in Ea; [apply bt_true in Eb|apply bt_false in Eb]; lia.
  rewrite B0, B1, B2, B3 in He. eexists _, s', t3. rewrite He. repeat split; auto.
Qed.

Lemma encode_decode bs s :
  decode bs = Ok s -> encode s = bs /\ wf_str s.
Proof.
  revert bs. induction s as [|c s IH]; intros bs H.
  - destruct bs as [|b0 t0]; [split; [reflexivity|constructor]|].
    apply decode_cons_inv in H as (? & ? & ? & _ & [=] & _).
  - destruct bs as [|b0 t0]; [discriminate|].
    apply decode_cons_inv in H as (c' & s' & rest & E & [= <- <-] & Hr & Hs).
    destruct (IH _ Hr) as [IH1 IH2]. split.
    + rewrite E. unfold encode in *. cbn [flat_map]. now rewrite IH1.
    + constructor; assumption.
Qed.

Lemma encode_char_nonempty c : encode_char c <> [].
Proof. unfold encode_char. repeat case_match; discriminate. Qed.

Lemma encode_char_last_nul c :
  last (encode_char c) = Some NUL -> c = 0.
Proof.
  unfold encode_char.
  assert (forall n, n < 256 -> byte n = NUL -> n = 0) as Hz.
  { intros n Hn E. apply (f_equal N_of_ascii) in E. now rewrite N_of_byte in E. }
  assert (c mod 64 < 64) by (apply N.mod_lt; lia).
  destruct (N.ltb_spec c 128); [|repeat case_match]; cbn [last]; intros [= E];
    apply Hz in E; div_lia.
Qed.

Lemma encode_app s t : encode (s ++ t) = encode s ++ encode t.
Proof. unfold encode. apply flat_map_app. Qed.

Lemma encode_last_nul s :
  last (encode s) = Some NUL -> last s = Some 0.
Proof.
  destruct s as [|c s _] using rev_ind; [discriminate|].
  rewrite encode_app. unfold encode at 2. cbn [flat_map]. rewrite app_nil_r.
  rewrite last_snoc.
  destruct (encode_char c) as [|b l] eqn:E using rev_ind.
  { now apply encode_char_nonempty in E. }
  rewrite app_assoc, last_snoc. intros [= ->].
  f_equal. apply encode_char_last_nul. rewrite E. apply last_snoc.
Qed.

End Utf8Facts.

Module BytesFacts.

Lemma Z_of_byte_of_Z z : 0 <= z < 256 -> Z_of_byte (byte_of_Z z) = z.
Proof.
  intros H. unfold Z_of_byte, byte_of_Z.
  rewrite N_ascii_embedding by lia. lia.
Qed.

Lemma Z_of_byte_range a : 0 <= Z_of_byte a < 256.
Proof. unfold Z_of_byte. pose proof (N_ascii_bounded a). lia. Qed.

Lemma length_ljust width fill b :
  length (ljust width fill b) = (length b `max` width)%nat.
Proof. unfold ljust. rewrite length_app, length_replicate. lia. Qed.

Lemma ljust_short width fill b :
  (length b <= width)%nat -> length (ljust width fill b) = width.
Proof. rewrite length_ljust. lia. Qed.

Lemma drop_while_replicate {A} (p : A -> bool) k x l :
  p x = true -> drop_while p (replicate k x ++ l) = drop_while p l.
Proof. intros Hp. induction k as [|k IH]; cbn; [done|]. now rewrite Hp. Qed.

Lemma rstrip_nul_pad b k : rstrip_nul (b ++ replicate k NUL) = rstrip_nul b.
Proof.
  unfold rstrip_nul. rewrite reverse_app, reverse_replicate.
  now rewrite drop_while_replicate by reflexivity.
Qed.

Lemma is_nul_spec a : is_nul a = true <-> a = NUL.
Proof.
  unfold is_nul. rewrite N.eqb_eq. split; [|now intros ->].
  intros H. rewrite <- (ascii_N_embedding a), H. reflexivity.
Qed.

Lemma rstrip_nul_id b : last b <> Some NUL -> rstrip_nul b = b.
Proof.
  unfold rstrip_nul. destruct b as [|a b _] using rev_ind; [done|].
  rewrite last_snoc, reverse_snoc. intros H. cbn [drop_while].
  destruct (is_nul a) eqn:E.
  - apply is_nul_spec in E. congruence.
  - now rewrite reverse_cons, reverse_involutive.
Qed.

Lemma drop_while_head {A} (p : A -> bool) l x :
  head (drop_while p l) = Some x -> p x = false.
Proof.
  induction l as [|y l IH]; cbn; [done|].
  destruct (p y) eqn:E; [done|]. cbn. now intros [= <-].
Qed.

Lemma drop_while_length {A} (p : A -> bool) l :
  (length (drop_while p l) <= length l)%nat.
Proof. induction l as [|y l IH]; cbn; [lia|]. destruct (p y); cbn; lia. Qed.

Lemma rstrip_nul_last b : last (rstrip_nul b) <> Some NUL.
Proof.
  unfold rstrip_nul. rewrite last_reverse. intros H.
  apply drop_while_head in H. discriminate.
Qed.

Lemma rstrip_nul_length b : (length (rstrip_nul b) <= length b)%nat.
Proof.
  unfold rstrip_nul. rewrite length_reverse.
  etrans; [apply drop_while_length|]. now rewrite length_reverse.
Qed.

End BytesFacts.

Module StructFacts.
Import Struct BytesFacts.

Lemma length_le_encode n v : length (le_encode n v) = n.
Proof. revert v. induction n as [|n IH]; intros v; cbn; [done|]. now rewrite IH. Qed.

Lemma le_decode_encode n v :
  0 <= v < 256 ^ Z.of_nat n -> le_decode (le_encode n v) = v.
Proof.
  revert v. induction n as [|n IH]; intros v Hv.
  - cbn in *. lia.
  - cbn [le_encode le_decode].
    rewrite Nat2Z.inj_succ, Z.pow_succ_r in Hv by lia.
    rewrite Z_of_byte_of_Z by (apply Z.mod_pos_bound; lia).
    rewrite IH.
    + pose proof (Z.div_mod v 256). lia.
    + split; [apply Z.div_pos; lia|]. apply Z.div_lt_upper_bound; lia.
Qed.

Lemma in_range_spec lo hi z : in_range lo hi z = true <-> lo <= z < hi.
Proof. unfold in_range. rewrite andb_true_iff, Z.leb_le, Z.ltb_lt. tauto. Qed.

Lemma pack_item_length it v b :
  pack_item it v = Some b -> length b = item_size it.
Proof.
  destruct it, v; cbn [pack_item item_size]; try discriminate.
  - intros [= <-]. rewrite length_take, length_ljust. lia.
  - case_match; intros Hb; [|discriminate]; assert (b = le_encode 8 z) as -> by congruence; apply length_le_encode.
  - case_match; intros Hb; [|discriminate]; assert (b = le_encode 4 z) as -> by congruence; apply length_le_encode.
  - case_match; intros Hb; [|discriminate]; assert (b = le_encode 1 z) as -> by congruence; apply length_le_encode.
  - case_match; intros Hb; [|discriminate]; assert (b = le_encode 4 (z mod 2 ^ 32)) as -> by congruence; apply length_le_encode.
Qed.

Lemma unpack_pack_item it v b :
  pack_item it v = Some b -> unpack_item it b = stored it v.
Proof.
  destruct it, v; cbn [pack_item unpack_item stored]; try discriminate.
  - now intros [= <-].
  - case_match eqn:E; intros Hb; [|discriminate].
    assert (b = le_encode 8 z) as -> by congruence. apply in_range_spec in E.
    f_equal. apply (le_decode_encode 8). exact E.
  - case_match eqn:E; intros Hb; [|discriminate].
    assert (b = le_encode 4 z) as -> by congruence. apply in_range_spec in E.
    f_equal. apply (le_decode_encode 4). exact E.
  - case_match eqn:E; intros Hb; [|discriminate].
    assert (b = le_encode 1 z) as -> by congruence. apply in_range_spec in E.
    f_equal. apply (le_decode_encode 1). exact E.
  - case_match eqn:E; intros Hb; [|discriminate].
    assert (b = le_encode 4 (z mod 2 ^ 32)) as -> by congruence. apply in_range_spec in E.
    rewrite (le_decode_encode 4) by (apply Z.mod_pos_bound; lia).
    f_equal. destruct (Z.ltb_spec (z mod 2 ^ 32) (2 ^ 31)) as [H|H].
    + destruct (Z.ltb_spec z 0).
      * rewrite <- (Z.mod_unique z (2 ^ 32) (-1) (z + 2 ^ 32)) in H; lia.
      * rewrite Z.mod_small in *; lia.
    + destruct (Z.ltb_spec z 0).
      * rewrite <- (Z.mod_unique z (2 ^ 32) (-1) (z + 2 ^ 32)); lia.
      * rewrite Z.mod_small in *; lia.
Qed.

Lemma unpack_pack_items fmt vs b :
  pack_items fmt vs = Some b ->
  length b = calcsize fmt /\ unpack_items fmt b = zip_with stored fmt vs.
Proof.
  revert vs b. induction fmt as [|it fmt IH]; intros [|v vs] b; cbn; try discriminate.
  - now intros [= <-].
  - destruct (pack_item it v) as [bi|] eqn:Ei; cbn; [|discriminate].
    destruct (pack_items fmt vs) as [br|] eqn:Er; cbn; [|discriminate].
    intros [= <-]. destruct (IH _ _ Er) as [IH1 IH2].
    pose proof (pack_item_length _ _ _ Ei) as Hl.
    rewrite length_app, Hl, IH1. split; [done|].
    rewrite take_app_length' by done. rewrite drop_app_length' by done.
    rewrite IH2. f_equal. now apply unpack_pack_item.
Qed.

End StructFacts.

Module RecordFacts.
Import Struct ChunkStore BytesFacts StructFacts Utf8Facts.

Lemma index_record_items_eq :
  index_record_items = [Fs 32; Fs 32; Fs 32; FQ; FI; FI; FB; FQ; FQ; FI; Fi; Fi].
Proof. reflexivity. Qed.

Lemma INDEX_RECORD_SIZE_eq : INDEX_RECORD_SIZE = 141%nat.
Proof. reflexivity. Qed.

Lemma length_pad_id s : length (pad_id s) = 32%nat.
Proof.
  unfold pad_id, prefix_slice. rewrite length_ljust, length_take. lia.
Qed.

Lemma stored_pad_id s : take 32 (ljust 32 NUL (pad_id s)) = pad_id s.
Proof.
  unfold ljust at 1. rewrite length_pad_id. cbn [replicate Nat.sub].
  rewrite app_nil_r. apply take_ge. now rewrite length_pad_id.
Qed.

Lemma unpad_pad_id s : id_fits s -> unpad_id (pad_id s) = Ok s.
Proof.
  intros (Hwf & Hlen & Hlast). unfold unpad_id, pad_id, prefix_slice, ljust.
  rewrite take_ge by done. rewrite rstrip_nul_pad.
  rewrite rstrip_nul_id.
  - now apply decode_encode.
  - intros H. now apply encode_last_nul in H.
Qed.

(** Whatever a 32-byte field decodes to is an identifier that fits. *)
Lemma unpad_id_fits b s :
  (length b <= 32)%nat -> unpad_id b = Ok s -> id_fits s.
Proof.
  unfold unpad_id. intros Hb Hd. apply encode_decode in Hd as [He Hwf].
  split; [done|]. rewrite He. split.
  - etrans; [apply rstrip_nul_length|done].
  - intros Hl. apply (rstrip_nul_last b). rewrite <- He.
    destruct s as [|c s _] using rev_ind; [done|].
    rewrite last_snoc in Hl. injection Hl as ->.
    rewrite encode_app, last_app. reflexivity.
Qed.

Lemma pack_index_record_inv r b :
  pack_index_record r = Ok b ->
  pack_items index_record_items
    [VBytes (pad_id (f_chunk_id r)); VBytes (pad_id (f_doc_uid r));
     VBytes (pad_id (f_doc_id r));
     VInt (f_store_offset r); VInt (f_length r); VInt (f_checksum r);
     VInt (if f_is_active r then 1 else 0);
     VInt (f_offset_start r); VInt (f_offset_end r);
     VInt (f_chunk_index r); VInt (f_page_start r); VInt (f_page_end r)] = Some b.
Proof.
  unfold pack_index_record, pack, of_option. case_match; [congruence|discriminate].
Qed.

Lemma length_packed r b : pack_index_record r = Ok b -> length b = 141%nat.
Proof.
  intros H. apply pack_index_record_inv, unpack_pack_items in H as [H _].
  exact H.
Qed.

(** Unpacking a packed record, before the identifiers are decoded. *)
Lemma unpack_packed r b :
  pack_index_record r = Ok b ->
  unpack index_record_items b =
    Ok [VBytes (pad_id (f_chunk_id r)); VBytes (pad_id (f_doc_uid r));
        VBytes (pad_id (f_doc_id r));
        VInt (f_store_offset r); VInt (f_length r); VInt (f_checksum r);
        VInt (if f_is_active r then 1 else 0);
        VInt (f_offset_start r); VInt (f_offset_end r);
        VInt (f_chunk_index r); VInt (f_page_start r); VInt (f_page_end r)].
Proof.
  intros H. apply pack_index_record_inv, unpack_pack_items in H as [Hl Hu].
  unfold unpack. rewrite Hl, Nat.eqb_refl, Hu, index_record_items_eq.
  cbn [zip_with stored]. now rewrite !stored_pad_id.
Qed.

Lemma unpack_pack_index_record r b :
  id_fits (f_chunk_id r) -> id_fits (f_doc_uid r) -> id_fits (f_doc_id r) ->
  pack_index_record r = Ok b -> unpack_index_record b = Ok r.
Proof.
  intros H1 H2 H3 Hp. unfold unpack_index_record.
  rewrite (unpack_packed _ _ Hp). cbn [mbind result_bind].
  rewrite !unpad_pad_id by done. cbn [mbind result_bind].
  destruct r as [? ? ? ? ? ? [] ? ? ? ? ?]; reflexivity.
Qed.

End RecordFacts.

Module RecordLayout.
Import Struct ChunkStore BytesFacts StructFacts Utf8Facts RecordFacts.

Lemma packed_layout r b :
  pack_index_record r = Ok b ->
  b = pad_id (f_chunk_id r) ++ pad_id (f_doc_uid r) ++ pad_id (f_doc_id r)
      ++ le_encode 8 (f_store_offset r) ++ le_encode 4 (f_length r)
      ++ le_encode 4 (f_checksum r) ++ le_encode 1 (if f_is_active r then 1 else 0)
      ++ le_encode 8 (f_offset_start r) ++ le_encode 8 (f_offset_end r)
      ++ le_encode 4 (f_chunk_index r)
      ++ le_encode 4 (f_page_start r mod 2 ^ 32) ++ le_encode 4 (f_page_end r mod 2 ^ 32).
Proof.
  intros H. apply pack_index_record_inv in H. rewrite index_record_items_eq in H.
  cbn [pack_items pack_item mbind option_bind] in H.
  rewrite !stored_pad_id in H.
  repeat match type of H with
         | context [if ?c then _ else _] => destruct c; [|discriminate H]
         end.
  cbn [mbind option_bind] in H. rewrite app_nil_r in H. congruence.
Qed.

Lemma write_index_record_inv r st st' :
  write_index_record r st = (Ok tt, st') ->
  exists b, pack_index_record r = Ok b
            /\ st' = set_chunks_idx (append_file (chunks_idx st) b) st.
Proof.
  unfold write_index_record, mbind, M_bind, lift, modify.
  destruct (pack_index_record r) as [b|e]; [|discriminate].
  intros [= <-]. eauto.
Qed.

(** C6.  The index record is 141 bytes: the twelve fields in the order
    chunk_id, doc_uid, doc_id, store_offset, length, checksum, is_active,
    offset_start, offset_end, chunk_index, page_start, page_end, of widths
    32/32/32/8/4/4/1/8/8/4/4/4, little-endian and without padding; and a
    record appended by [_write_index_record] whose identifiers take at most
    32 UTF-8 bytes and do not end in NUL is read back by [load_index]'s
    unpacking with exactly the fields that were written. *)
Theorem index_record_roundtrip (st st' : store) (r : index_fields) :
  id_fits (f_chunk_id r) -> id_fits (f_doc_uid r) -> id_fits (f_doc_id r) ->
  write_index_record r st = (Ok tt, st') ->
  INDEX_RECORD_SIZE = 141%nat /\
  map item_size index_record_items = [32; 32; 32; 8; 4; 4; 1; 8; 8; 4; 4; 4]%nat /\
  exists b,
    chunks_idx st' = Some (default [] (chunks_idx st) ++ b)
    /\ length b = INDEX_RECORD_SIZE
    /\ b = pad_id (f_chunk_id r) ++ pad_id (f_doc_uid r) ++ pad_id (f_doc_id r)
           ++ le_encode 8 (f_store_offset r) ++ le_encode 4 (f_length r)
           ++ le_encode 4 (f_checksum r) ++ le_encode 1 (if f_is_active r then 1 else 0)
           ++ le_encode 8 (f_offset_start r) ++ le_encode 8 (f_offset_end r)
           ++ le_encode 4 (f_chunk_index r)
           ++ le_encode 4 (f_page_start r mod 2 ^ 32)
           ++ le_encode 4 (f_page_end r mod 2 ^ 32)
    /\ unpack_index_record b = Ok r.
Proof.
  intros H1 H2 H3 Hw. split; [reflexivity|]. split; [reflexivity|].
  apply write_index_record_inv in Hw as (b & Hp & ->). exists b.
  split; [reflexivity|]. split; [exact (length_packed r b Hp)|].
  split; [now apply packed_layout|]. now apply unpack_pack_index_record.
Qed.

End RecordLayout.

Module IdsFacts.
Import Ids.

Lemma digits_unfold n :
  digits n = if decide (n < 10)%N then [48 + n]%N
             else digits (n / 10) ++ [48 + n mod 10]%N.
Proof. rewrite digits_equation_1. unfold digits_unfold_clause_1. now destruct (decide _). Qed.

Lemma digits_decimal n :
  Forall (fun c => is_digit c = true) (digits n)
  /\ decimal_value (digits n) = n
  /\ (head (digits n) = Some 48%N -> n = 0%N).
Proof.
  induction n as [n IH] using (well_founded_induction N.lt_wf_0).
  rewrite digits_unfold. destruct (decide (n < 10)%N) as [H|H].
  - split; [|split].
    + repeat constructor. unfold is_digit. apply andb_true_iff.
      rewrite !N.leb_le. lia.
    + unfold decimal_value. cbn. lia.
    + cbn. intros [=]. lia.
  - assert (n / 10 < n)%N as Hlt by (apply N.div_lt; lia).
    destruct (IH _ Hlt) as (IH1 & IH2 & IH3).
    pose proof (N.mod_lt n 10 ltac:(lia)).
    split; [|split].
    + apply Forall_app. split; [done|]. repeat constructor.
      unfold is_digit. apply andb_true_iff. rewrite !N.leb_le. div_lia.
    + unfold decimal_value in *. rewrite foldl_app, IH2. cbn [foldl].
      div_lia.
    + intros Hh. assert (n / 10 <> 0)%N.
      { intros E. div_lia. }
      destruct (digits (n / 10)) as [|c l] eqn:E.
      * cbn in IH2. unfold decimal_value in IH2. cbn in IH2. lia.
      * cbn in Hh. apply IH3 in Hh. lia.
Qed.

Lemma str_of_int_nonneg n : 0 <= n -> str_of_int n = digits (Z.to_N n).
Proof. intros H. unfold str_of_int. now rewrite (proj2 (Z.ltb_ge n 0)). Qed.

Lemma hex_digit_lower d : (d < 16)%N -> is_lower_hex (hex_digit d) = true.
Proof.
  intros H. unfold is_lower_hex, is_digit, hex_digit.
  destruct (N.ltb_spec d 10); apply orb_true_iff; [left|right];
    apply andb_true_iff; rewrite !N.leb_le; lia.
Qed.

Lemma length_hex b : length (hex b) = (2 * length b)%nat.
Proof.
  induction b as [|a b IH]; [done|]. unfold hex in *. cbn [flat_map].
  rewrite length_app, IH. cbn [length]. lia.
Qed.

Lemma hex_lower b : Forall (fun c => is_lower_hex c = true) (hex b).
Proof.
  induction b as [|a b IH]; [constructor|]. unfold hex in *. cbn [flat_map app].
  pose proof (N_ascii_bounded a).
  constructor; [|constructor; [|done]]; apply hex_digit_lower.
  - div_lia.
  - div_lia.
Qed.

(** The numeral that [digits] writes is the decimal numeral, and there
    is no other. *)
Lemma digits_decimal_of n : decimal_of n (digits n).
Proof.
  destruct (digits_decimal n) as (H1 & H2 & H3).
  split; [|split; [done|split; [done|]]].
  - rewrite digits_unfold. destruct (decide _); [done|]. now destruct (digits (n / 10)).
  - intros Hh. rewrite (H3 Hh). now rewrite digits_unfold.
Qed.

Lemma decimal_value_snoc s c :
  decimal_value (s ++ [c]) = (10 * decimal_value s + (c - 48))%N.
Proof. unfold decimal_value. now rewrite foldl_app. Qed.

Lemma decimal_value_pos c s :
  Forall (fun c => is_digit c = true) (c :: s) -> c <> 48%N ->
  (0 < decimal_value (c :: s))%N.
Proof.
  intros Hd Hc. revert Hd. induction s as [|d s IH] using rev_ind; intros Hd.
  - apply Forall_cons in Hd as [Hd _]. unfold is_digit in Hd.
    apply andb_true_iff in Hd as [Hd _]. apply N.leb_le in Hd.
    unfold decimal_value. cbn [foldl]. lia.
  - rewrite app_comm_cons in *. apply Forall_app in Hd as [Hd _].
    rewrite decimal_value_snoc. specialize (IH Hd). lia.
Qed.

Lemma decimal_of_unique n s : decimal_of n s -> s = digits n.
Proof.
  revert n. induction s as [|c s IH] using rev_ind; intros n (Hne & Hd & Hv & Hz); [done|].
  clear Hne. apply Forall_app in Hd as [Hd Hc].
  apply Forall_cons in Hc as [Hc _]. unfold is_digit in Hc.
  apply andb_true_iff in Hc as [Hc1 Hc2]. apply N.leb_le in Hc1, Hc2.
  rewrite decimal_value_snoc in Hv. rewrite digits_unfold.
  destruct s as [|d s].
  - unfold decimal_value in Hv. cbn [foldl] in Hv.
    rewrite decide_True by lia. cbn [app]. do 2 f_equal. lia.
  - assert (d <> 48%N) as Hd0.
    { intros ->. specialize (Hz eq_refl). apply (f_equal length) in Hz.
      rewrite length_app in Hz. cbn in Hz. lia. }
    pose proof (decimal_value_pos d s Hd Hd0) as Hpos.
    rewrite decide_False by lia.
    assert (n / 10 = decimal_value (d :: s) /\ n mod 10 = c - 48)%N as [Hq Hr].
    { div_lia. }
    rewrite Hr. rewrite (IH (n / 10)%N).
    + do 2 f_equal. lia.
    + split; [done|]. split; [done|]. split; [done|].
      cbn. intros [= ->]. done.
Qed.

Lemma hex_value_digit d : (d < 16)%N -> hex_value (hex_digit d) = d.
Proof.
  intros H. unfold hex_value, hex_digit, is_digit.
  destruct (N.ltb_spec d 10).
  - rewrite (proj2 (N.leb_le 48 (48 + d))), (proj2 (N.leb_le (48 + d) 57)) by lia.
    cbn [andb]. lia.
  - rewrite (proj2 (N.leb_gt (87 + d) 57)) by lia. rewrite andb_false_r. lia.
Qed.

Lemma hex_digit_value c :
  is_lower_hex c = true -> (hex_value c < 16)%N /\ hex_digit (hex_value c) = c.
Proof.
  unfold is_lower_hex, hex_value, hex_digit. destruct (is_digit c) eqn:E.
  - intros _. unfold is_digit in E. apply andb_true_iff in E as [E1 E2].
    apply N.leb_le in E1, E2. split; [lia|].
    rewrite (proj2 (N.ltb_lt (c - 48) 10)) by lia. lia.
  - cbn [orb]. intros H. apply andb_true_iff in H as [E1 E2].
    apply N.leb_le in E1, E2. split; [lia|].
    rewrite (proj2 (N.ltb_ge (c - 87) 10)) by lia. lia.
Qed.

(** The string that [hex] writes is the hexadecimal form, and there is
    no other. *)
Lemma hex_hex_of b : hex_of b (hex b).
Proof.
  induction b as [|a b IH]; [done|]. unfold hex in *. cbn [flat_map app hex_of].
  pose proof (N_ascii_bounded a).
  assert (N_of_ascii a / 16 < 16 /\ N_of_ascii a mod 16 < 16)%N as [H1 H2] by div_lia.
  split; [now apply hex_digit_lower|]. split; [now apply hex_digit_lower|].
  split; [|exact IH]. rewrite !hex_value_digit by done. div_lia.
Qed.

Lemma hex_of_unique b s : hex_of b s -> s = hex b.
Proof.
  revert s. induction b as [|a b IH]; intros s H.
  - destruct s; [done|]. destruct H.
  - destruct s as [|hi [|lo s]]; [destruct H|destruct H|].
    cbn [hex_of] in H. destruct H as (Hhi & Hlo & Hv & H).
    apply hex_digit_value in Hhi as [Hh1 Hh2], Hlo as [Hl1 Hl2].
    unfold hex. cbn [flat_map app]. fold (hex b). rewrite <- (IH s H).
    assert (N_of_ascii a / 16 = hex_value hi /\ N_of_ascii a mod 16 = hex_value lo)%N
      as [-> ->] by div_lia.
    now rewrite Hh2, Hl2.
Qed.

Section WithHash.
Context {hashlib : HashLib}.

Lemma chunk_digest_unique doc_uid offset_start offset_end chunk_text digest :
  0 <= offset_start -> 0 <= offset_end ->
  chunk_digest doc_uid offset_start offset_end chunk_text digest
  <-> digest = hexdigest (Utf8.encode
                 (doc_uid ++ str_of_int offset_start ++ str_of_int offset_end
                  ++ hexdigest (Utf8.encode chunk_text))).
Proof.
  intros Hs He. rewrite !str_of_int_nonneg by done. unfold hexdigest. split.
  - intros (ds & de & th & H1 & H2 & H3 & H4).
    apply decimal_of_unique in H1, H2. apply hex_of_unique in H3.
    apply hex_of_unique in H4. congruence.
  - intros ->. eexists _, _, _.
    split; [apply digits_decimal_of|]. split; [apply digits_decimal_of|].
    split; apply hex_hex_of.
Qed.

(** C4.  For non-negative offsets, [generate_chunk_id] returns the first
    16 characters of the lowercase hexadecimal SHA-256 digest of the
    UTF-8 bytes of
    [doc_uid + decimal(offset_start) + decimal(offset_end)
     + hex(sha256(UTF-8 of chunk_text))],
    where the decimal numerals and the hexadecimal forms are described by
    [decimal_of] and [hex_of] and not by the functions of the program:
    there is such a digest, and whatever digest fits the description
    begins with the identifier.  The identifier has 16 characters, all
    of them lowercase hexadecimal digits, and equal inputs give equal
    identifiers.  The two strings are sequences of Unicode scalar values,
    the strings that [str.encode] accepts. *)
Theorem generate_chunk_id_correct
    (doc_uid : str) (offset_start offset_end : Z) (chunk_text : str) :
  sha256_spec ->
  Utf8.wf_str doc_uid -> Utf8.wf_str chunk_text ->
  0 <= offset_start -> 0 <= offset_end ->
  let id := generate_chunk_id doc_uid offset_start offset_end chunk_text in
  (exists digest,
     chunk_digest doc_uid offset_start offset_end chunk_text digest
     /\ length digest = 64%nat /\ id = take 16 digest)
  /\ (forall digest,
        chunk_digest doc_uid offset_start offset_end chunk_text digest ->
        id = take 16 digest)
  /\ length id = 16%nat
  /\ Forall (fun c => is_lower_hex c = true) id
  /\ (forall doc_uid' offset_start' offset_end' chunk_text',
        doc_uid' = doc_uid -> offset_start' = offset_start ->
        offset_end' = offset_end -> chunk_text' = chunk_text ->
        generate_chunk_id doc_uid' offset_start' offset_end' chunk_text' = id).
Proof.
  intros Hsha _ _ Hs He id. subst id. split; [|split; [|split; [|split]]].
  - eexists. split; [apply chunk_digest_unique; [done|done|reflexivity]|].
    split; [|reflexivity]. unfold hexdigest. rewrite length_hex, Hsha. reflexivity.
  - intros digest Hd. apply chunk_digest_unique in Hd; [|done|done].
    now rewrite Hd.
  - unfold generate_chunk_id, hexdigest.
    rewrite length_take, length_hex, Hsha. reflexivity.
  - apply Forall_take, hex_lower.
  - now intros ? ? ? ? -> -> -> ->.
Qed.

End WithHash.
End IdsFacts.

Module ManifestFacts.
Import Manifest.
Section WithHash.
Context {hashlib : HashLib}.

Lemma foldl_sha256_update h blocks :
  foldl sha256_update h blocks = h ++ concat blocks.
Proof.
  revert h. induction blocks as [|b bs IH]; intros h; cbn.
  - now rewrite app_nil_r.
  - rewrite IH. unfold sha256_update. now rewrite app_assoc.
Qed.

Lemma concat_read_blocks data : concat (read_blocks data) = data.
Proof.
  funelim (read_blocks data); [done|].
  cbn [concat]. change (drop 4096 (b :: data')) with (drop 4095 data').
  rewrite H. exact (take_drop 4096 (b :: data')).
Qed.

(** Reading a file in blocks of 4096 bytes hashes the whole file. *)
Lemma compute_file_checksum_eq dir f data :
  dir !! f = Some data -> compute_file_checksum dir f = Ok (Ids.hexdigest data).
Proof.
  intros H. unfold compute_file_checksum. rewrite H.
  rewrite foldl_sha256_update, concat_read_blocks. reflexivity.
Qed.

Lemma exists_true dir f : exists_ dir f = true <-> is_Some (dir !! f).
Proof. unfold exists_. apply bool_decide_eq_true. Qed.

Lemma required_exist_true dir files :
  required_exist dir files = true <-> forall f, f ∈ files -> is_Some (dir !! f).
Proof.
  induction files as [|f files IH]; cbn.
  - split; [|done]. intros _ f Hf. by apply elem_of_nil in Hf.
  - destruct (exists_ dir f) eqn:E; cbn.
    + apply exists_true in E. rewrite IH. split.
      * intros H g Hg. apply elem_of_cons in Hg as [->|Hg]; auto.
      * intros H g Hg. apply H. now right.
    + split; [done|]. intros H. apply not_true_iff_false in E. exfalso. apply E.
      apply exists_true, H. now left.
Qed.

Lemma checksums_match_spec dir items :
  exists b, checksums_match dir items = Ok b
            /\ (b = true <-> Forall (entry_ok dir) items).
Proof.
  induction items as [|[f d] items (b & IH1 & IH2)]; cbn [checksums_match].
  - exists true. split; [done|]. split; [constructor|done].
  - destruct (dir !! f) as [data|] eqn:E.
    + assert (exists_ dir f = true) as -> by (apply exists_true; eauto).
      cbn [negb]. rewrite (compute_file_checksum_eq _ _ _ E). cbn [mbind result_bind].
      destruct (decide (Ids.hexdigest data = d)) as [Hd|Hd].
      * rewrite bool_decide_eq_true_2 by done. cbn [negb].
        exists b. split; [done|]. rewrite IH2, Forall_cons. split; [|tauto].
        intros H. split; [|done]. exists data. done.
      * rewrite bool_decide_eq_false_2 by done. cbn [negb].
        exists false. split; [done|]. split; [done|].
        intros H. apply Forall_cons in H as [(data' & E' & Hd') _].
        cbn in E', Hd'. congruence.
    + assert (exists_ dir f = false) as ->.
      { apply not_true_iff_false. rewrite exists_true, E. by intros [? [=]]. }
      cbn [negb]. exists false. split; [done|]. split; [done|].
      intros H. apply Forall_cons in H as [(data' & E' & _) _].
      cbn in E'. congruence.
Qed.

Lemma validate_manifest_spec manifest dir :
  exists b, validate_manifest manifest dir = Ok b
            /\ (b = true <-> manifest_valid manifest dir).
Proof.
  unfold validate_manifest, manifest_valid.
  destruct (required_exist dir required_files) eqn:E; cbn [negb].
  - pose proof (proj1 (required_exist_true _ _) E) as E'.
    destruct (checksums_match_spec dir (checksums manifest)) as (b & H1 & H2).
    exists b. split; [done|]. rewrite H2. tauto.
  - exists false. split; [done|]. split; [done|]. intros [H _].
    apply (proj2 (required_exist_true _ _)) in H. congruence.
Qed.

(** C7.  [validate_manifest] returns [True] exactly when the four
    required files exist and every file listed in [checksums] exists and
    hashes (SHA-256 over its bytes) to the stored digest; otherwise (a
    file is missing or a digest differs) it returns [False]; in particular
    it returns [False] once the bytes of a listed file are replaced by
    bytes with a different digest. *)
Theorem validate_manifest_strict (manifest : ArtifactManifest) (dir : directory) :
  (validate_manifest manifest dir = Ok true <-> manifest_valid manifest dir)
  /\ (validate_manifest manifest dir = Ok false <-> ~ manifest_valid manifest dir)
  /\ (forall f digest data',
        (f, digest) ∈ checksums manifest ->
        Ids.hexdigest data' <> digest ->
        validate_manifest manifest (<[f := data']> dir) = Ok false).
Proof.
  assert (forall d, (validate_manifest manifest d = Ok true <-> manifest_valid manifest d)
                    /\ (validate_manifest manifest d = Ok false
                        <-> ~ manifest_valid manifest d)) as Hiff.
  { intros d. destruct (validate_manifest_spec manifest d) as (b & Hv & Hb).
    rewrite Hv. destruct b.
    - split; split.
      + intros _. by apply Hb.
      + done.
      + intros [=].
      + intros H. exfalso. by apply H, Hb.
    - split; split.
      + intros [=].
      + intros H. by apply Hb in H.
      + intros _ H. by apply Hb in H.
      + done. }
  split; [apply Hiff|]. split; [apply Hiff|].
  intros f digest data' Hin Hne. apply Hiff. intros [_ Hall].
  rewrite Forall_forall in Hall. destruct (Hall _ Hin) as (data & Hd & Hh).
  cbn in Hd, Hh. rewrite lookup_insert_eq in Hd. congruence.
Qed.

End WithHash.
End ManifestFacts.

Module FileIOFacts.
Import FileIO.

Lemma apply_write path fs acc c :
  fs !! path = Some acc -> apply_op fs (WriteChunk path c) = <[path := acc ++ c]> fs.
Proof. intros H. cbn. now rewrite H. Qed.

Lemma run_writes path fs acc chunks :
  fs !! path = Some acc ->
  run fs (map (WriteChunk path) chunks)
  = imap (fun i _ => <[path := acc ++ concat (take (S i) chunks)]> fs) chunks.
Proof.
  revert fs acc. induction chunks as [|c chunks IH]; intros fs acc Hacc; [done|].
  cbn [map run imap]. rewrite !(apply_write _ _ _ _ Hacc).
  f_equal.
  - cbn. now rewrite app_nil_r.
  - rewrite (IH _ (acc ++ c)) by apply lookup_insert_eq.
    apply imap_ext. intros i x _. cbn [take concat].
    rewrite insert_insert_eq. unfold compose. now rewrite <- app_assoc.
Qed.

Section WithJson.
Context {jsonlib : JsonLib}.

Lemma run_dump_to path value fs0 :
  run fs0 (dump_to path value)
  = <[path := []]> fs0
    :: imap (fun i _ => <[path := concat (take (S i) (json_iterencode value 2))]> fs0)
            (json_iterencode value 2).
Proof.
  unfold dump_to. cbn [run apply_op]. f_equal.
  rewrite (run_writes _ _ []) by apply lookup_insert_eq.
  apply imap_ext. intros i x _. now rewrite insert_insert_eq.
Qed.

(** [dump_to path value] rewrites [path] in place with the encoder's
    output. *)
Lemma dump_to_in_place path value :
  rewrites_in_place path (concat (json_iterencode value 2)) (dump_to path value).
Proof.
  split.
  { unfold dump_to. constructor; [now left|].
    apply Forall_map, Forall_true. intros c. right. eauto. }
  intros fs0. rewrite run_dump_to. repeat split.
  - destruct (json_iterencode value 2) as [|c cs] using rev_ind; [done|].
    rewrite imap_app. cbn [imap]. rewrite app_comm_cons, last_snoc.
    do 3 f_equal. rewrite take_ge; [done|]. rewrite length_app. cbn. lia.
  - constructor.
    + exists []. split; [apply prefix_nil|done].
    + apply Forall_lookup. intros i fs Hi.
      apply list_lookup_imap_Some in Hi as (c & _ & ->).
      eexists. split; [|reflexivity].
      rewrite <- (take_drop (S i) (json_iterencode value 2)) at 2.
      rewrite concat_app. apply prefix_app_r. reflexivity.
Qed.

(** Operations that only open and write the target do not replace it
    atomically. *)
Lemma in_place_not_atomic path content ops :
  Forall (writes_in_place path) ops -> ~ replaces_atomically path content ops.
Proof.
  intros Hops [(tmp & _ & Hin) _].
  apply (proj1 (Forall_forall _ _) Hops) in Hin as [Hin|[data Hin]]; discriminate.
Qed.

(** C5, as amended.  [save_docs_meta] and [save_manifest] rewrite the
    target in place: they open the target itself for writing, which
    empties it, and write the JSON text to it piece by piece, so that the
    target holds the empty file and then growing prefixes of the new
    content until the last write completes it.  No temporary file is
    written and nothing is renamed. *)
Theorem save_rewrites_in_place :
  (forall docs_meta_path docs_meta,
     rewrites_in_place docs_meta_path
       (concat (json_iterencode (json_of_docs_meta docs_meta) 2))
       (save_docs_meta docs_meta_path docs_meta))
  /\ (forall manifest file_path,
        rewrites_in_place file_path
          (concat (json_iterencode (manifest_dict manifest) 2))
          (save_manifest manifest file_path)).
Proof. split; intros; apply dump_to_in_place. Qed.

End WithJson.
End FileIOFacts.

Module SortFacts.
Import Search.

Lemma before_trans key p q r : before key p q -> before key q r -> before key p r.
Proof.
  intros [H1|[H1 L1]] [H2|[H2 L2]].
  - left. eapply Qlt_trans; eauto.
  - left. now rewrite <- H2.
  - left. now rewrite H1.
  - right. split; [now rewrite H1|lia].
Qed.

Lemma before_irrefl key p : ~ before key p p.
Proof. intros [H|[_ H]]; [now apply Qlt_irrefl in H|lia]. Qed.

Lemma before_total key p q : p <> q -> before key p q \/ before key q p.
Proof.
  intros Hne. destruct (Q_dec (key p) (key q)) as [[H|H]|H].
  - right. now left.
  - left. now left.
  - destruct (Nat.lt_total p q) as [L|[L|L]]; [|done|].
    + left. right. done.
    + right. right. split; [now symmetry|done].
Qed.


Lemma lt_test (a b : Q) : float_lt (Float a) (Float b) = true <-> (a < b)%Q.
Proof.
  cbn [float_lt].
  rewrite andb_true_iff, negb_true_iff, <- not_true_iff_false, !Qle_bool_iff.
  split.
  - intros [_ H]. now apply Qnot_le_lt.
  - intros H. split; [now apply Qlt_le_weak|now apply Qlt_not_le].
Qed.

Lemma insert_desc_perm key x l : insert_desc key x l ≡ₚ x :: l.
Proof.
  induction l as [|y l IH]; cbn; [done|].
  repeat case_match; try done. rewrite IH. apply Permutation_swap.
Qed.

Lemma sorted_desc_cons key x l :
  sorted_desc key (x :: l) = insert_desc key x (sorted_desc key l).
Proof. reflexivity. Qed.

Lemma sorted_desc_perm key l : sorted_desc key l ≡ₚ l.
Proof.
  induction l as [|x l IH]; [done|].
  now rewrite sorted_desc_cons, insert_desc_perm, IH.
Qed.

(** The order of the result when every key is a number: [k] gives the
    number that the key is. *)
Section Numbers.
Variables (key : nat -> pyfloat) (k : nat -> Q).
Hypothesis Hk : forall i, key i = Float (k i).

Lemma insert_desc_sorted x l :
  StronglySorted (before k) l ->
  Forall (fun y => (x < y)%nat) l ->
  StronglySorted (before k) (insert_desc key x l).
Proof.
  induction 1 as [|y l Hs IH Hy]; intros Hx; cbn [insert_desc].
  - repeat constructor.
  - apply Forall_cons in Hx as [Hxy Hx].
    assert (before k x y -> Forall (before k x) (y :: l)) as Hall.
    { intros Hb. constructor; [done|].
      eapply Forall_impl; [exact Hy|]. intros z Hz. eapply before_trans; eauto. }
    rewrite (Hk x), (Hk y).
    destruct (float_lt (Float (k y)) (Float (k x))) eqn:E1.
    { apply lt_test in E1. constructor; [now constructor|].
      apply Hall. now left. }
    destruct (float_lt (Float (k x)) (Float (k y))) eqn:E2.
    { apply lt_test in E2. constructor; [now apply IH|].
      rewrite insert_desc_perm. constructor; [now left|done]. }
    constructor; [now constructor|]. apply Hall. right. split; [|done].
    apply not_true_iff_false in E1, E2. rewrite lt_test in E1, E2.
    apply Qnot_lt_le in E1, E2. now apply Qle_antisym.
Qed.

Lemma sorted_desc_sorted l :
  StronglySorted lt l -> StronglySorted (before k) (sorted_desc key l).
Proof.
  induction 1 as [|x l Hs IH Hx]; [constructor|]. rewrite sorted_desc_cons.
  apply insert_desc_sorted; [done|]. now rewrite sorted_desc_perm.
Qed.

End Numbers.

Lemma seq_sorted start n : StronglySorted lt (seq start n).
Proof.
  revert start. induction n as [|n IH]; intros start; cbn; constructor; [apply IH|].
  apply Forall_forall. intros y Hy. apply elem_of_seq in Hy. lia.
Qed.


(** In a list sorted by a strict order, whatever comes before a member of
    a prefix is in the prefix as well. *)
Lemma sorted_prefix_closed {A} (R : A -> A -> Prop) n l a b :
  (forall x, ~ R x x) -> (forall x y z, R x y -> R y z -> R x z) ->
  StronglySorted R l -> a ∈ l -> b ∈ take n l -> R a b -> a ∈ take n l.
Proof.
  intros Hirr Htr Hs. revert n. induction Hs as [|x l Hs IH Hx]; intros n Ha Hb Hab.
  - by apply elem_of_nil in Ha.
  - destruct n as [|n]; [by apply elem_of_nil in Hb|]. cbn [take] in *.
    apply elem_of_cons in Ha as [->|Ha]; [by left|].
    apply elem_of_cons in Hb as [->|Hb].
    + rewrite Forall_forall in Hx. exfalso. eapply Hirr, Htr; [exact Hab|]. now apply Hx.
    + right. now apply IH.
Qed.

End SortFacts.

Module SearchFacts.
Import Search SortFacts.

Lemma mapM_result_ok {A B} (f : A -> result B) (g : A -> B) l :
  Forall (fun x => f x = Ok (g x)) l -> mapM f l = Ok (map g l).
Proof.
  induction 1 as [|x l Hx _ IH]; [done|].
  cbn [mapM map]. rewrite Hx, IH. reflexivity.
Qed.

Lemma slice_to_nonneg {A} k (l : list A) : 0 <= k -> slice_to k l = take (Z.to_nat k) l.
Proof. intros H. unfold slice_to. now rewrite (proj2 (Z.leb_le 0 k)). Qed.

Section WithLibs.
Context {unicode : UnicodeLib} {rank : RankBM25}.

Lemma build_inv self chunks index :
  build self chunks = Ok index ->
  exists okapi,
    bm25_okapi (map (fun chunk => tokenize (tokenizer self) (text chunk)) chunks)
               (bm25_k1 (config self)) (bm25_b (config self)) = Ok okapi
    /\ bm25 index = Some okapi
    /\ chunk_ids index = map chunk_id chunks
    /\ tokenizer index = tokenizer self.
Proof.
  unfold build. destruct chunks as [|c chunks]; [discriminate|].
  destruct (bm25_okapi _ _ _) as [okapi|e]; cbn [mbind result_bind]; [|discriminate].
  intros [= <-]. exists okapi. done.
Qed.

Lemma score_at_number scores :
  NaN ∉ scores -> forall i, score_at scores i = Float (number (score_at scores i)).
Proof.
  unfold score_at. induction scores as [|x scores IH]; intros H i.
  - now destruct i.
  - apply not_elem_of_cons in H as [Hx H]. destruct i as [|i]; [|now apply IH].
    cbn. now destruct x.
Qed.

(** The ranking of all positions, of which [search] returns the
    beginning. *)
Lemma ranking_sorted scores :
  NaN ∉ scores ->
  StronglySorted (before (fun p => number (score_at scores p)))
    (sorted_desc (score_at scores) (seq 0 (length scores))).
Proof.
  intros H. apply sorted_desc_sorted; [now apply score_at_number|apply seq_sorted].
Qed.



Lemma top_indices_bound scores top_k p :
  p ∈ top_indices scores top_k -> (p < length scores)%nat.
Proof.
  unfold top_indices, slice_to. intros H.
  assert (p ∈ sorted_desc (score_at scores) (seq 0 (length scores))) as Hp.
  { destruct (0 <=? top_k); eapply subseteq_take; eauto. }
  rewrite sorted_desc_perm in Hp. apply elem_of_seq in Hp. lia.
Qed.

Lemma top_indices_closed scores top_k p q :
  NaN ∉ scores ->
  (p < length scores)%nat -> before (fun p => number (score_at scores p)) p q ->
  q ∈ top_indices scores top_k -> p ∈ top_indices scores top_k.
Proof.
  unfold top_indices, slice_to. intros Hn Hp Hb Hq.
  destruct (0 <=? top_k);
    (eapply sorted_prefix_closed; eauto using before_irrefl, before_trans;
     [now apply ranking_sorted|rewrite sorted_desc_perm; apply elem_of_seq; lia]).
Qed.

Lemma length_top_indices scores top_k :
  0 <= top_k -> (length (top_indices scores top_k) <= Z.to_nat top_k)%nat.
Proof.
  intros Hk. unfold top_indices. rewrite slice_to_nonneg by done.
  rewrite length_take. lia.
Qed.

(** [search] on an index with enough chunk ids never raises: the result
    lists the positions [top_indices] with their ids and scores. *)
Lemma search_ok index okapi query top_k :
  bm25 index = Some okapi ->
  (forall query_tokens,
     length (get_scores okapi query_tokens) <= length (chunk_ids index))%nat ->
  let query_tokens := tokenize_query (tokenizer index) query in
  let scores := get_scores okapi query_tokens in
  search index query top_k
  = Ok (match query_tokens with
        | [] => []
        | _ => map (fun p => (nth p (chunk_ids index) [], score_at scores p))
                   (top_indices scores top_k)
        end).
Proof.
  intros Hb Hlen query_tokens scores. unfold search. rewrite Hb.
  fold query_tokens. destruct query_tokens as [|t ts] eqn:E; [done|].
  fold scores. apply mapM_result_ok, Forall_forall. intros p Hp.
  apply top_indices_bound in Hp.
  assert (p < length (chunk_ids index))%nat as Hlt.
  { subst scores. specialize (Hlen (t :: ts)). lia. }
  destruct (chunk_ids index !! p) as [cid|] eqn:El.
  - cbn. do 2 f_equal. symmetry. now apply nth_lookup_Some with (d := []) in El.
  - apply lookup_ge_None in El. lia.
Qed.

End WithLibs.
End SearchFacts.

Module StoreFacts.
Import ChunkStore Utf8Facts BytesFacts RecordFacts RecordLayout.

(** Running [m] then [k]: the two outcomes of a bind. *)
Lemma bind_ok {A B} (m : M A) (k : A -> M B) st a st' :
  m st = (Ok a, st') -> (m ≫= k) st = k a st'.
Proof. intros H. unfold mbind, M_bind. now rewrite H. Qed.

Lemma bind_inv {A B} (m : M A) (k : A -> M B) st b st2 :
  (m ≫= k) st = (Ok b, st2) ->
  exists a st1, m st = (Ok a, st1) /\ k a st1 = (Ok b, st2).
Proof.
  unfold mbind, M_bind. destruct (m st) as [[a|e] st1]; [eauto|discriminate].
Qed.



Section WithLibs.
Context {zstd : ZstdLib} {xxhash : XXHashLib}.


End WithLibs.
End StoreFacts.

Module SearchTheorems.
Import Search SortFacts SearchFacts ChunkStore StoreFacts.

Section WithLibs.
Context {unicode : UnicodeLib} {rank : RankBM25}.


(** C10.  When the query has no token, [search] on a built index, and
    with it [retrieve_ids], returns the empty list and does not raise,
    whatever [top_k] is. *)
Theorem search_without_tokens (index : BM25Index) (query : str) (top_k : Z) :
  is_Some (bm25 index) ->
  tokenize_query (tokenizer index) query = [] ->
  search index query top_k = Ok [] /\ retrieve_ids index query top_k = Ok [].
Proof.
  intros [okapi Hb] Htok. unfold retrieve_ids, search. now rewrite Hb, Htok.
Qed.

(** A query whose characters, once lowercased, are all outside [\w]
    (white space and punctuation, for instance) has no token. *)
Lemma tokenize_no_word_character (self : BM25Tokenizer) (query : str) :
  Forall (fun c => is_word c = false) (lower query) ->
  tokenize_query self query = [].
Proof.
  intros H. unfold tokenize_query, tokenize, findall_words, runs.
  assert (runs_aux is_word [] (lower query) = []) as ->.
  { induction H as [|c s Hc _ IH]; cbn [runs_aux]; [done|]. now rewrite Hc. }
  now destruct (use_stopwords self).
Qed.

Lemma build_is_built self chunks index :
  build self chunks = Ok index -> is_Some (bm25 index).
Proof. intros H. apply build_inv in H as (okapi & _ & -> & _). eauto. Qed.

Section WithStore.
Context {zstd : ZstdLib} {xxhash : XXHashLib}.

Lemma mapM_M_inv {A B} (f : A -> M B) l st ys st' :
  mapM f l st = (Ok ys, st') ->
  Forall2 (fun x y => exists s s', f x s = (Ok y, s')) l ys.
Proof.
  revert st ys. induction l as [|x l IH]; intros st ys H; cbn [mapM] in H.
  - injection H as <- <-. constructor.
  - apply bind_inv in H as (y & s1 & Hy & H).
    apply bind_inv in H as (k & s2 & Hk & H). injection H as <- <-.
    constructor; eauto.
Qed.

(** The chunk ids that [retrieve] returns are those that [search] found,
    in the same order, whatever the chunk store holds. *)
Lemma process_query_chunk_ids index with_store query top_k st results st' :
  process_query index with_store query top_k st = (Ok results, st') ->
  exists hits, search index query top_k = Ok hits
               /\ map r_chunk_id results = map fst hits.
Proof.
  unfold process_query. intros H.
  apply bind_inv in H as (hits & s1 & Hh & H). unfold lift in Hh.
  destruct (search index query top_k) as [hits'|] eqn:Es; [|discriminate].
  injection Hh as <- <-. exists hits'. split; [done|].
  apply mapM_M_inv in H. clear Es.
  induction H as [|[cid sc] r hits rs Hx _ IH]; [done|].
  cbn [map]. f_equal; [|exact IH].
  destruct Hx as (s & s' & Hx). apply bind_inv in Hx as (found & s2 & _ & Hx).
  destruct found as [chunk|]; cbn in Hx; injection Hx as <- <-; reflexivity.
Qed.

End WithStore.
End WithLibs.
End SearchTheorems.

Module ReloadFacts.
Import Struct ChunkStore Utf8Facts BytesFacts StructFacts RecordFacts RecordLayout StoreFacts.

Lemma read_records_unfold data :
  read_records data =
    if decide (length data < 141)%nat then []
    else take 141 data :: read_records (drop 141 data).
Proof.
  rewrite read_records_equation_1. unfold read_records_unfold_clause_1.
  change INDEX_RECORD_SIZE with 141%nat. now destruct (decide _).
Qed.

Lemma read_records_short data : (length data < 141)%nat -> read_records data = [].
Proof. intros H. rewrite read_records_unfold. now rewrite decide_True. Qed.

Lemma read_records_app data b :
  aligned data -> length b = 141%nat ->
  read_records (data ++ b) = read_records data ++ [b].
Proof.
  intros [k Hk] Hb. revert data Hk. induction k as [|k IH]; intros data Hk.
  - destruct data; [|discriminate]. cbn [app].
    rewrite read_records_unfold, decide_False by lia.
    rewrite take_ge, drop_ge by lia. now rewrite !read_records_short by (cbn; lia).
  - rewrite (read_records_unfold (data ++ b)), (read_records_unfold data).
    rewrite !decide_False by (rewrite ?length_app; lia).
    rewrite take_app_le, drop_app_le by lia. cbn [app]. f_equal.
    apply IH. rewrite length_drop. lia.
Qed.

Lemma read_records_length data :
  Forall (fun r => length r = 141%nat) (read_records data).
Proof.
  remember (length data) as n eqn:Hn. revert data Hn.
  induction n as [n IH] using lt_wf_ind. intros data ->.
  rewrite read_records_unfold. destruct (decide _); constructor.
  - rewrite length_take. lia.
  - eapply IH; [|reflexivity]. rewrite length_drop. lia.
Qed.

Lemma for_each_app {A} (body : A -> M unit) l1 l2 st :
  for_each body (l1 ++ l2) st = (for_each body l1 ≫= fun _ => for_each body l2) st.
Proof.
  revert st. induction l1 as [|x l1 IH]; intros st; [done|].
  cbn [app for_each]. unfold mbind, M_bind in *.
  destruct (body x st) as [[[]|e] st1]; [apply IH|done].
Qed.

(** The identifier fields of any record are identifiers that fit. *)
Lemma unpack_index_record_fits rb f :
  unpack_index_record rb = Ok f -> id_fits (f_chunk_id f).
Proof.
  unfold unpack_index_record, unpack.
  destruct (length rb =? calcsize index_record_items)%nat; [|discriminate].
  rewrite index_record_items_eq. cbn [mbind result_bind unpack_items unpack_item item_size].
  destruct (unpad_id (take 32 rb)) as [cid|] eqn:E1; [|discriminate].
  cbn [mbind result_bind].
  destruct (unpad_id (take 32 (drop 32 rb))) as [uid|]; [|discriminate].
  cbn [mbind result_bind].
  destruct (unpad_id (take 32 (drop 32 (drop 32 rb)))) as [did|]; [|discriminate].
  cbn [mbind result_bind].
  intros [= <-]. cbn [f_chunk_id].
  eapply unpad_id_fits; [|exact E1]. rewrite length_take. lia.
Qed.

(** The state after one iteration of [load_index]. *)
Lemma load_record_inv rb st st' :
  load_record rb st = (Ok tt, st') ->
  exists f rec,
    unpack_index_record rb = Ok f
    /\ is_active rec = f_is_active f
    /\ index st' = <[f_chunk_id f := rec]> (index st)
    /\ chunks_bin st' = chunks_bin st.
Proof.
  unfold load_record. intros H.
  apply bind_inv in H as (f & s1 & H1 & H). unfold lift in H1.
  destruct (unpack_index_record rb) as [f'|] eqn:E; [|discriminate].
  injection H1 as <- <-.
  apply bind_inv in H as ([] & s2 & H2 & H). injection H2 as <-.
  injection H as <-. eexists f', _. repeat split; reflexivity.
Qed.

Lemma load_records_keys_fit rbs st st' :
  keys_fit st -> for_each load_record rbs st = (Ok tt, st') -> keys_fit st'.
Proof.
  revert st. induction rbs as [|rb rbs IH]; intros st Hk H.
  - injection H as <-. done.
  - cbn [for_each] in H. apply bind_inv in H as ([] & s1 & H1 & H).
    apply (IH s1); [|done].
    apply load_record_inv in H1 as (f & rec & Hu & _ & Hi & _).
    unfold keys_fit. rewrite Hi. apply map_Forall_insert_2; [|done].
    eapply unpack_index_record_fits; eauto.
Qed.

Lemma load_records_chunks_bin rbs st st' :
  for_each load_record rbs st = (Ok tt, st') -> chunks_bin st' = chunks_bin st.
Proof.
  revert st. induction rbs as [|rb rbs IH]; intros st H.
  - now injection H as <-.
  - cbn [for_each] in H. apply bind_inv in H as ([] & s1 & H1 & H).
    apply load_record_inv in H1 as (_ & _ & _ & _ & _ & <-). now apply IH.
Qed.

(** The records that [load_index] reads, and the state it reads them
    into. *)
Lemma load_index_inv st data st' :
  chunks_idx st = Some data ->
  load_index st = (Ok tt, st') ->
  exists st0, index st0 = ∅
              /\ for_each load_record (read_records data) st0 = (Ok tt, st').
Proof.
  intros Hd H. unfold load_index in H.
  apply bind_inv in H as (idx & s1 & H1 & H). injection H1 as <- <-. rewrite Hd in H.
  apply bind_inv in H as ([] & s2 & H2 & H). injection H2 as <-.
  apply bind_inv in H as (meta & s3 & H3 & H). injection H3 as <- <-.
  apply bind_inv in H as ([] & s4 & H4 & H).
  exists s4. split; [|done]. clear H.
  match type of H4 with for_each ?body _ _ = _ =>
    assert (forall l s s', index s = ∅ -> for_each body l s = (Ok tt, s') -> index s' = ∅)
      as Hgen
  end.
  { clear. induction l as [|[uid info] l IH]; intros s s' Hs H.
    - now injection H as <-.
    - cbn [for_each] in H. apply bind_inv in H as ([] & s1 & H1 & H).
      apply (IH s1); [|done].
      destruct (info_doc_id info), (info_source_path info);
        injection H1 as <-; done. }
  eapply Hgen; [|exact H4]. reflexivity.
Qed.

Lemma tombstone_chunk_inv id rec st st1 :
  index st !! id = Some rec ->
  tombstone_chunk id st = (Ok tt, st1) ->
  exists b f,
    pack_index_record f = Ok b /\ f_chunk_id f = id /\ f_is_active f = false
    /\ chunks_idx st1 = Some (default [] (chunks_idx st) ++ b)
    /\ chunks_bin st1 = chunks_bin st /\ docs_meta st1 = docs_meta st.
Proof.
  intros Hrec H. unfold tombstone_chunk in H.
  apply bind_inv in H as (idx & s1 & H1 & H). injection H1 as <- <-. rewrite Hrec in H.
  apply bind_inv in H as ([] & s2 & H2 & H).
  apply write_index_record_inv in H2 as (b & Hp & ->).
  injection H as <-. eexists b, _. split; [exact Hp|]. done.
Qed.

Section WithLibs.
Context {zstd : ZstdLib} {xxhash : XXHashLib}.

(** X15.  A tombstone survives a restart: after [tombstone_chunk(id)]
    has returned for an identifier of the index, a new store object that
    has loaded the index returns [None] from [read_chunk(id)].  The index
    file held a whole number of records. *)
Lemma tombstone_reload_read (st st1 st2 : store) (id : str) :
  is_Some (index st !! id) ->
  aligned (default [] (chunks_idx st)) ->
  tombstone_chunk id st = (Ok tt, st1) ->
  load_index (reopen st1) = (Ok tt, st2) ->
  read_chunk id st2 = (Ok None, st2).
Proof.
  intros [rec Hrec] Hal Ht Hl.
  destruct (tombstone_chunk_inv _ _ _ _ Hrec Ht) as (b & f & Hp & Hid & Hact & Hidx & _).
  pose proof (length_packed _ _ Hp) as Hlen.
  destruct (load_index_inv (reopen st1) _ _ Hidx Hl) as (st0 & Hempty & Hl').
  rewrite read_records_app in Hl' by done. rewrite for_each_app in Hl'.
  apply bind_inv in Hl' as ([] & s1 & Hl1 & Hl2).
  cbn [for_each] in Hl2. apply bind_inv in Hl2 as ([] & s2 & Hl2 & Hl3).
  injection Hl3 as <-.
  assert (keys_fit s1) as Hfit.
  { eapply load_records_keys_fit; [|exact Hl1]. unfold keys_fit. rewrite Hempty.
    apply map_Forall_empty. }
  apply load_record_inv in Hl2 as (f' & rec' & Hu & Ha & Hi & _).
  assert (f_is_active f' = false /\ unpad_id (pad_id id) = Ok (f_chunk_id f'))
    as [Hact' Hkey].
  { unfold unpack_index_record in Hu. rewrite (unpack_packed _ _ Hp) in Hu.
    cbn [mbind result_bind] in Hu. rewrite Hid in Hu.
    destruct (unpad_id (pad_id id)) as [k|]; [|discriminate].
    cbn [mbind result_bind] in Hu.
    destruct (unpad_id (pad_id (f_doc_uid f))) as [uid|]; [|discriminate].
    cbn [mbind result_bind] in Hu.
    destruct (unpad_id (pad_id (f_doc_id f))) as [did|]; [|discriminate].
    cbn [mbind result_bind] in Hu.
    injection Hu as <-. cbn. rewrite Hact. done. }
  unfold read_chunk. erewrite bind_ok by reflexivity. rewrite Hi.
  destruct (decide (f_chunk_id f' = id)) as [E|E].
  - rewrite E, lookup_insert_eq, Ha, Hact'. reflexivity.
  - rewrite lookup_insert_ne by done.
    destruct (index s1 !! id) as [r|] eqn:Er; [|reflexivity].
    exfalso. apply E. apply Hfit in Er. apply unpad_pad_id in Er. congruence.
Qed.

End WithLibs.
End ReloadFacts.

Module NormalizerFacts.
Local Open Scope N_scope.
Import Normalizer.

(** ** [drop_while] and the strips *)

Lemma drop_while_suffix {A} (p : A -> bool) l : exists k, l = k ++ drop_while p l.
Proof.
  induction l as [|x l [k IH]]; [by exists []|]. cbn.
  destruct (p x); [|by exists []]. exists (x :: k). cbn. now f_equal.
Qed.

Lemma drop_while_fixed {A} (p : A -> bool) l :
  drop_while p l = l <-> l = [] \/ exists x l', l = x :: l' /\ p x = false.
Proof.
  destruct l as [|x l]; cbn; [naive_solver|].
  destruct (p x) eqn:E.
  - split.
    + intros H. pose proof (drop_while_suffix p l) as [k Hk].
      apply (f_equal length) in H, Hk. rewrite length_app in Hk. cbn in H. lia.
    + intros [|(y & l' & [= <- <-] & Hp)]; congruence.
  - split; [|done]. intros _. right. eauto.
Qed.

Lemma drop_while_idem {A} (p : A -> bool) l :
  drop_while p (drop_while p l) = drop_while p l.
Proof.
  induction l as [|x l IH]; [done|]. cbn. destruct (p x) eqn:E; [done|].
  cbn. now rewrite E.
Qed.

Lemma drop_while_snoc {A} (p : A -> bool) l x :
  p x = false -> drop_while p (l ++ [x]) = drop_while p l ++ [x].
Proof.
  intros Hx. induction l as [|y l IH]; cbn; [now rewrite Hx|].
  destruct (p y); [done|reflexivity].
Qed.

Section WithUnicode.
Context {unicode : UnicodeLib}.

Lemma lstrip_suffix s : exists k, s = k ++ lstrip s.
Proof. apply drop_while_suffix. Qed.

Lemma rstrip_prefix s : exists k, s = rstrip s ++ k.
Proof.
  unfold rstrip. destruct (drop_while_suffix isspace (reverse s)) as [k Hk].
  exists (reverse k). rewrite <- reverse_app, <- Hk. now rewrite reverse_involutive.
Qed.

Lemma lstrip_rstrip_fixed s : lstrip s = s -> lstrip (rstrip s) = rstrip s.
Proof.
  unfold lstrip. intros H. apply drop_while_fixed in H as [->|(x & l & -> & Hx)]; [done|].
  unfold rstrip. rewrite reverse_cons, drop_while_snoc by done.
  rewrite reverse_snoc. cbn. now rewrite Hx.
Qed.

Lemma rstrip_idem s : rstrip (rstrip s) = rstrip s.
Proof. unfold rstrip. now rewrite reverse_involutive, drop_while_idem. Qed.

Lemma strip_idem s : strip (strip s) = strip s.
Proof.
  unfold strip. rewrite lstrip_rstrip_fixed by apply drop_while_idem.
  apply rstrip_idem.
Qed.

(** ** Spaces and tabs *)

Lemma is_blank_SP : is_blank SP = true.
Proof. reflexivity. Qed.

Lemma collapsed_weaken prev s : collapsed prev s = true -> collapsed false s = true.
Proof. destruct s as [|c s]; cbn; [done|]. destruct (is_blank c), prev, (c =? SP); done. Qed.

Lemma sub_blank_runs_collapsed prev s : collapsed prev (sub_blank_runs prev s) = true.
Proof.
  revert prev. induction s as [|c s IH]; intros prev; [done|]. cbn.
  destruct (is_blank c) eqn:E.
  - destruct prev; [|cbn; now rewrite IH].
    apply IH.
  - cbn. now rewrite E, IH.
Qed.

Lemma collapsed_fixed prev s : collapsed prev s = true -> sub_blank_runs prev s = s.
Proof.
  revert prev. induction s as [|c s IH]; intros prev H; [done|]. cbn in *.
  destruct (is_blank c).
  - apply andb_true_iff in H as [H H3]. apply andb_true_iff in H as [H1 H2].
    apply N.eqb_eq in H1 as ->. destruct prev; [done|]. now rewrite IH.
  - now rewrite IH.
Qed.

Lemma collapsed_app_l prev a b : collapsed prev (a ++ b) = true -> collapsed prev a = true.
Proof.
  revert prev. induction a as [|c a IH]; intros prev; [done|]. cbn.
  destruct (is_blank c); [|apply IH].
  rewrite !andb_true_iff. intros [H1 H2]. split; [done|]. now apply IH in H2.
Qed.

Lemma collapsed_app_r prev a b : collapsed prev (a ++ b) = true -> collapsed false b = true.
Proof.
  revert prev. induction a as [|c a IH]; intros prev; [apply collapsed_weaken|]. cbn.
  destruct (is_blank c); [|apply IH].
  rewrite !andb_true_iff. intros [_ H2]. now apply IH in H2.
Qed.

Lemma replace_cr_collapsed prev s :
  collapsed prev s = true -> collapsed prev (replace_cr s) = true.
Proof.
  revert prev. induction s as [|c s IH]; intros prev; [done|]. cbn.
  destruct (N.eqb_spec c CR) as [->|Hc]; [cbn; apply IH|].
  destruct (is_blank c); [|apply IH].
  rewrite !andb_true_iff. intros [H1 H2]. split; [done|]. now apply IH.
Qed.

Lemma replace_crlf_cons c s :
  replace_crlf (c :: s) =
    match s with
    | d :: s' => if (c =? CR) && (d =? LF) then LF :: replace_crlf s'
                 else c :: replace_crlf s
    | [] => [c]
    end.
Proof. destruct s; reflexivity. Qed.

(** Induction for functions that consume one or two characters. *)
Lemma two_step_ind (P : str -> Prop) :
  P [] -> (forall c, P [c]) ->
  (forall c d s, P s -> P (d :: s) -> P (c :: d :: s)) ->
  forall s, P s.
Proof.
  intros H0 H1 H2 s. enough (P s /\ forall c, P (c :: s)) by tauto.
  induction s as [|d s [IH1 IH2]]; [split; auto|].
  split; [apply IH2|]. intros c. apply H2; [done|apply IH2].
Qed.

Lemma replace_crlf_collapsed s :
  forall prev, collapsed prev s = true -> collapsed prev (replace_crlf s) = true.
Proof.
  induction s as [|c|c d s IH1 IH2] using two_step_ind; intros prev; [done|done|].
  rewrite replace_crlf_cons.
  destruct ((c =? CR) && (d =? LF)) eqn:E.
  - apply andb_true_iff in E as [E1 E2]. apply N.eqb_eq in E1 as ->, E2 as ->.
    cbn. apply IH1.
  - cbn [collapsed]. destruct (is_blank c); [|apply IH2].
    rewrite !andb_true_iff. intros [H1 H2]. split; [done|]. now apply IH2.
Qed.

(** ** Carriage returns *)

Lemma replace_cr_no_cr s : CR ∉ replace_cr s.
Proof.
  unfold replace_cr. induction s as [|c s IH]; cbn [map]; [apply not_elem_of_nil|].
  apply not_elem_of_cons. split; [|done].
  destruct (N.eqb_spec c CR); [discriminate|congruence].
Qed.

Lemma no_cr_replace_cr s : CR ∉ s -> replace_cr s = s.
Proof.
  unfold replace_cr. induction s as [|c s IH]; intros H; [done|]. cbn.
  apply not_elem_of_cons in H as [Hc H]. rewrite IH by done.
  destruct (N.eqb_spec c CR); congruence.
Qed.

Lemma no_cr_replace_crlf s : CR ∉ s -> replace_crlf s = s.
Proof.
  induction s as [|c s IH]; intros H; [done|].
  apply not_elem_of_cons in H as [Hc H]. rewrite replace_crlf_cons.
  destruct s as [|d s]; [done|].
  destruct (N.eqb_spec c CR); [congruence|]. cbn [andb]. now rewrite IH.
Qed.

Lemma strip_subseteq s : strip s ⊆ s.
Proof.
  unfold strip. destruct (lstrip_suffix s) as [k Hk].
  destruct (rstrip_prefix (lstrip s)) as [k' Hk'].
  intros x Hx. rewrite Hk, Hk'. set_solver.
Qed.

Section WithSpec.
Hypothesis Hnfkc : nfkc_spec.

Lemma stable_nil : nfkc_stable [].
Proof. apply (nfkc_piece Hnfkc [] (nfkc [])), Hnfkc. Qed.

Lemma stable_sub_blank_runs s :
  (forall p, nfkc_stable (p ++ s) -> nfkc_stable (p ++ sub_blank_runs false s))
  /\ (nfkc_stable s -> nfkc_stable (sub_blank_runs true s)).
Proof.
  induction s as [|c s [IH1 IH2]]; [done|]. cbn [sub_blank_runs].
  destruct (is_blank c); split.
  - intros p H. apply (nfkc_piece Hnfkc p (c :: s)) in H as [Hp H].
    apply (nfkc_piece Hnfkc [c] s) in H as [_ H].
    apply (nfkc_join Hnfkc); auto.
  - intros H. apply (nfkc_piece Hnfkc [c] s) in H as [_ H]. auto.
  - intros p H. rewrite (cons_middle c), app_assoc in *. auto.
  - intros H. apply (IH1 [c]). exact H.
Qed.

Lemma stable_replace_crlf s :
  forall p, nfkc_stable (p ++ s) -> nfkc_stable (p ++ replace_crlf s).
Proof.
  induction s as [|c|c d s IH1 IH2] using two_step_ind; intros p H; [done|done|].
  rewrite replace_crlf_cons. destruct ((c =? CR) && (d =? LF)).
  - apply (nfkc_piece Hnfkc p (c :: d :: s)) in H as [Hp H].
    apply (nfkc_piece Hnfkc [c; d] s) in H as [_ H].
    apply (nfkc_join Hnfkc); auto. apply (IH1 []). exact H.
  - rewrite (cons_middle c), app_assoc in *. auto.
Qed.

Lemma stable_replace_cr s :
  forall p, nfkc_stable (p ++ s) -> nfkc_stable (p ++ replace_cr s).
Proof.
  unfold replace_cr. induction s as [|c s IH]; intros p H; [done|]. cbn [map].
  destruct (c =? CR).
  - apply (nfkc_piece Hnfkc p (c :: s)) in H as [Hp H].
    apply (nfkc_piece Hnfkc [c] s) in H as [_ H].
    apply (nfkc_join Hnfkc); auto. apply (IH []). exact H.
  - rewrite (cons_middle c), app_assoc in *. auto.
Qed.

Lemma stable_strip s : nfkc_stable s -> nfkc_stable (strip s).
Proof.
  intros H. unfold strip. destruct (lstrip_suffix s) as [k Hk].
  destruct (rstrip_prefix (lstrip s)) as [k' Hk'].
  rewrite Hk in H. apply (nfkc_piece Hnfkc) in H as [_ H].
  rewrite Hk' in H. now apply (nfkc_piece Hnfkc) in H as [H _].
Qed.

(** C8.  The normalizer is idempotent: for every string [s],
    [normalize_text (normalize_text s) = normalize_text s].  Of NFKC the
    proof uses the three laws of [nfkc_spec]. *)
Theorem normalize_text_idempotent (s : str) :
  normalize_text (normalize_text s) = normalize_text s.
Proof.
  set (t := normalize_text s).
  assert (nfkc_stable t) as Hstable.
  { apply stable_strip, (stable_replace_cr _ []), (stable_replace_crlf _ []).
    apply (proj1 (stable_sub_blank_runs _) []). apply Hnfkc. }
  assert (collapsed false t = true) as Hcol.
  { unfold t, normalize_text, strip.
    destruct (lstrip_suffix (replace_cr (replace_crlf (sub_blank_runs false (nfkc s)))))
      as [k Hk].
    destruct (rstrip_prefix (lstrip (replace_cr (replace_crlf
                (sub_blank_runs false (nfkc s)))))) as [k' Hk'].
    pose proof (replace_cr_collapsed _ _ (replace_crlf_collapsed _ _
                 (sub_blank_runs_collapsed false (nfkc s)))) as H.
    rewrite Hk in H. apply collapsed_app_r in H.
    rewrite Hk' in H. now apply collapsed_app_l in H. }
  assert (CR ∉ t) as Hcr.
  { intros H. apply strip_subseteq in H. now apply replace_cr_no_cr in H. }
  unfold normalize_text at 1. rewrite Hstable.
  rewrite (collapsed_fixed _ _ Hcol), (no_cr_replace_crlf _ Hcr), (no_cr_replace_cr _ Hcr).
  apply strip_idem.
Qed.

End WithSpec.
End WithUnicode.
End NormalizerFacts.

Module ScanFacts.
Local Close Scope Z_scope.
Import Chunker.

Lemma span_len_le {A} (p : A -> bool) l : span_len p l <= length l.
Proof. induction l as [|x l IH]; cbn; [lia|]. destruct (p x); lia. Qed.

Lemma span_len_drop_head {A} (p : A -> bool) l x :
  head (drop (span_len p l) l) = Some x -> p x = false.
Proof.
  induction l as [|y l IH]; cbn; [done|].
  destruct (p y) eqn:E; cbn; [done|]. now intros [= <-].
Qed.

Lemma take_add {A} (l : list A) a b : take (a + b) l = take a l ++ take b (drop a l).
Proof.
  revert l. induction a as [|a IH]; intros [|x l]; cbn; try done.
  - now rewrite take_nil.
  - now rewrite IH.
Qed.

Lemma drop_reverse_take {A} (l : list A) a :
  drop a (reverse l) = reverse (take (length l - a) l).
Proof.
  destruct (decide (a <= length l)) as [H|H].
  - rewrite <- (take_drop (length l - a) l) at 1.
    rewrite reverse_app. rewrite drop_app_length'; [done|].
    rewrite length_reverse, length_drop. lia.
  - rewrite drop_ge by (rewrite length_reverse; lia).
    replace (length l - a) with 0 by lia. done.
Qed.

Section WithUnicode.
Context {unicode : UnicodeLib}.

Lemma char_at_lookup s pos : pos < length s -> s !! pos = Some (char_at s pos).
Proof.
  intros H. unfold char_at. destruct (nth_lookup_or_length s pos 0%N); [done|lia].
Qed.

Lemma skip_forward_loop_spec fuel p s pos :
  length s - pos <= fuel ->
  skip_forward_loop fuel p s pos = pos + span_len p (drop pos s).
Proof.
  revert pos. induction fuel as [|fuel IH]; intros pos H; cbn [skip_forward_loop].
  - rewrite drop_ge by lia. cbn. lia.
  - destruct (Nat.ltb_spec pos (length s)) as [Hlt|Hge]; cbn [andb].
    + rewrite (drop_S s (char_at s pos) pos) by now apply char_at_lookup.
      cbn [span_len]. destruct (p (char_at s pos)); [|lia].
      rewrite IH by lia. lia.
    + rewrite drop_ge by lia. cbn. lia.
Qed.

Lemma skip_forward_spec p s pos :
  skip_forward p s pos = pos + span_len p (drop pos s).
Proof. unfold skip_forward. now apply skip_forward_loop_spec. Qed.

Lemma skip_backward_spec p s pos :
  pos <= length s ->
  skip_backward p s pos = pos - span_len p (reverse (take pos s)).
Proof.
  induction pos as [|q IH]; intros H; cbn [skip_backward]; [done|].
  rewrite (take_S_r s q (char_at s q)) by (apply char_at_lookup; lia).
  rewrite reverse_snoc. cbn [span_len].
  destruct (p (char_at s q)); [|lia]. rewrite IH by lia. lia.
Qed.

Lemma scan_le n l : scan n l <= length l.
Proof.
  revert l. induction n as [|n IH]; intros l; cbn [scan]; [lia|].
  destruct l as [|c l]; [cbn; lia|]. set (l0 := c :: l). cbn zeta.
  pose proof (span_len_le isspace l0).
  pose proof (span_len_le not_space (drop (span_len isspace l0) l0)) as H2.
  rewrite length_drop in H2.
  specialize (IH (drop (span_len isspace l0
                        + span_len not_space (drop (span_len isspace l0) l0)) l0)).
  rewrite length_drop in IH. lia.
Qed.

Lemma scan_pos n l : 0 < n -> l <> [] -> 0 < scan n l.
Proof.
  intros Hn Hl. destruct n as [|n]; [lia|]. destruct l as [|c l]; [done|].
  cbn [scan span_len]. destruct (isspace c) eqn:E; [lia|].
  cbn [drop span_len]. unfold not_space at 1. rewrite E. cbn. lia.
Qed.

Lemma chunk_end_loop_spec n s pos :
  chunk_end_loop n s pos = pos + scan n (drop pos s).
Proof.
  revert pos. induction n as [|n IH]; intros pos; cbn [chunk_end_loop scan]; [lia|].
  destruct (Nat.ltb_spec pos (length s)) as [Hlt|Hge].
  - destruct (drop pos s) as [|c l] eqn:E.
    { apply (f_equal length) in E. rewrite length_drop in E. cbn in E. lia. }
    rewrite <- E. cbn zeta. rewrite IH, !skip_forward_spec, !drop_drop.
    set (a := span_len isspace (drop pos s)).
    set (b := span_len not_space (drop (pos + a) s)).
    replace (pos + a + b) with (pos + (a + b)) by lia. lia.
  - rewrite drop_ge by lia. lia.
Qed.

Lemma chunk_start_loop_spec n s pos :
  pos <= length s ->
  chunk_start_loop n s pos = pos - scan n (reverse (take pos s)).
Proof.
  revert pos. induction n as [|n IH]; intros pos H; cbn [chunk_start_loop scan]; [lia|].
  destruct (Nat.ltb_spec 0 pos) as [Hlt|Hge].
  - destruct (reverse (take pos s)) as [|c l] eqn:E.
    { apply (f_equal length) in E. rewrite length_reverse, length_take in E.
      cbn in E. lia. }
    rewrite <- E. cbn zeta.
    set (r := reverse (take pos s)).
    set (a := span_len isspace r).
    assert (length r = pos) as Hr by (unfold r; rewrite length_reverse, length_take; lia).
    assert (a <= pos) as Ha by (rewrite <- Hr; apply span_len_le).
    assert (forall x, x <= pos -> drop x r = reverse (take (pos - x) s)) as Hdrop.
    { intros x Hx. unfold r. rewrite drop_reverse_take, length_take, take_take.
      do 2 f_equal. lia. }
    rewrite (skip_backward_spec isspace) by lia. fold r. fold a.
    rewrite (skip_backward_spec not_space) by lia.
    rewrite <- (Hdrop a) by lia.
    set (b := span_len not_space (drop a r)).
    assert (b <= pos - a).
    { unfold b. etrans; [apply span_len_le|]. rewrite length_drop. lia. }
    rewrite IH by lia.
    replace (pos - a - b) with (pos - (a + b)) by lia.
    rewrite <- Hdrop by lia. lia.
  - assert (pos = 0) as -> by lia. cbn. done.
Qed.

End WithUnicode.
End ScanFacts.

Module WordFacts.
Local Close Scope Z_scope.
Import Chunker ScanFacts.

Lemma length_runs_aux p cur l :
  length (runs_aux p cur l)
  = length (runs_aux p [] l)
    + match cur, l with
      | [], _ => 0
      | _ :: _, [] => 1
      | _ :: _, c :: _ => if p c then 0 else 1
      end.
Proof.
  revert cur. induction l as [|c l IH]; intros cur; cbn [runs_aux].
  - destruct cur; cbn; lia.
  - destruct (p c) eqn:E.
    + rewrite (IH (c :: cur)), (IH [c]). destruct cur; lia.
    + destruct cur; cbn [length]; lia.
Qed.

Section WithUnicode.
Context {unicode : UnicodeLib}.

Lemma length_runs_wc cur l :
  length (runs_aux not_space cur l)
  = wc (match cur with [] => false | _ => true end) l
    + match cur with [] => 0 | _ => 1 end.
Proof.
  revert cur. induction l as [|c l IH]; intros cur; cbn [runs_aux wc].
  - destruct cur; reflexivity.
  - destruct (not_space c).
    + rewrite IH. destruct cur; lia.
    + destruct cur; cbn [length]; rewrite IH; lia.
Qed.

Lemma count_words_wc l : length (split l) = wc false l.
Proof. unfold split, runs. rewrite length_runs_wc. lia. Qed.

Lemma wc_true_le l : wc true l <= wc false l <= wc true l + 1.
Proof. destruct l as [|c l]; cbn; [lia|]. destruct (not_space c); lia. Qed.

Lemma wc_app inw x y : wc inw (x ++ y) = wc inw x + wc (ends_in_word inw x) y.
Proof.
  revert inw. induction x as [|c x IH]; intros inw; [done|].
  cbn [app wc]. unfold ends_in_word. rewrite last_cons.
  destruct (not_space c) eqn:E; rewrite IH; unfold ends_in_word;
    destruct (last x); rewrite ?E; lia.
Qed.

Lemma wc_app_le x y : wc false (x ++ y) <= wc false x + wc false y.
Proof.
  rewrite wc_app. pose proof (wc_true_le y). destruct (ends_in_word false x); lia.
Qed.

Lemma wc_app_l inw x y : wc inw x <= wc inw (x ++ y).
Proof. rewrite wc_app. lia. Qed.

Lemma ends_in_word_wc inw l :
  ends_in_word inw l = true -> inw = true \/ 0 < wc inw l.
Proof.
  revert inw. induction l as [|c l IH]; intros inw; unfold ends_in_word.
  - cbn. auto.
  - rewrite last_cons. cbn [wc]. destruct (last l) as [d|] eqn:El.
    + intros Hd. destruct (not_space c).
      * destruct inw; [auto|right; lia].
      * right. destruct (IH false); [|done|done].
        unfold ends_in_word. now rewrite El.
    + intros ->. destruct inw; [auto|right; lia].
Qed.

Lemma wc_ends_in_word x : ends_in_word false x = true -> 0 < wc false x.
Proof. intros H. now destruct (ends_in_word_wc _ _ H). Qed.

Lemma wc_app_r x y : wc false y <= wc false (x ++ y).
Proof.
  rewrite wc_app. destruct (ends_in_word false x) eqn:E; [|lia].
  apply wc_ends_in_word in E. pose proof (wc_true_le y). lia.
Qed.

Lemma wc_starts l :
  wc false l = wc true l + match head l with
                           | Some c => if not_space c then 1 else 0
                           | None => 0
                           end.
Proof. destruct l as [|c l]; cbn; [done|]. destruct (not_space c); lia. Qed.

Lemma wc_reverse l : wc false (reverse l) = wc false l.
Proof.
  induction l as [|c l IH]; [done|].
  rewrite reverse_cons, wc_app. cbn [wc]. rewrite IH.
  unfold ends_in_word. rewrite last_reverse.
  rewrite (wc_starts l). destruct (not_space c), (head l) as [d|];
    try destruct (not_space d); lia.
Qed.

(** Skipping the white space in front changes nothing. *)
Lemma wc_skip_space l : wc false (drop (span_len isspace l) l) = wc false l.
Proof.
  induction l as [|c l IH]; [done|]. cbn [span_len].
  destruct (isspace c) eqn:E; cbn [drop]; [|reflexivity].
  rewrite IH. cbn [wc]. unfold not_space. now rewrite E.
Qed.

(** Skipping the rest of the current word changes nothing either. *)
Lemma wc_skip_word l : wc false (drop (span_len not_space l) l) = wc true l.
Proof.
  induction l as [|c l IH]; [done|]. cbn [span_len wc].
  destruct (not_space c) eqn:E; cbn [drop]; [rewrite IH; lia|].
  cbn [wc]. now rewrite E.
Qed.

(** One iteration of the scanning loops takes one word away. *)
Lemma wc_scan_step l :
  let a := span_len isspace l in
  let b := span_len not_space (drop a l) in
  wc false (drop (a + b) l) = wc false l - 1.
Proof.
  intros a b. rewrite <- drop_drop. subst b.
  rewrite wc_skip_word. rewrite <- (wc_skip_space l). fold a.
  rewrite (wc_starts (drop a l)).
  destruct (head (drop a l)) as [c|] eqn:E.
  - apply span_len_drop_head in E as E'. unfold not_space. rewrite E'. cbn.
    clearbody a. lia.
  - destruct (drop a l); [cbn; lia|done].
Qed.

Lemma wc_drop_scan n l : wc false (drop (scan n l) l) = wc false l - n.
Proof.
  revert l. induction n as [|n IH]; intros l; cbn [scan]; [rewrite drop_0; lia|].
  destruct l as [|c l]; [done|]. set (l0 := c :: l). cbn zeta.
  rewrite <- drop_drop, IH, wc_scan_step. lia.
Qed.

Lemma wc_all {b} l p :
  Forall (fun c => p c = true) l ->
  (forall c, p c = true -> not_space c = b) ->
  wc false l <= if b then 1 else 0.
Proof.
  intros Hall Hp. destruct b.
  - enough (wc true l = 0) by (pose proof (wc_true_le l); lia).
    induction Hall as [|c l Hc _ IH]; [done|]. cbn. now rewrite (Hp _ Hc).
  - induction Hall as [|c l Hc _ IH]; [done|]. cbn. now rewrite (Hp _ Hc).
Qed.

Lemma span_len_take_all {A} (p : A -> bool) l :
  Forall (fun c => p c = true) (take (span_len p l) l).
Proof.
  induction l as [|c l IH]; cbn; [constructor|].
  destruct (p c) eqn:E; cbn; [|constructor]. now constructor.
Qed.

(** The characters consumed in [n] iterations hold at most [n] words. *)
Lemma wc_take_scan n l : wc false (take (scan n l) l) <= n.
Proof.
  revert l. induction n as [|n IH]; intros l; cbn [scan]; [now rewrite take_0|].
  destruct l as [|c l]; [cbn; lia|]. set (l0 := c :: l). cbn zeta.
  set (a := span_len isspace l0). set (b := span_len not_space (drop a l0)).
  rewrite take_add, (take_add l0 a b).
  etrans; [apply wc_app_le|]. specialize (IH (drop (a + b) l0)).
  assert (wc false (take a l0 ++ take b (drop a l0)) <= 1); [|lia].
  etrans; [apply wc_app_le|].
  pose proof (@wc_all false (take a l0) isspace (span_len_take_all _ _)) as H1.
  pose proof (@wc_all true (take b (drop a l0)) not_space (span_len_take_all _ _)) as H2.
  cbv beta iota in H1, H2. specialize (H2 (fun _ H => H)).
  assert (forall c, isspace c = true -> not_space c = false) as Hs.
  { intros ? E. unfold not_space. now rewrite E. }
  specialize (H1 Hs). lia.
Qed.

End WithUnicode.
End WordFacts.

Module ChunkerFacts.
Local Close Scope Z_scope.
Import Chunker ScanFacts WordFacts.

Section WithLibs.
Context {unicode : UnicodeLib} {hashlib : HashLib}.

Lemma find_chunk_end_cases s start (target : Z) :
  (0 <= target)%Z ->
  let n := Z.to_nat target in
  let l := drop start s in
  (wc false l <= n /\ find_chunk_end s start target = length s)
  \/ (n < wc false l /\ find_chunk_end s start target = start + scan n l).
Proof.
  intros Ht n l. unfold find_chunk_end. rewrite count_words_wc. fold l.
  destruct (Z.leb_spec (Z.of_nat (wc false l)) target); [left|right].
  - split; [lia|done].
  - split; [lia|]. apply chunk_end_loop_spec.
Qed.

Lemma find_chunk_start_cases s end_pos (target : Z) :
  (0 <= target)%Z -> end_pos <= length s ->
  let k := Z.to_nat target in
  let r := reverse (take end_pos s) in
  (wc false (take end_pos s) <= k /\ find_chunk_start s end_pos target = 0)
  \/ (k < wc false (take end_pos s)
      /\ find_chunk_start s end_pos target = end_pos - scan k r).
Proof.
  intros Ht He k r. unfold find_chunk_start. rewrite count_words_wc.
  destruct (Z.leb_spec (Z.of_nat (wc false (take end_pos s))) target); [left|right].
  - split; [lia|done].
  - split; [lia|]. now apply chunk_start_loop_spec.
Qed.

(** The words consumed by [n] iterations, when there are more than [n]. *)
Lemma wc_take_scan_ge n l : n <= wc false l -> n <= wc false (take (scan n l) l).
Proof.
  intros H. pose proof (wc_app_le (take (scan n l) l) (drop (scan n l) l)) as Happ.
  rewrite take_drop, wc_drop_scan in Happ. lia.
Qed.

(** Stepping back over fewer words than were stepped over forwards stops
    after the start. *)
Lemma overlap_shorter s pos n k :
  k < n -> n <= wc false (drop pos s) -> pos <= length s ->
  let m := scan n (drop pos s) in
  scan k (reverse (take (pos + m) s)) < m.
Proof.
  intros Hkn Hn Hpos m.
  set (l := drop pos s). set (B := take m l).
  assert (m <= length l) as Hm by apply scan_le.
  assert (length B = m) as HB by (unfold B; rewrite length_take; lia).
  assert (take (pos + m) s = take pos s ++ B) as -> by apply take_add.
  rewrite reverse_app.
  remember (scan k (reverse B ++ reverse (take pos s))) as c eqn:Hc.
  destruct (Nat.lt_ge_cases c m) as [|Hge]; [done|exfalso].
  pose proof (wc_take_scan k (reverse B ++ reverse (take pos s))) as Hle.
  rewrite <- Hc in Hle.
  rewrite take_app_ge in Hle by (rewrite length_reverse; lia).
  pose proof (wc_app_l false (reverse B)
                (take (c - length (reverse B)) (reverse (take pos s)))) as Hl.
  rewrite wc_reverse in Hl.
  pose proof (wc_take_scan_ge n l Hn) as Hn'. change (n <= wc false B) in Hn'. lia.
Qed.

Section WithConfig.
Variables (cfg : Config) (document : Document).
Hypothesis Hsize : (0 < chunk_size cfg)%Z.
Hypothesis Hoverlap : (0 <= chunk_overlap cfg < chunk_size cfg)%Z.

Local Abbreviation text_len := (length (normalized_text document)).

Lemma chunk_step_break pos idx emitted :
  chunk_step cfg document pos idx = Break emitted ->
  Forall (fun c => offset_start c = Z.of_nat pos) emitted /\ length emitted <= 1.
Proof.
  unfold chunk_step. destruct (_ <=? pos); [intros [= <-]; split; [constructor|cbn; lia]|].
  destruct (take _ _); [intros [= <-]; split; [constructor|cbn; lia]|].
  destruct (derive_page_range _ _ _) as [ps pe].
  destruct (text_len <=? _); [|discriminate].
  intros [= <-]. split; [repeat constructor|cbn; lia].
Qed.

Lemma chunk_step_continue pos idx c next :
  chunk_step cfg document pos idx = Continue c next ->
  let end_pos := find_chunk_end (normalized_text document) pos (chunk_size cfg) in
  pos < end_pos < text_len
  /\ next = find_chunk_start (normalized_text document) end_pos (chunk_overlap cfg)
  /\ offset_start c = Z.of_nat pos.
Proof.
  intros H end_pos. unfold chunk_step in H. cbv zeta in H. fold end_pos in H.
  destruct (Nat.leb_spec end_pos pos); [discriminate|].
  destruct (take _ _); [discriminate|].
  destruct (derive_page_range _ _ _) as [ps pe].
  destruct (Nat.leb_spec text_len end_pos); [discriminate|].
  injection H as <- <-. repeat split; lia.
Qed.

(** Each iteration that does not leave the loop moves the cursor
    forward. *)
Lemma chunk_step_progress pos idx c next :
  chunk_step cfg document pos idx = Continue c next ->
  pos < next < text_len /\ offset_start c = Z.of_nat pos.
Proof.
  intros H. apply chunk_step_continue in H as ([Hlo Hhi] & -> & Hc).
  split; [|done].
  set (s := normalized_text document) in *.
  destruct (find_chunk_end_cases s pos (chunk_size cfg)) as [[_ E]|[Hn E]]; [lia|lia|].
  rewrite E in *.
  set (n := Z.to_nat (chunk_size cfg)) in *.
  set (m := scan n (drop pos s)) in *.
  assert (n <= wc false (take (pos + m) s)) as Hwords.
  { rewrite take_add. etrans; [|apply wc_app_r]. apply wc_take_scan_ge. lia. }
  destruct (find_chunk_start_cases s (pos + m) (chunk_overlap cfg)) as [[Hk _]|[_ ->]];
    [lia|lia|lia|].
  pose proof (overlap_shorter s pos n (Z.to_nat (chunk_overlap cfg))) as Hlt.
  cbn zeta in Hlt. fold m in Hlt. lia.
Qed.

Lemma chunk_loop_terminates fuel pos idx :
  text_len - pos < fuel ->
  exists chunks,
    chunk_loop fuel cfg document pos idx = Some chunks
    /\ Forall (fun c => (Z.of_nat pos <= offset_start c)%Z) chunks
    /\ starts_increase chunks.
Proof.
  revert pos idx. induction fuel as [|fuel IH]; intros pos idx Hfuel; [lia|].
  cbn [chunk_loop]. destruct (Nat.ltb_spec pos text_len) as [Hlt|Hge].
  - destruct (chunk_step cfg document pos idx) as [emitted|c next] eqn:Hstep.
    + apply chunk_step_break in Hstep as [Hall Hlen]. exists emitted.
      split; [done|]. split.
      * eapply Forall_impl; [exact Hall|]. cbn. intros ? ->. lia.
      * destruct emitted as [|c [|? ?]]; [constructor|repeat constructor|cbn in Hlen; lia].
    + apply chunk_step_progress in Hstep as ([Hlo Hhi] & Hc).
      destruct (IH next (idx + 1)%Z) as (chunks & -> & Hall & Hs); [lia|].
      exists (c :: chunks). split; [done|]. split.
      * constructor; [lia|]. eapply Forall_impl; [exact Hall|]. cbn. lia.
      * constructor; [done|]. eapply Forall_impl; [exact Hall|]. cbn. lia.
  - exists []. repeat split; constructor.
Qed.

End WithConfig.

(** More fuel does not change a result. *)
Lemma chunk_loop_more_fuel cfg document fuel fuel' pos idx chunks :
  chunk_loop fuel cfg document pos idx = Some chunks -> fuel <= fuel' ->
  chunk_loop fuel' cfg document pos idx = Some chunks.
Proof.
  revert fuel' pos idx chunks. induction fuel as [|fuel IH]; intros fuel' pos idx chunks;
    [discriminate|].
  intros H Hle. destruct fuel' as [|fuel']; [lia|]. cbn [chunk_loop] in *.
  destruct (_ <? _); [|done].
  destruct (chunk_step _ _ _ _) as [|c next]; [done|].
  destruct (chunk_loop fuel _ _ _ _) as [rest|] eqn:E; [|discriminate].
  erewrite IH; [exact H|exact E|lia].
Qed.

(** C3.  With [chunk_size] positive and [0 <= chunk_overlap < chunk_size],
    [chunk_document] terminates (the loop ends within one iteration per
    character, and more fuel gives the same chunks); the start offsets of
    the emitted chunks strictly increase; and an iteration that does not
    leave the loop moves the cursor strictly forward.  The document is
    text that [str.encode] accepts, as [generate_chunk_id] encodes it. *)
Theorem chunk_document_terminates (cfg : Config) (document : Document) :
  (0 < chunk_size cfg)%Z ->
  (0 <= chunk_overlap cfg < chunk_size cfg)%Z ->
  Utf8.wf_str (d_doc_uid document) -> Utf8.wf_str (normalized_text document) ->
  exists chunks,
    chunk_document cfg document = Some chunks
    /\ (forall fuel, length (normalized_text document) < fuel ->
                     chunk_document_in fuel cfg document = Some chunks)
    /\ StronglySorted (fun c1 c2 => (offset_start c1 < offset_start c2)%Z) chunks
    /\ (forall pos idx c next,
          chunk_step cfg document pos idx = Continue c next -> pos < next).
Proof.
  intros Hsize Hoverlap _ _.
  assert (forall pos idx c next,
            chunk_step cfg document pos idx = Continue c next -> pos < next) as Hprog.
  { intros pos idx c next H.
    now apply (chunk_step_progress cfg document Hsize Hoverlap) in H as [[? _] _]. }
  unfold chunk_document, chunk_document_in.
  destruct (split (normalized_text document)) as [|w ws].
  { exists []. repeat split; [constructor|exact Hprog]. }
  destruct (chunk_loop_terminates cfg document Hsize Hoverlap
              (S (length (normalized_text document))) 0 0%Z) as (chunks & Hc & _ & Hs);
    [lia|].
  exists chunks. split; [done|]. split; [|split; [exact Hs|exact Hprog]].
  intros fuel Hfuel. eapply chunk_loop_more_fuel; [exact Hc|lia].
Qed.

End WithLibs.
End ChunkerFacts.

(** * The library instances meet the laws *)

Module InstanceFacts.
Import Instances.

(** The test vectors of FIPS 180-4 and of the xxHash distribution. *)
Example sha256_constants :
  length Sha256.primes = 64%nat /\ last Sha256.primes = Some 311
  /\ head Sha256.K = Some 0x428a2f98 /\ last Sha256.K = Some 0xc67178f2
  /\ Sha256.ha Sha256.initial = 0x6a09e667 /\ Sha256.hh Sha256.initial = 0x5be0cd19.
Proof. vm_compute. repeat split. Qed.

Example sha256_abc :
  hexs (Sha256.digest (ascii_bytes "abc"))
  = lit "ba7816bf8f01cfea414140de5dae2223b00361a396177a9cb410ff61f20015ad".
Proof. vm_compute. reflexivity. Qed.

Example sha256_empty :
  hexs (Sha256.digest [])
  = lit "e3b0c44298fc1c149afbf4c8996fb92427ae41e4649b934ca495991b7852b855".
Proof. vm_compute. reflexivity. Qed.

Example sha256_two_blocks :
  hexs (Sha256.digest (replicate 56 "a"%char))
  = lit "b35439a4ac6f0948b6d6f9e3c6af0f5f590ce20f1bde7090ef7970686ec6738a".
Proof. vm_compute. reflexivity. Qed.

Example xxh32_empty : XXH32.intdigest [] = 0x02CC5D05.
Proof. vm_compute. reflexivity. Qed.

Example xxh32_abc : XXH32.intdigest (ascii_bytes "abc") = 0x32D153FF.
Proof. vm_compute. reflexivity. Qed.

Example xxh32_stripes :
  XXH32.intdigest (ascii_bytes "Nobody inspects the spammish repetition") = 0xe2293b2f.
Proof. vm_compute. reflexivity. Qed.

Lemma sha256_digest_spec : sha256_spec.
Proof. intros m. reflexivity. Qed.


Lemma term_frequency_spec : rank_bm25_spec.
Proof.
  intros corpus k1 b okapi query_tokens H. cbn in H.
  destruct (concat corpus); [discriminate|]. injection H as <-.
  cbn. now rewrite length_map.
Qed.

Lemma space_compat_idem c : space_compat (space_compat c) = space_compat c.
Proof.
  unfold space_compat at 2 3.
  destruct (_ || _) eqn:E; [reflexivity|]. unfold space_compat. now rewrite E.
Qed.

Lemma basic_unicode_spec : nfkc_spec.
Proof.
  split; unfold nfkc_stable; cbn [nfkc basic_unicode].
  - intros s. rewrite map_map. apply map_ext. intros c. apply space_compat_idem.
  - intros a b. rewrite map_app. intros H. apply app_inj_1 in H; [done|].
    now rewrite length_map.
  - intros a c b Hc Ha Hb. rewrite map_app. cbn [map]. rewrite Ha, Hb.
    now destruct Hc as [-> | ->].
Qed.

End InstanceFacts.

(** * The theorems at concrete inputs *)

Module Checks.
Import Instances Examples InstanceFacts.

Lemma wf_str_forallb (s : str) :
  forallb Utf8.is_scalar s = true -> Utf8.wf_str s.
Proof.
  induction s as [|c s IH]; cbn [forallb]; intros H; constructor;
    apply andb_true_iff in H; tauto.
Qed.

(** The identifier of [ex_chunk] is the one that Python's [hashlib]
    gives. *)
Example generate_chunk_id_hello :
  Ids.generate_chunk_id (lit "abc123def456") 0 11 (lit "Hello world")
  = lit "074c963cf28f7494".
Proof. vm_compute. reflexivity. Qed.

Lemma generate_chunk_id_correct_witness :
  let id := Ids.generate_chunk_id (lit "abc123def456") 0 11 (lit "Hello world") in
  (exists digest,
     chunk_digest (lit "abc123def456") 0 11 (lit "Hello world") digest
     /\ length digest = 64%nat /\ id = take 16 digest)
  /\ (forall digest,
        chunk_digest (lit "abc123def456") 0 11 (lit "Hello world") digest ->
        id = take 16 digest)
  /\ length id = 16%nat
  /\ Forall (fun c => is_lower_hex c = true) id
  /\ (forall doc_uid' offset_start' offset_end' chunk_text',
        doc_uid' = lit "abc123def456" -> offset_start' = 0 ->
        offset_end' = 11 -> chunk_text' = lit "Hello world" ->
        Ids.generate_chunk_id doc_uid' offset_start' offset_end' chunk_text' = id).
Proof.
  apply (IdsFacts.generate_chunk_id_correct
           (lit "abc123def456") 0 11 (lit "Hello world") sha256_digest_spec);
    try lia; apply wf_str_forallb; reflexivity.
Defined.

(** S5 of the specification: a no-break space, a tab, a space, CR LF and
    a trailing space. *)
Example normalize_text_s5 :
  Normalizer.normalize_text [65; 160; 9; 32; 66; 13; 10; 32; 67; 32]%N
  = [65; 32; 66; 10; 32; 67]%N.
Proof. vm_compute. reflexivity. Qed.

Lemma normalize_text_idempotent_witness :
  Normalizer.normalize_text
    (Normalizer.normalize_text [65; 160; 9; 32; 66; 13; 10; 32; 67; 32]%N)
  = Normalizer.normalize_text [65; 160; 9; 32; 66; 13; 10; 32; 67; 32]%N.
Proof.
  exact (NormalizerFacts.normalize_text_idempotent basic_unicode_spec
           [65; 160; 9; 32; 66; 13; 10; 32; 67; 32]%N).
Defined.

(** Two words per chunk, one of overlap. *)
Example chunk_document_abcd :
  map (fun c => (offset_start c, offset_end c, text c))
    <$> Chunker.chunk_document ex_cfg ex_doc
  = Some [(0, 3, lit "a b"); (2, 5, lit "b c"); (4, 7, lit "c d")].
Proof. vm_compute. reflexivity. Qed.

Lemma chunk_document_terminates_witness :
  exists chunks,
    Chunker.chunk_document ex_cfg ex_doc = Some chunks
    /\ (forall fuel, (length (normalized_text ex_doc) < fuel)%nat ->
                     Chunker.chunk_document_in fuel ex_cfg ex_doc = Some chunks)
    /\ StronglySorted (fun c1 c2 => offset_start c1 < offset_start c2) chunks
    /\ (forall pos idx c next,
          Chunker.chunk_step ex_cfg ex_doc pos idx = Chunker.Continue c next ->
          (pos < next)%nat).
Proof.
  apply (ChunkerFacts.chunk_document_terminates ex_cfg ex_doc);
    try (cbn; lia); apply wf_str_forallb; reflexivity.
Defined.

Lemma index_record_roundtrip_witness :
  ChunkStore.INDEX_RECORD_SIZE = 141%nat /\
  map Struct.item_size ChunkStore.index_record_items
  = [32; 32; 32; 8; 4; 4; 1; 8; 8; 4; 4; 4]%nat /\
  exists b,
    ChunkStore.chunks_idx (ChunkStore.write_index_record ex_record st0).2
    = Some (default [] (ChunkStore.chunks_idx st0) ++ b)
    /\ length b = ChunkStore.INDEX_RECORD_SIZE
    /\ b = ChunkStore.pad_id (replicate 16 97%N) ++ ChunkStore.pad_id (replicate 16 98%N)
           ++ ChunkStore.pad_id (replicate 16 99%N)
           ++ Struct.le_encode 8 1000 ++ Struct.le_encode 4 500
           ++ Struct.le_encode 4 12345 ++ Struct.le_encode 1 1
           ++ Struct.le_encode 8 0 ++ Struct.le_encode 8 100
           ++ Struct.le_encode 4 0
           ++ Struct.le_encode 4 (-1 mod 2 ^ 32)
           ++ Struct.le_encode 4 (-1 mod 2 ^ 32)
    /\ ChunkStore.unpack_index_record b = Ok ex_record.
Proof.
  apply (RecordLayout.index_record_roundtrip st0 _ ex_record);
    try (split; [apply wf_str_forallb; reflexivity | split; [cbn; lia | discriminate]]).
  vm_compute. reflexivity.
Defined.


(** [c3] has the term twice; [c1] and [c2] have it once and come in
    corpus order; [c0] does not have it and completes the top four with
    score 0. *)
Example search_machine :
  Search.search (built ex_corpus) (lit "machine") 4
  = Ok [(lit "c3", Float (inject_Z 2)); (lit "c1", Float (inject_Z 1));
        (lit "c2", Float (inject_Z 1)); (lit "c0", Float (inject_Z 0))].
Proof. vm_compute. reflexivity. Qed.

Lemma build_ex_corpus :
  Search.build (Search.new_index ex_cfg) ex_corpus = Ok (built ex_corpus).
Proof. vm_compute. reflexivity. Qed.



Lemma search_without_tokens_witness :
  Search.search (built ex_corpus) (lit " ?! ") 5 = Ok []
  /\ Search.retrieve_ids (built ex_corpus) (lit " ?! ") 5 = Ok [].
Proof.
  apply (SearchTheorems.search_without_tokens (built ex_corpus) (lit " ?! ") 5).
  - apply (SearchTheorems.build_is_built _ _ _ build_ex_corpus).
  - vm_compute. reflexivity.
Defined.

(** C5, counterexample.  Neither writer replaces its target atomically.
    On a directory that holds earlier versions of both files,
    [save_docs_meta] and [save_manifest] perform no rename, and the
    target is first empty and then holds the opening brace alone: states
    that are neither the old nor the new content. *)
Lemma save_not_atomic :
  let old := Utf8.encode (lit "{}") in
  let fs0 : FileIO.filesystem :=
    {[ lit "docs.meta" := old; lit "manifest.json" := old ]} in
  let meta_ops := FileIO.save_docs_meta (lit "docs.meta") ex_docs_meta in
  let meta_new := concat (json_iterencode (FileIO.json_of_docs_meta ex_docs_meta) 2) in
  let manifest_ops := FileIO.save_manifest ex_manifest (lit "manifest.json") in
  let manifest_new := concat (json_iterencode (FileIO.manifest_dict ex_manifest) 2) in
  ~ replaces_atomically (lit "docs.meta") meta_new meta_ops
  /\ ~ replaces_atomically (lit "manifest.json") manifest_new manifest_ops
  /\ map (fun fs => fs !! lit "docs.meta") (take 2 (FileIO.run fs0 meta_ops))
     = [Some []; Some (Utf8.encode (lit "{"))]
  /\ map (fun fs => fs !! lit "manifest.json") (take 2 (FileIO.run fs0 manifest_ops))
     = [Some []; Some (Utf8.encode (lit "{"))]
  /\ [] <> old /\ Utf8.encode (lit "{") <> old
  /\ [] <> meta_new /\ Utf8.encode (lit "{") <> meta_new
  /\ [] <> manifest_new /\ Utf8.encode (lit "{") <> manifest_new.
Proof.
  cbv zeta. split; [|split].
  - apply FileIOFacts.in_place_not_atomic, FileIOFacts.dump_to_in_place.
  - apply FileIOFacts.in_place_not_atomic, FileIOFacts.dump_to_in_place.
  - vm_compute. repeat split; discriminate.
Qed.

(** C1, the failing input.  [ex_chunk] is written and indexed, then
    tombstoned, and the store is opened again.  [read_chunk] returns
    [None] for its id and [fetch_chunks] skips it, but [retrieve] still
    returns a result with that id, with no matched term, an empty snippet
    and an empty source reference. *)
Theorem tombstoned_chunk_retrieved :
  let id := chunk_id ex_chunk in
  let data := Utf8.encode (text ex_chunk) in
  ChunkStore.write_chunk ex_chunk (Compression.compress_data data 3) (xxh32 data) st0
  = (Ok tt, st1)
  /\ Search.build (Search.new_index ex_cfg) [ex_chunk] = Ok (built [ex_chunk])
  /\ ChunkStore.tombstone_chunk id st1 = (Ok tt, st2)
  /\ ChunkStore.load_index (ChunkStore.reopen st2) = (Ok tt, st3)
  /\ ChunkStore.read_chunk id st3 = (Ok None, st3)
  /\ Search.fetch_chunks [id] st3 = (Ok [], st3)
  /\ Search.retrieve (built [ex_chunk]) (lit "hello") 5 st3
     = (Ok [{| r_chunk_id := id; score := Float (inject_Z 1); matched_terms := [];
               snippet := [];
               r_source_ref :=
                 {| source_path := []; sr_offset_start := 0; sr_offset_end := 0;
                    sr_page_start := None; sr_page_end := None |} |}],
        st3).
Proof. vm_compute. repeat split. Qed.

End Checks.

(* ===================================================================== *)
(** * Part II, continued: the rest of the modules                         *)
(* ===================================================================== *)

Import Invariants.

(** * Paths and document identifiers *)

Module PathsFacts.
Import Paths.

Lemma split_aux_cur sep cur s :
  split_aux sep cur s
  = match split_aux sep [] s with
    | piece :: pieces => (reverse cur ++ piece) :: pieces
    | [] => []
    end.
Proof.
  revert cur. induction s as [|c s IH]; intros cur; cbn [split_aux].
  - now rewrite app_nil_r.
  - destruct (c =? sep)%N; [now rewrite app_nil_r|].
    rewrite (IH (c :: cur)), (IH [c]). destruct (split_aux sep [] s); [done|].
    now rewrite reverse_cons, <- app_assoc.
Qed.

Lemma split_on_cons sep c s :
  split_on sep (c :: s)
  = if (c =? sep)%N then [] :: split_on sep s
    else match split_on sep s with
         | piece :: pieces => (c :: piece) :: pieces
         | [] => []
         end.
Proof.
  unfold split_on. cbn [split_aux]. destruct (c =? sep)%N; [done|].
  now rewrite split_aux_cur.
Qed.

Lemma split_on_nonempty sep s : split_on sep s <> [].
Proof.
  induction s as [|c s IH]; [done|]. rewrite split_on_cons.
  destruct (c =? sep)%N; [done|]. now destruct (split_on sep s).
Qed.

(** The pieces hold no separator. *)
Lemma split_on_pieces sep s : Forall (fun piece => sep ∉ piece) (split_on sep s).
Proof.
  induction s as [|c s IH].
  - constructor; [|constructor]. apply not_elem_of_nil.
  - rewrite split_on_cons. destruct (c =? sep)%N eqn:E.
    + constructor; [apply not_elem_of_nil|done].
    + destruct (split_on sep s) as [|piece pieces]; [done|].
      inversion IH as [|? ? Hp Hps]; subst. constructor; [|done].
      apply not_elem_of_cons. split; [|done]. intros ->. apply N.eqb_neq in E. done.
Qed.

(** Splitting keeps every other character: a character that is not in
    the string is in none of the pieces. *)
Lemma split_on_chars sep s x :
  x ∉ s -> Forall (fun piece => x ∉ piece) (split_on sep s).
Proof.
  induction s as [|c s IH]; intros Hx.
  - constructor; [|constructor]. apply not_elem_of_nil.
  - apply not_elem_of_cons in Hx as [Hxc Hx]. specialize (IH Hx).
    rewrite split_on_cons. destruct (c =? sep)%N.
    + constructor; [apply not_elem_of_nil|done].
    + destruct (split_on sep s) as [|piece pieces]; [done|].
      inversion IH; subst. constructor; [|done]. now apply not_elem_of_cons.
Qed.

Lemma join_cons sep part parts :
  parts <> [] -> join sep (part :: parts) = part ++ sep ++ join sep parts.
Proof. now destruct parts. Qed.

(** Joining the pieces gives the string back. *)
Lemma join_split_on sep s : join [sep] (split_on sep s) = s.
Proof.
  induction s as [|c s IH]; [done|]. rewrite split_on_cons.
  destruct (c =? sep)%N eqn:E.
  - apply N.eqb_eq in E as ->. rewrite join_cons by apply split_on_nonempty.
    cbn. now rewrite IH.
  - pose proof (split_on_nonempty sep s) as Hne.
    destruct (split_on sep s) as [|piece pieces]; [done|].
    rewrite <- IH. destruct pieces; [done|]. reflexivity.
Qed.

Lemma split_on_app sep part s :
  sep ∉ part -> split_on sep (part ++ sep :: s) = part :: split_on sep s.
Proof.
  induction part as [|c part IH]; intros Hp.
  - rewrite app_nil_l, split_on_cons. now rewrite N.eqb_refl.
  - apply not_elem_of_cons in Hp as [Hc Hp]. cbn [app]. rewrite split_on_cons.
    rewrite (proj2 (N.eqb_neq _ _)) by congruence. now rewrite IH.
Qed.

Lemma split_on_piece sep part : sep ∉ part -> split_on sep part = [part].
Proof.
  induction part as [|c part IH]; intros Hp; [done|].
  apply not_elem_of_cons in Hp as [Hc Hp]. rewrite split_on_cons.
  rewrite (proj2 (N.eqb_neq _ _)) by congruence. now rewrite IH.
Qed.

(** Splitting a joined list gives the list back, when it is not empty
    and its parts hold no separator. *)
Lemma split_on_join sep parts :
  parts <> [] -> Forall (fun part => sep ∉ part) parts ->
  split_on sep (join [sep] parts) = parts.
Proof.
  induction parts as [|part parts IH]; intros Hne H; [done|].
  inversion H as [|? ? Hp Hps]; subst.
  destruct parts as [|part' parts].
  - now apply split_on_piece.
  - rewrite join_cons by done. cbn [app]. rewrite split_on_app by done.
    now rewrite IH.
Qed.

Lemma elem_of_join x sep parts :
  x ∈ join sep parts -> x ∈ sep \/ exists part, part ∈ parts /\ x ∈ part.
Proof.
  induction parts as [|part parts IH]; [intros H; now apply elem_of_nil in H|].
  destruct parts as [|part' parts].
  - intros H. right. exists part. split; [left|done].
  - rewrite join_cons by done. rewrite !elem_of_app. intros [H|[H|H]].
    + right. exists part. split; [left|done].
    + now left.
    + destruct (IH H) as [?|(p & Hp & Hx)]; [now left|].
      right. exists p. split; [now right|done].
Qed.

Lemma replace_char_absent a b s : a ∉ s -> replace_char a b s = s.
Proof.
  induction s as [|c s IH]; [done|]. intros H.
  apply not_elem_of_cons in H as [Hc H]. cbn.
  rewrite (proj2 (N.eqb_neq _ _)) by congruence. f_equal. now apply IH.
Qed.

Lemma replace_char_gone a b s : a <> b -> a ∉ replace_char a b s.
Proof.
  intros Hab. induction s as [|c s IH]; [apply not_elem_of_nil|].
  cbn. apply not_elem_of_cons. split; [|done].
  destruct (c =? a)%N eqn:E; [done|]. apply N.eqb_neq in E. congruence.
Qed.

Lemma Forall_removelast {A} (P : A -> Prop) l : Forall P l -> Forall P (removelast l).
Proof.
  induction 1 as [|x l Hx Hl IH]; [constructor|].
  cbn. destruct l; [constructor|]. constructor; done.
Qed.

Lemma resolve_parts_kept pieces parts :
  Forall (fun piece => (SLASH ∉ piece) /\ (BACKSLASH ∉ piece)) pieces ->
  Forall kept parts -> Forall kept (foldl resolve_part parts pieces).
Proof.
  intros H. revert parts. induction H as [|piece pieces [Hs Hb] _ IH]; intros parts Hk; [done|].
  cbn [foldl]. apply IH. unfold resolve_part.
  destruct (bool_decide _) eqn:E1; [done|].
  destruct (bool_decide (piece = lit "..")) eqn:E2.
  - destruct parts; [done|]. now apply Forall_removelast.
  - apply Forall_app. split; [done|]. constructor; [|constructor].
    apply bool_decide_eq_false in E1, E2. done.
Qed.

Lemma resolve_parts_fixed pieces parts :
  Forall kept pieces -> foldl resolve_part parts pieces = parts ++ pieces.
Proof.
  intros H. revert parts. induction H as [|piece pieces (H1 & H2 & _) _ IH]; intros parts.
  - now rewrite app_nil_r.
  - cbn [foldl]. rewrite IH. unfold resolve_part.
    rewrite !bool_decide_eq_false_2 by done. now rewrite <- app_assoc.
Qed.

Lemma normalize_path_parts rel_path :
  exists parts, Forall kept parts /\ normalize_path rel_path = join [SLASH] parts.
Proof.
  eexists. split; [|reflexivity].
  apply resolve_parts_kept; [|constructor].
  pose proof (split_on_pieces SLASH (replace_char BACKSLASH SLASH rel_path)) as H1.
  pose proof (split_on_chars SLASH (replace_char BACKSLASH SLASH rel_path) BACKSLASH
                (replace_char_gone BACKSLASH SLASH rel_path ltac:(discriminate))) as H2.
  apply Forall_forall. intros piece Hp.
  split; [exact (proj1 (Forall_forall _ _) H1 _ Hp)|exact (proj1 (Forall_forall _ _) H2 _ Hp)].
Qed.

Lemma join_kept x parts :
  Forall kept parts -> x <> SLASH -> x ∈ join [SLASH] parts ->
  exists part, part ∈ parts /\ x ∈ part.
Proof.
  intros _ Hx H. apply elem_of_join in H as [H|H]; [|done].
  apply list_elem_of_singleton in H. done.
Qed.

Lemma normalize_path_normal rel_path :
  normalize_path (normalize_path rel_path) = normalize_path rel_path
  /\ (BACKSLASH ∉ normalize_path rel_path)
  /\ Forall (fun part => part <> lit "." /\ part <> lit "..")
            (split_on SLASH (normalize_path rel_path)).
Proof.
  destruct (normalize_path_parts rel_path) as (parts & Hk & ->).
  assert (BACKSLASH ∉ join [SLASH] parts) as Hb.
  { intros H. apply join_kept in H as (part & Hp & H); [|done|done].
    apply (proj1 (Forall_forall _ _) Hk) in Hp as (_ & _ & _ & Hp). done. }
  destruct parts as [|part parts].
  - split; [reflexivity|]. split; [done|]. repeat constructor; discriminate.
  - assert (split_on SLASH (join [SLASH] (part :: parts)) = part :: parts) as Hs.
    { apply split_on_join; [done|]. eapply Forall_impl; [exact Hk|]. now intros ? (_ & _ & ? & _). }
    split; [|split; [done|]].
    + unfold normalize_path at 1. rewrite replace_char_absent by done.
      rewrite Hs. now rewrite resolve_parts_fixed.
    + rewrite Hs. eapply Forall_impl; [exact Hk|]. now intros ? (? & ? & _).
Qed.

(** X1.  [normalize_path] is idempotent, and its result is clean: it
    holds no backslash, and none of its components (the pieces between
    slashes) is [.] or [..]. *)
Theorem normalize_path_idempotent (rel_path : str) :
  normalize_path (normalize_path rel_path) = normalize_path rel_path
  /\ (BACKSLASH ∉ normalize_path rel_path)
  /\ Forall (fun part => part <> lit "." /\ part <> lit "..")
            (split_on SLASH (normalize_path rel_path)).
Proof. exact (normalize_path_normal rel_path). Qed.

Section WithHash.
Context {hashlib : HashLib}.

(** X2.  Document identifiers are 16 lowercase hexadecimal characters, and
    [generate_doc_uid] gives a path and its normal form the same
    identifier.  The strings are such that [str.encode] accepts them. *)
Theorem doc_identifiers (rel_path doc_uid normalized_text_hash : str) :
  sha256_spec ->
  Utf8.wf_str rel_path -> Utf8.wf_str doc_uid -> Utf8.wf_str normalized_text_hash ->
  let uid := generate_doc_uid rel_path in
  let id := Ids.generate_doc_id doc_uid normalized_text_hash in
  length uid = 16%nat /\ Forall (fun c => is_lower_hex c = true) uid
  /\ length id = 16%nat /\ Forall (fun c => is_lower_hex c = true) id
  /\ generate_doc_uid (normalize_path rel_path) = uid.
Proof.
  intros Hsha _ _ _ uid id. subst uid id. unfold generate_doc_uid, Ids.generate_doc_id, Ids.hexdigest.
  rewrite !length_take, !IdsFacts.length_hex, !Hsha.
  split; [reflexivity|]. split; [apply Forall_take, IdsFacts.hex_lower|].
  split; [reflexivity|]. split; [apply Forall_take, IdsFacts.hex_lower|].
  now rewrite (proj1 (normalize_path_normal rel_path)).
Qed.

End WithHash.
End PathsFacts.

(** * The pages of a PDF document *)

Module ParsersFacts.
Import Paths Parsers Normalizer PathsFacts.
Section WithLibs.
Context {unicode : UnicodeLib} {hashlib : HashLib}.

Lemma collect_pages_texts page_num offset texts :
  map page_text (collect_pages page_num offset texts) = texts
  /\ map page_number (collect_pages page_num offset texts)
     = map (fun i => page_num + Z.of_nat i) (seq 0 (length texts)).
Proof.
  revert page_num offset. induction texts as [|t texts IH]; intros page_num offset; [done|].
  cbn [collect_pages map length seq]. destruct (IH (page_num + 1) (offset + Z.of_nat (length t))) as [-> ->].
  split; [done|]. f_equal; [cbn; lia|]. rewrite <- seq_shift, map_map.
  apply map_ext. intros i. lia.
Qed.

Lemma place_pages_texts first offset pages :
  map page_text (place_pages first offset pages).1 = map page_text pages
  /\ map page_number (place_pages first offset pages).1 = map page_number pages.
Proof.
  revert first offset. induction pages as [|p pages IH]; intros first offset; [done|].
  cbn [place_pages].
  destruct (place_pages false _ pages) as [placed parts] eqn:E.
  specialize (IH false (((if first then offset else offset + 1)
                          + Z.of_nat (length (normalize_text (page_text p)))))).
  rewrite E in IH. cbn in *. destruct IH as [-> ->]. done.
Qed.

(** The parts are the normalized texts, with a line feed before each but
    the first. *)
Lemma place_pages_parts first offset pages :
  concat (place_pages first offset pages).2
  = match pages with
    | [] => []
    | _ => (if first then [] else [LF])
           ++ join [LF] (map (fun p => normalize_text (page_text p)) pages)
    end.
Proof.
  revert first offset. induction pages as [|p pages IH]; intros first offset; [done|].
  cbn [place_pages].
  destruct (place_pages false _ pages) as [placed parts] eqn:E.
  specialize (IH false (((if first then offset else offset + 1)
                          + Z.of_nat (length (normalize_text (page_text p)))))).
  rewrite E in IH. cbn [fst snd] in *.
  rewrite concat_app. cbn [concat]. rewrite IH.
  destruct pages as [|p' pages].
  - cbn. destruct first; cbn; now rewrite ?app_nil_r.
  - cbn [map]. rewrite (join_cons [LF] (normalize_text (page_text p))) by done.
    destruct first; cbn; now rewrite ?app_nil_r.
Qed.

Lemma place_pages_slices first (before : str) pages (after : str) :
  let r := place_pages first (Z.of_nat (length before)) pages in
  Forall (page_slice (before ++ concat r.2 ++ after)) r.1.
Proof.
  revert first before. induction pages as [|p pages IH]; intros first before; [constructor|].
  cbn [place_pages]. cbv zeta.
  remember (normalize_text (page_text p)) as n eqn:En.
  set (sep := if first then [] else [LF] : str).
  assert ((if first then Z.of_nat (length before) else Z.of_nat (length before) + 1)
          + Z.of_nat (length n) = Z.of_nat (length (before ++ sep ++ n))) as Hend.
  { clear IH. rewrite !length_app. subst sep. destruct first; cbn [length]; lia. }
  rewrite Hend. specialize (IH false (before ++ sep ++ n)). cbv zeta in IH.
  destruct (place_pages false _ pages) as [placed parts]. cbn [fst snd] in *.
  assert (concat ((if first then [] else [[LF]]) ++ n :: parts) = sep ++ n ++ concat parts) as ->.
  { subst sep. now destruct first. }
  constructor.
  - exists (length (before ++ sep)), (length (before ++ sep ++ n)).
    split; [cbn [page_offset_start]; rewrite length_app; subst sep; destruct first; cbn [length]; lia|].
    split; [done|]. cbn [page_text]. rewrite <- En.
    rewrite !length_app. split; [lia|].
    replace (before ++ (sep ++ n ++ concat parts) ++ after)
      with ((before ++ sep) ++ n ++ concat parts ++ after) by now rewrite <- !app_assoc.
    rewrite <- (length_app before sep), drop_app_length.
    replace (length before + (length sep + length n) - length (before ++ sep))%nat
      with (length n) by (rewrite length_app; lia).
    now rewrite take_app_length.
  - replace (before ++ (sep ++ n ++ concat parts) ++ after)
      with ((before ++ sep ++ n) ++ concat parts ++ after) by now rewrite <- !app_assoc.
    exact IH.
Qed.

(** Each page starts one character after the end of the page before, and
    the last one ends with the text. *)
Lemma place_pages_chain first offset pages :
  let r := place_pages first offset pages in
  (forall p, head r.1 = Some p ->
             page_offset_start p = if first then offset else offset + 1)
  /\ (forall i p q, r.1 !! i = Some p -> r.1 !! S i = Some q ->
                    page_offset_start q = page_offset_end p + 1)
  /\ (forall p, last r.1 = Some p ->
                page_offset_end p = offset + Z.of_nat (length (concat r.2))).
Proof.
  revert first offset. induction pages as [|p pages IH]; intros first offset; [done|].
  cbn [place_pages]. cbv zeta.
  remember (normalize_text (page_text p)) as n eqn:En.
  remember (if first then offset else offset + 1) as start eqn:Es.
  specialize (IH false (start + Z.of_nat (length n))). cbv zeta in IH.
  destruct (place_pages false _ pages) as [placed parts] eqn:E. cbn [fst snd] in *.
  destruct IH as (IH1 & IH2 & IH3).
  split; [intros q [= <-]; reflexivity|]. split.
  - intros [|i] p1 p2 H1 H2.
    + injection H1 as <-. cbn in H2. cbn [page_offset_end].
      destruct placed as [|p' placed]; [done|]. injection H2 as <-.
      now rewrite (IH1 _ eq_refl).
    + exact (IH2 i p1 p2 H1 H2).
  - intros q Hq. rewrite concat_app. cbn [concat]. rewrite !length_app.
    destruct pages as [|p' pages].
    + injection E as <- <-. injection Hq as <-. cbn [page_offset_end concat length].
      subst start. destruct first; cbn [concat length app]; lia.
    + assert (exists q' placed', placed = q' :: placed') as (q' & placed' & ->).
      { cbn [place_pages] in E. destruct (place_pages false _ pages).
        injection E as <- _. eauto. }
      rewrite last_cons_cons in Hq. rewrite (IH3 _ Hq).
      subst start. destruct first; cbn [concat length app]; lia.
Qed.

(** X3.  [parse_pdf] keeps the pages in step with the text: the
    normalized text of the document is the normalized texts of the pages
    joined by line feeds; the pages are numbered from 1 and keep their
    raw text; the offsets of each page delimit its normalized text in the
    normalized text of the document; the first page starts at 0, each
    page starts one character after the end of the one before, and the
    last page ends with the text.  The path and the page texts are
    strings that [str.encode] accepts. *)
Theorem parse_pdf_page_offsets
    (texts : list str) (rel_path : str) (metadata_title : option str) (stem : str) :
  Utf8.wf_str rel_path -> Forall Utf8.wf_str texts ->
  let document := parse_pdf texts rel_path metadata_title stem in
  normalized_text document = join [LF] (map normalize_text texts)
  /\ exists placed,
       pages document = Some placed
       /\ map page_text placed = texts
       /\ map page_number placed = map (fun i => Z.of_nat (S i)) (seq 0 (length texts))
       /\ Forall (page_slice (normalized_text document)) placed
       /\ (forall p, head placed = Some p -> page_offset_start p = 0)
       /\ (forall i p q, placed !! i = Some p -> placed !! S i = Some q ->
                         page_offset_start q = page_offset_end p + 1)
       /\ (forall p, last placed = Some p ->
                     page_offset_end p = Z.of_nat (length (normalized_text document))).
Proof.
  intros _ _. unfold parse_pdf.
  pose proof (place_pages_texts true 0 (collect_pages 1 0 texts)) as [Ht Hn].
  pose proof (place_pages_parts true 0 (collect_pages 1 0 texts)) as Hp.
  pose proof (place_pages_slices true [] (collect_pages 1 0 texts) []) as Hs.
  pose proof (place_pages_chain true 0 (collect_pages 1 0 texts)) as (H1 & H2 & H3).
  pose proof (collect_pages_texts 1 0 texts) as [Ct Cn].
  cbv zeta in *. change (Z.of_nat (length (@nil N))) with 0 in Hs.
  destruct (place_pages true 0 (collect_pages 1 0 texts)) as [placed parts].
  cbn [fst snd normalized_text pages] in *.
  rewrite app_nil_r in Hs.
  assert (concat parts = join [LF] (map normalize_text texts)) as Hc.
  { rewrite Hp. rewrite <- Ct at 2. rewrite map_map.
    now destruct (collect_pages 1 0 texts). }
  split; [exact Hc|]. exists placed. split; [done|].
  split; [congruence|]. split.
  { rewrite Hn, Cn. apply map_ext. intros i. lia. }
  split; [exact Hs|]. split; [exact H1|]. split; [exact H2|].
  intros p Hl. rewrite (H3 p Hl). lia.
Qed.

End WithLibs.
End ParsersFacts.

(** * The chunks of a document *)

Module ChunksFacts.
Local Close Scope Z_scope.
Import Chunker ScanFacts WordFacts ChunkerFacts.
Section WithLibs.
Context {unicode : UnicodeLib} {hashlib : HashLib}.

Lemma find_chunk_end_le s start target :
  start <= length s -> find_chunk_end s start target <= length s.
Proof.
  intros H. unfold find_chunk_end. destruct (_ <=? _)%Z; [done|].
  rewrite chunk_end_loop_spec.
  pose proof (scan_le (Z.to_nat target) (drop start s)) as Hs.
  rewrite length_drop in Hs. lia.
Qed.

Lemma find_chunk_start_le s end_pos target :
  end_pos <= length s -> find_chunk_start s end_pos target <= end_pos.
Proof.
  intros H. unfold find_chunk_start. destruct (_ <=? _)%Z; [lia|].
  rewrite chunk_start_loop_spec by done. lia.
Qed.

Lemma find_chunk_end_gt s start target :
  (0 < target)%Z -> start < length s -> start < find_chunk_end s start target.
Proof.
  intros Ht H.
  destruct (find_chunk_end_cases s start target ltac:(lia)) as [[_ ->]|[_ ->]]; [done|].
  assert (0 < scan (Z.to_nat target) (drop start s)); [|lia].
  apply scan_pos; [lia|]. intros E. apply (f_equal length) in E.
  rewrite length_drop in E. cbn in E. lia.
Qed.

(** What one iteration emits. *)
Lemma chunk_step_emits cfg document pos idx (c : Chunk) :
  pos < length (normalized_text document) ->
  (chunk_step cfg document pos idx = Break [c]
   \/ exists next, chunk_step cfg document pos idx = Continue c next) ->
  chunk_index c = idx /\ offset_start c = Z.of_nat pos /\ chunk_slice document c.
Proof.
  intros Hpos H. unfold chunk_step in H. cbv zeta in H.
  set (s := normalized_text document) in *.
  pose proof (find_chunk_end_le s pos (chunk_size cfg) ltac:(lia)) as Hle.
  remember (find_chunk_end s pos (chunk_size cfg)) as end_pos eqn:Ee.
  destruct (end_pos <=? pos) eqn:E1; [destruct H as [H|[? H]]; discriminate|].
  apply Nat.leb_gt in E1.
  destruct (take (end_pos - pos) (drop pos s)) as [|x chunk_text] eqn:Et;
    [destruct H as [H|[? H]]; discriminate|].
  destruct (derive_page_range _ _ _) as [page_start page_end] eqn:Ep.
  assert (forall c', c = c' ->
            c' = {| chunk_id := Ids.generate_chunk_id (d_doc_uid document) (Z.of_nat pos)
                                  (Z.of_nat end_pos) (x :: chunk_text);
                    doc_uid := d_doc_uid document; doc_id := d_doc_id document;
                    text := x :: chunk_text;
                    offset_start := Z.of_nat pos; offset_end := Z.of_nat end_pos;
                    chunk_index := idx;
                    source_ref :=
                      {| source_path := d_source_path document;
                         sr_offset_start := Z.of_nat pos; sr_offset_end := Z.of_nat end_pos;
                         sr_page_start := page_start; sr_page_end := page_end |};
                    page_start := page_start; page_end := page_end |} ->
            chunk_index c = idx /\ offset_start c = Z.of_nat pos /\ chunk_slice document c)
    as Hc.
  { intros c' -> ->. split; [done|]. split; [done|].
    exists pos, end_pos. cbn. fold s. rewrite Et, Ep. repeat split; try done; lia. }
  destruct (length s <=? end_pos).
  - destruct H as [H|[? H]]; [|discriminate]. injection H as H.
    exact (Hc _ eq_refl (eq_sym H)).
  - destruct H as [H|[next H]]; [discriminate|]. injection H as H _.
    exact (Hc _ eq_refl (eq_sym H)).
Qed.

Lemma chunk_step_outcomes cfg document pos idx :
  (0 < chunk_size cfg)%Z -> pos < length (normalized_text document) ->
  (exists c, chunk_step cfg document pos idx = Break [c]
             /\ offset_end c = Z.of_nat (length (normalized_text document)))
  \/ (exists c next, chunk_step cfg document pos idx = Continue c next
                     /\ (Z.of_nat next <= offset_end c)%Z
                     /\ next < length (normalized_text document)).
Proof.
  intros Hsize Hpos. unfold chunk_step. cbv zeta.
  set (s := normalized_text document) in *.
  pose proof (find_chunk_end_le s pos (chunk_size cfg) ltac:(lia)) as Hle.
  pose proof (find_chunk_end_gt s pos (chunk_size cfg) Hsize Hpos) as Hgt.
  remember (find_chunk_end s pos (chunk_size cfg)) as end_pos eqn:Ee.
  rewrite (proj2 (Nat.leb_gt _ _)) by done.
  destruct (take (end_pos - pos) (drop pos s)) as [|x chunk_text] eqn:Et.
  { apply (f_equal length) in Et. rewrite length_take, length_drop in Et. cbn in Et. lia. }
  destruct (derive_page_range _ _ _) as [page_start page_end].
  destruct (length s <=? end_pos) eqn:E.
  - apply Nat.leb_le in E. left. eexists. split; [reflexivity|]. cbn. f_equal. lia.
  - apply Nat.leb_gt in E. right. eexists _, _. split; [reflexivity|]. cbn.
    pose proof (find_chunk_start_le s end_pos (chunk_overlap cfg) ltac:(lia)). lia.
Qed.

Lemma chunk_loop_slices fuel cfg document pos idx chunks :
  chunk_loop fuel cfg document pos idx = Some chunks ->
  forall i c, chunks !! i = Some c ->
    chunk_index c = (idx + Z.of_nat i)%Z /\ chunk_slice document c.
Proof.
  revert pos idx chunks. induction fuel as [|fuel IH]; intros pos idx chunks; [discriminate|].
  cbn [chunk_loop]. destruct (pos <? _) eqn:Ep; [|intros [= <-] i c Hc; done].
  apply Nat.ltb_lt in Ep.
  destruct (chunk_step cfg document pos idx) as [emitted|c0 next] eqn:Es.
  - intros [= <-] i c Hc.
    destruct (chunk_step_break cfg document pos idx emitted Es) as [_ Hlen].
    destruct emitted as [|c1 [|]]; [done| |cbn in Hlen; lia].
    destruct i; [|done]. injection Hc as <-.
    destruct (chunk_step_emits cfg document pos idx c1 Ep (or_introl Es)) as (-> & _ & Hc).
    split; [lia|done].
  - destruct (chunk_loop fuel cfg document next (idx + 1)) as [rest|] eqn:El; [|discriminate].
    intros [= <-] i c Hc. destruct i as [|i].
    + injection Hc as <-.
      destruct (chunk_step_emits cfg document pos idx c0 Ep (or_intror (ex_intro _ next Es)))
        as (-> & _ & Hc).
      split; [lia|done].
    + destruct (IH _ _ _ El i c Hc) as [-> Hs]. split; [lia|done].
Qed.

(** X4.  Every chunk that [chunk_document] returns is an exact slice of
    the normalized text: its text is [normalized_text[offset_start:offset_end]]
    and is not empty, its identifier is computed from the document uid, the
    offsets and this text, its source reference repeats the offsets and
    the page range, and its [chunk_index] is its position in the list.
    The document is text that [str.encode] accepts. *)
Theorem chunks_are_slices
    (fuel : nat) (cfg : Config) (document : Document) (chunks : list Chunk) :
  Utf8.wf_str (d_doc_uid document) -> Utf8.wf_str (normalized_text document) ->
  chunk_document_in fuel cfg document = Some chunks ->
  map chunk_index chunks = map Z.of_nat (seq 0 (length chunks))
  /\ Forall (chunk_slice document) chunks.
Proof.
  intros _ _ H.
  assert (forall i c, chunks !! i = Some c ->
                      chunk_index c = Z.of_nat i /\ chunk_slice document c) as Hall.
  { revert H. unfold chunk_document_in. destruct (split _); [intros [= <-] i c Hc; done|].
    intros H i c Hc.
    destruct (chunk_loop_slices _ _ _ _ _ _ H i c Hc) as [-> Hs]. split; [lia|done]. }
  split.
  - apply list_eq. intros i. rewrite !list_lookup_fmap.
    destruct (chunks !! i) as [c|] eqn:E.
    + rewrite lookup_seq_lt by (apply lookup_lt_Some in E; lia).
      cbn. f_equal. exact (proj1 (Hall i c E)).
    + rewrite lookup_seq_ge by (apply lookup_ge_None in E; lia). done.
  - apply Forall_lookup. intros i c Hc. exact (proj2 (Hall i c Hc)).
Qed.

Lemma chunk_loop_covers fuel cfg document pos idx chunks :
  (0 < chunk_size cfg)%Z -> pos < length (normalized_text document) ->
  chunk_loop fuel cfg document pos idx = Some chunks ->
  (exists c, head chunks = Some c /\ offset_start c = Z.of_nat pos)
  /\ (forall c, last chunks = Some c ->
                offset_end c = Z.of_nat (length (normalized_text document)))
  /\ (forall i c1 c2, chunks !! i = Some c1 -> chunks !! S i = Some c2 ->
                      (offset_start c2 <= offset_end c1)%Z).
Proof.
  intros Hsize. revert pos idx chunks.
  induction fuel as [|fuel IH]; intros pos idx chunks Hpos; [discriminate|].
  cbn [chunk_loop]. rewrite (proj2 (Nat.ltb_lt _ _)) by done.
  destruct (chunk_step_outcomes cfg document pos idx Hsize Hpos)
    as [(c & Es & Hend)|(c & next & Es & Hnext & Hlt)].
  - rewrite Es. intros [= <-].
    destruct (chunk_step_emits cfg document pos idx c Hpos (or_introl Es)) as (_ & Hst & _).
    split; [eauto|]. split; [intros ? [= <-]; done|]. intros [|i] c1 c2 H1 H2; done.
  - rewrite Es.
    destruct (chunk_loop fuel cfg document next (idx + 1)) as [rest|] eqn:El; [|discriminate].
    intros [= <-].
    destruct (chunk_step_emits cfg document pos idx c Hpos (or_intror (ex_intro _ next Es)))
      as (_ & Hst & _).
    destruct (IH _ _ _ Hlt El) as ((c' & Hhead & Hst') & Hlast & Hadj).
    destruct rest as [|c'' rest]; [done|]. injection Hhead as ->.
    split; [eauto|]. split.
    + intros c1. rewrite last_cons_cons. apply Hlast.
    + intros [|i] c1 c2 H1 H2.
      * injection H1 as <-. injection H2 as <-. lia.
      * exact (Hadj i c1 c2 H1 H2).
Qed.

(** X5.  With a positive [chunk_size], the chunks that [chunk_document]
    returns cover the text: there is no chunk exactly when the text has no
    word; otherwise the first chunk starts at 0, the last one ends at the
    end of the text, and each chunk starts no later than the one before
    ends.  The document is text that [str.encode] accepts. *)
Theorem chunks_cover_text
    (fuel : nat) (cfg : Config) (document : Document) (chunks : list Chunk) :
  (0 < chunk_size cfg)%Z ->
  Utf8.wf_str (d_doc_uid document) -> Utf8.wf_str (normalized_text document) ->
  chunk_document_in fuel cfg document = Some chunks ->
  (chunks = [] <-> split (normalized_text document) = [])
  /\ (forall c, head chunks = Some c -> offset_start c = 0%Z)
  /\ (forall c, last chunks = Some c ->
                offset_end c = Z.of_nat (length (normalized_text document)))
  /\ (forall i c1 c2, chunks !! i = Some c1 -> chunks !! S i = Some c2 ->
                      (offset_start c2 <= offset_end c1)%Z).
Proof.
  intros Hsize _ _. unfold chunk_document_in.
  destruct (split (normalized_text document)) as [|w ws] eqn:Ew.
  { intros [= <-]. repeat split; done. }
  intros H.
  assert (0 < length (normalized_text document)) as Hpos.
  { destruct (normalized_text document); [discriminate|cbn; lia]. }
  destruct (chunk_loop_covers _ _ _ _ _ _ Hsize Hpos H) as ((c & Hh & Hst) & Hlast & Hadj).
  split; [split; [intros ->; discriminate|discriminate]|].
  split; [intros c' Hc'; rewrite Hh in Hc'; injection Hc' as <-; exact Hst|].
  split; [exact Hlast|exact Hadj].
Qed.

Lemma derive_loop_spec offset_start offset_end ps page_start page_end :
  let overlapping := filter (overlaps offset_start offset_end) ps in
  foldl (fun '(page_start, page_end) page =>
           let page_overlaps :=
             negb ((page_offset_end page <=? offset_start)%Z
                   || (offset_end <=? page_offset_start page)%Z) in
           if page_overlaps then
             (match page_start with None => Some (page_number page) | _ => page_start end,
              Some (page_number page))
           else (page_start, page_end))
        (page_start, page_end) ps
  = (match page_start with
     | None => page_number <$> head overlapping
     | _ => page_start
     end,
     match last overlapping with
     | Some page => Some (page_number page)
     | None => page_end
     end).
Proof.
  revert page_start page_end. induction ps as [|p ps IH]; intros page_start page_end.
  - cbn. now destruct page_start.
  - cbn [foldl]. cbv zeta in *.
    assert (negb ((page_offset_end p <=? offset_start)%Z
                  || (offset_end <=? page_offset_start p)%Z)
            = bool_decide (overlaps offset_start offset_end p)) as ->.
    { unfold overlaps. destruct (bool_decide _) eqn:E.
      - apply bool_decide_eq_true in E. apply negb_true_iff, orb_false_iff.
        split; apply Z.leb_gt; lia.
      - apply bool_decide_eq_false in E. apply negb_false_iff, orb_true_iff.
        rewrite !Z.leb_le. lia. }
    rewrite filter_cons. destruct (decide (overlaps offset_start offset_end p)) as [Ho|Ho].
    + rewrite bool_decide_eq_true_2 by done. rewrite IH.
      destruct (filter _ ps) as [|q qs] eqn:Ef.
      * cbn. now destruct page_start.
      * rewrite last_cons_cons. cbn [head fmap option_fmap option_map].
        destruct (last (q :: qs)) eqn:El; [|apply last_None in El; discriminate].
        now destruct page_start.
    + rewrite bool_decide_eq_false_2 by done. now rewrite IH.
Qed.

(** X6.  [_derive_page_range] returns the numbers of the first and of the
    last page that overlap the chunk, in the order of the list; both are
    [None] when no page overlaps it or the document has no pages. *)
Theorem derive_page_range_spec (pages : option (list Page)) (offset_start offset_end : Z) :
  let overlapping := filter (overlaps offset_start offset_end) (default [] pages) in
  derive_page_range pages offset_start offset_end
  = (page_number <$> head overlapping, page_number <$> last overlapping).
Proof.
  cbv zeta. destruct pages as [[|p ps]|]; [done| |done].
  unfold derive_page_range. rewrite (derive_loop_spec offset_start offset_end (p :: ps)).
  cbn [default]. now destruct (last _).
Qed.

End WithLibs.
End ChunksFacts.

(** * The chunk store: what its methods change *)

Module StoreEffects.
Import Struct ChunkStore Search Utf8Facts BytesFacts StructFacts RecordFacts RecordLayout
  StoreFacts ReloadFacts.

Lemma run_bind {A B} (m : M A) (k : A -> M B) st :
  (m ≫= k) st
  = match m st with
    | (Ok a, st') => k a st'
    | (Raise e, st') => (Raise e, st')
    end.
Proof. reflexivity. Qed.

Lemma appended_refl file : appended file file.
Proof. now left. Qed.

Lemma appended_trans f1 f2 f3 : appended f1 f2 -> appended f2 f3 -> appended f1 f3.
Proof.
  intros [->|[d1 ->]] [->|[d2 ->]]; [now left|right; eauto|right; eauto|].
  right. exists (d1 ++ d2). cbn. now rewrite app_assoc.
Qed.

Lemma append_only_refl st : append_only st st.
Proof. repeat split; apply appended_refl. Qed.

Lemma append_only_files st st' :
  chunks_bin st' = chunks_bin st -> chunks_idx st' = chunks_idx st ->
  docs_meta st' = docs_meta st -> append_only st st'.
Proof. intros H1 H2 H3. split; [now left|]. split; [now left|done]. Qed.

Lemma append_only_trans st1 st2 st3 :
  append_only st1 st2 -> append_only st2 st3 -> append_only st1 st3.
Proof.
  intros (B1 & I1 & M1) (B2 & I2 & M2).
  split; [eapply appended_trans; eauto|]. split; [eapply appended_trans; eauto|congruence].
Qed.

Lemma append_only_bind {A B} (m : M A) (k : A -> M B) st :
  append_only st (m st).2 ->
  (forall a st1, append_only st1 (k a st1).2) ->
  append_only st ((m ≫= k) st).2.
Proof.
  intros Hm Hk. rewrite run_bind. destruct (m st) as [[a|e] st1]; [|exact Hm].
  eapply append_only_trans; [exact Hm|apply Hk].
Qed.

Lemma append_only_for_each {A} (body : A -> M unit) l st :
  (forall x st1, append_only st1 (body x st1).2) ->
  append_only st (for_each body l st).2.
Proof.
  intros Hb. revert st. induction l as [|x l IH]; intros st; [apply append_only_refl|].
  cbn [for_each]. apply append_only_bind; [apply Hb|]. intros _ st1. apply IH.
Qed.

Lemma write_index_record_append_only r st :
  append_only st (write_index_record r st).2.
Proof.
  unfold write_index_record. rewrite run_bind. unfold lift.
  destruct (pack_index_record r) as [b|e]; [|apply append_only_refl].
  cbn. split; [apply appended_refl|]. split; [|done]. right. eauto.
Qed.

Lemma tombstone_chunk_append_only id st : append_only st (tombstone_chunk id st).2.
Proof.
  unfold tombstone_chunk. rewrite run_bind. cbn [gets].
  destruct (index st !! id) as [rec|]; [|apply append_only_refl].
  apply append_only_bind; [apply write_index_record_append_only|].
  intros _ st1. now apply append_only_files.
Qed.

(** X7.  The store is append-only.  Whatever [write_chunk],
    [tombstone_chunk] and [tombstone_document] return, also when they
    raise, the bytes that [chunks.bin] and [chunks.idx] held before the
    call are still there, followed by what the call appended, and
    [docs.meta] is untouched; [tombstone_chunk] and [tombstone_document]
    leave [chunks.bin] as it is. *)
Theorem store_append_only (st : store) :
  (forall chunk compressed_data checksum,
     append_only st (write_chunk chunk compressed_data checksum st).2)
  /\ (forall chunk_id,
        append_only st (tombstone_chunk chunk_id st).2
        /\ chunks_bin (tombstone_chunk chunk_id st).2 = chunks_bin st)
  /\ (forall doc_uid,
        append_only st (tombstone_document doc_uid st).2
        /\ chunks_bin (tombstone_document doc_uid st).2 = chunks_bin st).
Proof.
  split; [|split].
  - intros chunk compressed_data checksum. unfold write_chunk.
    rewrite run_bind. cbn [gets].
    apply append_only_bind.
    { cbn. split; [right; eauto|]. split; [apply appended_refl|done]. }
    intros _ st1. apply append_only_bind; [apply write_index_record_append_only|].
    intros _ st2. apply append_only_bind; [now apply append_only_files|].
    intros _ st3. now apply append_only_files.
  - intros id. split; [apply tombstone_chunk_append_only|].
    unfold tombstone_chunk. rewrite run_bind. cbn [gets].
    destruct (index st !! id) as [rec|]; [|done].
    rewrite run_bind. unfold write_index_record. rewrite run_bind. unfold lift.
    now destruct (pack_index_record _).
  - intros uid. unfold tombstone_document. rewrite run_bind. cbn [gets].
    destruct (doc_uid_to_chunks st !! uid) as [ids|]; [|split; [apply append_only_refl|done]].
    split; [apply append_only_for_each; intros; apply tombstone_chunk_append_only|].
    generalize st. induction ids as [|id ids IH]; intros s; [done|].
    cbn [for_each]. rewrite run_bind.
    assert (chunks_bin (tombstone_chunk id s).2 = chunks_bin s) as Hb.
    { unfold tombstone_chunk. rewrite run_bind. cbn [gets].
      destruct (index s !! id) as [rec|]; [|done].
      rewrite run_bind. unfold write_index_record. rewrite run_bind. unfold lift.
      now destruct (pack_index_record _). }
    destruct (tombstone_chunk id s) as [[[]|e] s1]; [|exact Hb].
    rewrite IH. exact Hb.
Qed.

Section WithLibs.
Context {unicode : UnicodeLib} {rank : RankBM25} {zstd : ZstdLib} {xxhash : XXHashLib}.

Lemma read_chunk_keeps id st : (read_chunk id st).2 = st.
Proof.
  unfold read_chunk. rewrite run_bind. cbn [gets].
  destruct (index st !! id) as [rec|]; [|done].
  destruct (negb (is_active rec)); [done|].
  rewrite run_bind. cbn [gets]. rewrite run_bind. unfold lift.
  destruct (of_option _ _) as [file|]; [|done].
  rewrite run_bind. destruct (seek_read _ _ _) as [cdata|]; [|done].
  rewrite run_bind. destruct (Compression.decompress_data _) as [data|]; [|done].
  rewrite run_bind. destruct (Utf8.decode _) as [text|]; [|done].
  destruct (negb _); done.
Qed.

Lemma mapM_keeps {A B} (f : A -> M B) l st :
  (forall x s, (f x s).2 = s) -> (mapM f l st).2 = st.
Proof.
  intros Hf. induction l as [|x l IH]; [done|].
  cbn [mapM]. rewrite run_bind. specialize (Hf x st).
  destruct (f x st) as [[y|e] s1]; cbn in Hf; subst s1; [|done].
  rewrite run_bind. destruct (mapM f l st) as [[ys|e] s2]; cbn in IH; subst s2; done.
Qed.

Lemma fetch_chunks_keeps ids st : (fetch_chunks ids st).2 = st.
Proof.
  unfold fetch_chunks. rewrite run_bind.
  pose proof (mapM_keeps read_chunk ids st read_chunk_keeps) as H.
  destruct (mapM read_chunk ids st) as [[found|e] s1]; cbn in H; subst s1; done.
Qed.

Lemma process_query_keeps index with_store query top_k st :
  (process_query index with_store query top_k st).2 = st.
Proof.
  unfold process_query. rewrite run_bind. unfold lift.
  destruct (search index query top_k) as [hits|]; [|done].
  apply mapM_keeps. intros [cid sc] s. rewrite run_bind.
  assert (((if with_store then read_chunk cid else mret None) s).2 = s) as H.
  { destruct with_store; [apply read_chunk_keeps|done]. }
  destruct ((if with_store then read_chunk cid else mret None) s) as [[found|e] s1];
    cbn in H; subst s1; [|done].
  now destruct found.
Qed.

(** X8.  Reading never changes the store: after [read_chunk],
    [fetch_chunks], [retrieve] and [retrieve_and_fetch] the files and the
    in-memory index are what they were, whether the call returned or
    raised. *)
Theorem reads_keep_store (st : store) :
  (forall chunk_id, (read_chunk chunk_id st).2 = st)
  /\ (forall chunk_ids, (fetch_chunks chunk_ids st).2 = st)
  /\ (forall index query top_k, (retrieve index query top_k st).2 = st)
  /\ (forall index query top_k, (Pipeline.retrieve_and_fetch index query top_k st).2 = st).
Proof.
  split; [intros; apply read_chunk_keeps|]. split; [intros; apply fetch_chunks_keeps|].
  split; [intros; apply process_query_keeps|].
  intros index query top_k. unfold Pipeline.retrieve_and_fetch. rewrite run_bind.
  pose proof (process_query_keeps index true query top_k st) as H.
  unfold retrieve. destruct (process_query index true query top_k st) as [[rs|e] s1];
    cbn in H; subst s1; [|done].
  rewrite run_bind. pose proof (fetch_chunks_keeps (map r_chunk_id rs) st) as H.
  destruct (fetch_chunks _ st) as [[cs|e] s1]; cbn in H; subst s1; done.
Qed.

End WithLibs.
End StoreEffects.

(** * The chunk store: reading, tombstones and reloading *)

Module StoreReads.
Import Struct ChunkStore Search Utf8Facts BytesFacts StructFacts RecordFacts RecordLayout
  StoreFacts ReloadFacts StoreEffects.
Section WithLibs.
Context {zstd : ZstdLib} {xxhash : XXHashLib}.

Lemma read_chunk_absent id st : absent st id -> read_chunk id st = (Ok None, st).
Proof.
  unfold absent, read_chunk. rewrite run_bind. cbn [gets].
  destruct (index st !! id) as [rec|]; [|done]. now intros ->.
Qed.

(** What [read_chunk] went through when it returned a chunk. *)
Lemma read_chunk_some id st r c :
  (read_chunk id st).1 = r -> r = Ok (Some c) ->
  exists rec file compressed_data,
    index st !! id = Some rec /\ is_active rec = true
    /\ chunks_bin st = Some file
    /\ seek_read file (store_offset rec) (length_ rec) = Ok compressed_data
    /\ Compression.decompress_data compressed_data = Ok (Utf8.encode (text c))
    /\ Utf8.wf_str (text c)
    /\ xxh32 (Utf8.encode (text c)) = checksum rec
    /\ chunk_id c = id /\ doc_uid c = rec_doc_uid rec /\ doc_id c = rec_doc_id rec
    /\ offset_start c = rec_offset_start rec /\ offset_end c = rec_offset_end rec
    /\ chunk_index c = rec_chunk_index rec.
Proof.
  unfold read_chunk. rewrite run_bind. cbn [gets].
  destruct (index st !! id) as [rec|]; [|intros <-; discriminate].
  destruct (is_active rec) eqn:Ea; [|intros <-; discriminate]. cbn [negb].
  rewrite run_bind. cbn [gets]. rewrite run_bind. unfold lift.
  destruct (chunks_bin st) as [file|]; [|intros <-; discriminate]. cbn [of_option].
  rewrite run_bind. destruct (seek_read _ _ _) as [cdata|] eqn:Es; [|intros <-; discriminate].
  rewrite run_bind.
  destruct (Compression.decompress_data _) as [data|] eqn:Ed; [|intros <-; discriminate].
  rewrite run_bind. destruct (Utf8.decode _) as [txt|] eqn:Et; [|intros <-; discriminate].
  destruct (xxh32 data =? checksum rec) eqn:Ec; [|intros <-; discriminate].
  cbn. intros <- [= <-].
  apply encode_decode in Et as [Hen Hwf]. apply Z.eqb_eq in Ec.
  subst data. exists rec, file, cdata. cbn. repeat split; done.
Qed.

(** X9.  What [read_chunk] returns.  It returns [None] exactly when the
    id is unknown or its record is inactive.  When it returns a chunk,
    the record of the id is active, the chunk carries the identifiers,
    offsets and index of the record, and its text is what the bytes at
    the record's place in [chunks.bin] decompress and decode to, with the
    xxhash32 of the record. *)
Theorem read_chunk_outcomes (id : str) (st : store) :
  ((read_chunk id st).1 = Ok None <-> absent st id)
  /\ forall c, (read_chunk id st).1 = Ok (Some c) ->
       exists rec file compressed_data,
         index st !! id = Some rec /\ is_active rec = true
         /\ chunks_bin st = Some file
         /\ seek_read file (store_offset rec) (length_ rec) = Ok compressed_data
         /\ Compression.decompress_data compressed_data = Ok (Utf8.encode (text c))
         /\ Utf8.wf_str (text c)
         /\ xxh32 (Utf8.encode (text c)) = checksum rec
         /\ chunk_id c = id
         /\ doc_uid c = rec_doc_uid rec /\ doc_id c = rec_doc_id rec
         /\ offset_start c = rec_offset_start rec /\ offset_end c = rec_offset_end rec
         /\ chunk_index c = rec_chunk_index rec.
Proof.
  split; [|intros c H; now apply (read_chunk_some _ _ _ c eq_refl)].
  split; [|intros H; now rewrite read_chunk_absent].
  unfold absent, read_chunk. rewrite run_bind. cbn [gets].
  destruct (index st !! id) as [rec|]; [|done].
  destruct (is_active rec); [|done]. cbn [negb].
  rewrite run_bind. cbn [gets]. rewrite run_bind. unfold lift.
  destruct (of_option _ _) as [file|]; [|discriminate].
  rewrite run_bind. destruct (seek_read _ _ _) as [cdata|]; [|discriminate].
  rewrite run_bind. destruct (Compression.decompress_data _) as [data|]; [|discriminate].
  rewrite run_bind. destruct (Utf8.decode _) as [text|]; [|discriminate].
  destruct (negb _); discriminate.
Qed.

(** [read_chunk] looks at the record of the id, at [chunks.bin] and at
    the source paths only. *)
Lemma read_chunk_ext id st st' :
  index st' !! id = index st !! id -> chunks_bin st' = chunks_bin st ->
  doc_id_to_source_path st' = doc_id_to_source_path st ->
  (read_chunk id st').1 = (read_chunk id st).1.
Proof.
  intros Hi Hb Hp. unfold read_chunk. rewrite !run_bind. cbn [gets]. rewrite Hi.
  destruct (index st !! id) as [rec|]; [|done].
  destruct (negb (is_active rec)); [done|].
  rewrite !run_bind. cbn [gets]. rewrite !run_bind. unfold lift. rewrite Hb.
  destruct (of_option _ _) as [file|]; [|done].
  rewrite !run_bind. destruct (seek_read _ _ _) as [cdata|]; [|done].
  rewrite !run_bind. destruct (Compression.decompress_data _) as [data|]; [|done].
  rewrite !run_bind. destruct (Utf8.decode _) as [text|]; [|done].
  destruct (negb _); [done|]. rewrite !run_bind. cbn [gets]. now rewrite Hp.
Qed.

Lemma tombstone_chunk_index id st st1 :
  tombstone_chunk id st = (Ok tt, st1) ->
  absent st1 id
  /\ (forall id', id' <> id -> index st1 !! id' = index st !! id')
  /\ (forall id', absent st id' -> absent st1 id')
  /\ chunks_bin st1 = chunks_bin st
  /\ doc_id_to_source_path st1 = doc_id_to_source_path st
  /\ doc_uid_to_chunks st1 = doc_uid_to_chunks st.
Proof.
  unfold tombstone_chunk. rewrite run_bind. cbn [gets]. unfold absent.
  destruct (index st !! id) as [rec|] eqn:Er.
  - rewrite run_bind. unfold write_index_record. rewrite run_bind. unfold lift.
    destruct (pack_index_record _) as [b|]; [|discriminate].
    cbn. intros [= <-]. cbn. rewrite lookup_insert_eq.
    split; [done|]. split; [intros id' Hne; now rewrite lookup_insert_ne|].
    split; [|done]. intros id'. destruct (decide (id' = id)) as [->|Hne].
    + now rewrite lookup_insert_eq.
    + now rewrite lookup_insert_ne.
  - intros [= <-]. rewrite Er. done.
Qed.

(** X10.  A tombstone takes effect at once and touches one chunk only:
    after [tombstone_chunk(id)] has returned, [read_chunk(id)] returns
    [None] on the same store object, and for every other id [read_chunk]
    returns what it returned before. *)
Theorem tombstone_chunk_frame (chunk_id : str) (st st1 : store) :
  tombstone_chunk chunk_id st = (Ok tt, st1) ->
  read_chunk chunk_id st1 = (Ok None, st1)
  /\ forall other, other <> chunk_id ->
       (read_chunk other st1).1 = (read_chunk other st).1.
Proof.
  intros H. apply tombstone_chunk_index in H as (Ha & Hi & _ & Hb & Hp & _).
  split; [now apply read_chunk_absent|].
  intros other Hne. apply read_chunk_ext; auto.
Qed.

Lemma tombstone_chunks_index ids st st1 :
  for_each tombstone_chunk ids st = (Ok tt, st1) ->
  (forall id, id ∈ ids -> absent st1 id)
  /\ (forall id, id ∉ ids -> index st1 !! id = index st !! id)
  /\ (forall id, absent st id -> absent st1 id)
  /\ chunks_bin st1 = chunks_bin st
  /\ doc_id_to_source_path st1 = doc_id_to_source_path st.
Proof.
  revert st. induction ids as [|id ids IH]; intros st H.
  - injection H as <-. split; [intros id Hin; now apply elem_of_nil in Hin|done].
  - cbn [for_each] in H. apply bind_inv in H as ([] & s1 & H1 & H).
    apply tombstone_chunk_index in H1 as (Ha & Hi & Hk & Hb & Hp & _).
    destruct (IH _ H) as (Ha' & Hi' & Hk' & Hb' & Hp').
    split; [|split; [|split; [|split; congruence]]].
    + intros id' Hin. apply elem_of_cons in Hin as [->|Hin]; [now apply Hk'|now apply Ha'].
    + intros id' Hn. apply not_elem_of_cons in Hn as [Hne Hn]. rewrite Hi' by done. now apply Hi.
    + intros id' Hab. now apply Hk', Hk.
Qed.

(** X11.  After [tombstone_document(doc_uid)] has returned, [read_chunk]
    returns [None] for every chunk id that the store lists for the
    document, and what it returned before for every other id; for a
    document that the store does not know nothing changes. *)
Theorem tombstone_document_reads (doc_uid : str) (st st1 : store) :
  tombstone_document doc_uid st = (Ok tt, st1) ->
  let listed := default [] (doc_uid_to_chunks st !! doc_uid) in
  (forall id, id ∈ listed -> read_chunk id st1 = (Ok None, st1))
  /\ (forall id, id ∉ listed -> (read_chunk id st1).1 = (read_chunk id st).1)
  /\ (doc_uid_to_chunks st !! doc_uid = None -> st1 = st).
Proof.
  unfold tombstone_document. rewrite run_bind. cbn [gets].
  destruct (doc_uid_to_chunks st !! doc_uid) as [ids|]; cbn [default].
  - intros H. apply tombstone_chunks_index in H as (Ha & Hi & _ & Hb & Hp).
    split; [intros id Hin; now apply read_chunk_absent, Ha|].
    split; [|discriminate]. intros id Hn. apply read_chunk_ext; auto.
  - intros [= <-]. split; [intros id Hin; now apply elem_of_nil in Hin|done].
Qed.

End WithLibs.
End StoreReads.

(** * The chunk store: writing and loading again *)

Module StoreReload.
Import Struct ChunkStore Search Utf8Facts BytesFacts StructFacts RecordFacts RecordLayout
  StoreFacts ReloadFacts StoreEffects StoreReads.

Lemma read_at_within (file more : bytes) (off n : Z) :
  0 <= off -> 0 <= n -> off + n <= Z.of_nat (length file) ->
  read_at (file ++ more) off n = read_at file off n.
Proof.
  intros Ho Hn Hle. unfold read_at.
  rewrite drop_app_le by lia. rewrite take_app_le; [done|].
  rewrite length_drop. lia.
Qed.

Lemma write_chunk_packed chunk compressed_data checksum st st1 :
  write_chunk chunk compressed_data checksum st = (Ok tt, st1) ->
  let file := default [] (chunks_bin st) in
  let f :=
    {| f_chunk_id := chunk_id chunk; f_doc_uid := doc_uid chunk; f_doc_id := doc_id chunk;
       f_store_offset := Z.of_nat (length file);
       f_length := Z.of_nat (length compressed_data); f_checksum := checksum;
       f_is_active := true;
       f_offset_start := offset_start chunk; f_offset_end := offset_end chunk;
       f_chunk_index := chunk_index chunk;
       f_page_start := page_arg (page_start chunk);
       f_page_end := page_arg (page_end chunk) |} in
  exists b, pack_index_record f = Ok b
            /\ chunks_idx st1 = Some (default [] (chunks_idx st) ++ b)
            /\ chunks_bin st1 = Some (file ++ compressed_data)
            /\ docs_meta st1 = docs_meta st
            /\ doc_id_to_source_path st1 = doc_id_to_source_path st
            /\ forall other, other <> chunk_id chunk -> index st1 !! other = index st !! other.
Proof.
  unfold write_chunk. intros H.
  apply bind_inv in H as (off & s1 & H1 & H). injection H1 as <- <-.
  apply bind_inv in H as ([] & s2 & H2 & H). injection H2 as <-.
  apply bind_inv in H as ([] & s3 & H3 & H).
  apply write_index_record_inv in H3 as (b & Hp & ->).
  apply bind_inv in H as ([] & s4 & H4 & H). injection H4 as <-.
  injection H as <-. cbn.
  exists b. destruct (chunks_bin st) as [file|]; cbn in *;
    (split; [exact Hp|]); repeat split; try done;
    intros other Hne; now rewrite lookup_insert_ne.
Qed.




Section WithLibs.
Context {zstd : ZstdLib} {xxhash : XXHashLib}.



(** X13.  Writing a chunk does not change what the other chunks read as:
    for every other id whose record has its payload within [chunks.bin],
    [read_chunk] returns after the [write_chunk] what it returned
    before. *)
Theorem write_chunk_frame
    (st st1 : store) (chunk : Chunk) (compressed_data : bytes) (checksum : Z)
    (other : str) (rec : record) :
  write_chunk chunk compressed_data checksum st = (Ok tt, st1) ->
  other <> chunk_id chunk ->
  index st !! other = Some rec -> within_bin st rec ->
  (read_chunk other st1).1 = (read_chunk other st).1.
Proof.
  intros Hw Hne Hrec (file & Hb & Ho & Hl & Hle).
  destruct (write_chunk_packed _ _ _ _ _ Hw) as (b & _ & _ & Hbin & _ & Hp & Hi).
  rewrite Hb in Hbin. cbn [default] in Hbin.
  unfold read_chunk. rewrite !run_bind. cbn [gets]. rewrite (Hi _ Hne), Hrec.
  destruct (negb (is_active rec)); [done|].
  rewrite !run_bind. cbn [gets]. rewrite !run_bind. unfold lift. rewrite Hbin, Hb.
  cbn [of_option]. rewrite !run_bind.
  unfold seek_read. rewrite (proj2 (Z.ltb_ge _ 0)) by lia.
  rewrite (proj2 (Z.ltb_ge _ (-1))) by lia. rewrite (proj2 (Z.ltb_ge _ 0)) by lia.
  rewrite read_at_within by done.
  rewrite !run_bind. destruct (Compression.decompress_data _) as [data|]; [|done].
  rewrite !run_bind. destruct (Utf8.decode _) as [txt|]; [|done].
  destruct (negb _); [done|]. rewrite !run_bind. cbn [gets]. now rewrite Hp.
Qed.

End WithLibs.
End StoreReload.

(** * The chunk store: the invariant that [validate_invariants] checks *)

Module StoreValid.
Import Struct ChunkStore StoreChecks StoreFacts StoreEffects.

Lemma store_valid_grow st st' :
  store_valid st -> index st' = index st ->
  (length (default [] (chunks_bin st)) <= length (default [] (chunks_bin st')))%nat ->
  store_valid st'.
Proof.
  intros Hv Hi Hl id rec Hrec Ha. rewrite Hi in Hrec.
  specialize (Hv id rec Hrec Ha). lia.
Qed.

Lemma write_chunk_valid chunk compressed_data checksum st :
  store_valid st -> store_valid (write_chunk chunk compressed_data checksum st).2.
Proof.
  intros Hv. unfold write_chunk. rewrite run_bind. cbn [gets]. rewrite run_bind.
  cbn [modify]. rewrite run_bind. unfold write_index_record. rewrite run_bind. unfold lift.
  destruct (pack_index_record _) as [b|].
  - cbn [modify]. rewrite run_bind. cbn [modify snd]. intros id rec.
    cbn [index set_index set_doc_uid_to_chunks set_chunks_idx set_chunks_bin chunks_bin].
    unfold append_file. cbn [from_option Datatypes.id]. rewrite length_app.
    destruct (decide (id = chunk_id chunk)) as [->|Hne].
    + rewrite lookup_insert_eq. intros [= <-] _. cbn [store_offset length_].
      clear Hv. destruct (chunks_bin st); cbn [from_option Datatypes.id length]; lia.
    + rewrite lookup_insert_ne by done. intros Hrec Ha.
      specialize (Hv id rec Hrec Ha). lia.
  - cbn [modify snd]. eapply store_valid_grow; [exact Hv|done|].
    cbn [chunks_bin set_chunks_bin]. unfold append_file. cbn [from_option Datatypes.id].
    rewrite length_app. lia.
Qed.

Lemma tombstone_chunk_valid id st :
  store_valid st -> store_valid (tombstone_chunk id st).2.
Proof.
  intros Hv. unfold tombstone_chunk. rewrite run_bind. cbn [gets].
  destruct (index st !! id) as [rec|] eqn:Er; [|done].
  rewrite run_bind. unfold write_index_record. rewrite run_bind. unfold lift.
  destruct (pack_index_record _) as [b|]; [|done].
  cbn [modify snd]. intros id' rec'.
  cbn [index set_index set_chunks_idx chunks_bin].
  destruct (decide (id' = id)) as [->|Hne].
  - rewrite lookup_insert_eq. intros [= <-]. discriminate.
  - rewrite lookup_insert_ne by done. apply Hv.
Qed.

Lemma validate_invariants_nil items st :
  Forall (fun '(id, rec) => index st !! id = Some rec) items ->
  store_valid st -> validate_invariants items st = [].
Proof.
  intros Hitems Hv. unfold validate_invariants.
  destruct (chunks_bin st) as [file|] eqn:Eb; [|done].
  induction Hitems as [|[id rec] items Hrec _ IH]; [done|].
  cbn [flat_map]. rewrite IH, app_nil_r.
  destruct (is_active rec) eqn:Ea; [|done]. cbn [negb].
  specialize (Hv id rec Hrec Ea). rewrite Eb in Hv. cbn in Hv.
  now rewrite (proj2 (Z.ltb_ge _ _)) by lia.
Qed.

Lemma store_valid_init bin idx meta : store_valid (init bin idx meta).
Proof. intros id rec H. cbn [index init] in H. now rewrite lookup_empty in H. Qed.

(** X14.  The store keeps its records within [chunks.bin].  When every
    active record ends within the file (as on a new store, which has no
    record), [write_chunk], [tombstone_chunk] and [tombstone_document]
    keep it so, whether they return or raise; and on such a store
    [validate_invariants] reports no error. *)
Theorem store_stays_valid (st : store) :
  store_valid st ->
  (forall chunk compressed_data checksum,
     store_valid (write_chunk chunk compressed_data checksum st).2)
  /\ (forall id, store_valid (tombstone_chunk id st).2)
  /\ (forall doc_uid, store_valid (tombstone_document doc_uid st).2)
  /\ (forall items,
        Forall (fun '(id, rec) => index st !! id = Some rec) items ->
        validate_invariants items st = []).
Proof.
  intros Hv. split; [intros; now apply write_chunk_valid|].
  split; [intros; now apply tombstone_chunk_valid|].
  split; [|intros; now apply validate_invariants_nil].
  intros uid. unfold tombstone_document. rewrite run_bind. cbn [gets].
  destruct (doc_uid_to_chunks st !! uid) as [ids|]; [|done].
  revert Hv. generalize st. induction ids as [|id ids IH]; intros s Hs; [done|].
  cbn [for_each]. rewrite run_bind.
  pose proof (tombstone_chunk_valid id s Hs) as H1.
  destruct (tombstone_chunk id s) as [[[]|e] s1]; [|exact H1]. now apply IH.
Qed.

End StoreValid.

(** * The index and the retrieval pipeline *)

Module IndexFacts.
Import Search SortFacts SearchFacts ChunkStore StoreFacts StoreEffects StoreReads.

Section WithLibs.
Context {unicode : UnicodeLib} {rank : RankBM25}.

(** The map from ids to positions that [build] fills: the last position
    of each id. *)
Lemma id_to_index_spec (chunks : list Chunk) (id : str) :
  let m := foldl (fun (m : gmap str nat) '(idx, chunk) => <[chunk_id chunk := idx]> m)
                 ∅ (imap pair chunks) in
  (forall i, m !! id = Some i ->
             map chunk_id chunks !! i = Some id
             /\ forall j, map chunk_id chunks !! j = Some id -> (j <= i)%nat)
  /\ (id ∈ map chunk_id chunks -> is_Some (m !! id)).
Proof.
  induction chunks as [|c chunks IH] using rev_ind.
  - cbn. split; [intros i H; now rewrite lookup_empty in H|].
    intros H. now apply elem_of_nil in H.
  - cbv zeta in *. rewrite imap_app, foldl_app. cbn [imap foldl].
    rewrite Nat.add_0_r, map_app. cbn [map].
    destruct IH as [IH1 IH2]. destruct (decide (id = chunk_id c)) as [->|Hne].
    + rewrite lookup_insert_eq. split; [|eauto].
      intros i [= <-]. split.
      * rewrite lookup_app_r by (rewrite length_map; lia).
        now rewrite length_map, Nat.sub_diag.
      * intros j Hj. apply lookup_lt_Some in Hj.
        rewrite length_app, length_map in Hj. cbn in Hj. lia.
    + rewrite lookup_insert_ne by done. split.
      * intros i Hi. destruct (IH1 i Hi) as [Hl Hmax]. split.
        { rewrite lookup_app_l; [done|]. now apply lookup_lt_Some in Hl. }
        intros j Hj. apply Hmax.
        destruct (decide (j < length (map chunk_id chunks))%nat) as [Hlt|Hge].
        { now rewrite lookup_app_l in Hj. }
        rewrite lookup_app_r in Hj by lia.
        destruct (j - length (map chunk_id chunks))%nat; [|done].
        cbn in Hj. congruence.
      * intros Hin. apply elem_of_app in Hin as [Hin|Hin]; [now apply IH2|].
        apply list_elem_of_singleton in Hin. congruence.
Qed.

(** X16.  [build] refuses an empty list with a [ValueError]; otherwise
    (when [rank_bm25] accepts the corpus) the index keeps the tokenizer
    and the configuration, lists the chunk ids in the order of the
    chunks, and maps every id to the last position at which the list
    holds it.  [search] on an index that was not built raises a
    [ValueError]. *)
Theorem build_index (self : BM25Index) (chunks : list Chunk) :
  build self [] = Raise (ValueError (lit "Cannot build index from empty chunk list"))
  /\ (forall query top_k,
        bm25 self = None ->
        search self query top_k
        = Raise (ValueError (lit "Index not built. Call build() first.")))
  /\ forall index, build self chunks = Ok index ->
       is_Some (bm25 index)
       /\ tokenizer index = tokenizer self /\ config index = config self
       /\ chunk_ids index = map chunk_id chunks
       /\ forall id,
            (forall i, chunk_id_to_index index !! id = Some i ->
                       chunk_ids index !! i = Some id
                       /\ forall j, chunk_ids index !! j = Some id -> (j <= i)%nat)
            /\ (id ∈ chunk_ids index -> is_Some (chunk_id_to_index index !! id)).
Proof.
  split; [reflexivity|]. split.
  { intros query top_k H. unfold search. now rewrite H. }
  intros index H. unfold build in H. destruct chunks as [|c chunks]; [discriminate|].
  destruct (bm25_okapi _ _ _) as [okapi|]; [|discriminate].
  cbn [mbind result_bind] in H. injection H as <-.
  cbn [bm25 tokenizer config chunk_ids chunk_id_to_index].
  split; [eauto|]. split; [done|]. split; [done|]. split; [done|].
  intros id. apply (id_to_index_spec (c :: chunks) id).
Qed.

Lemma length_sorted_desc key l : length (sorted_desc key l) = length l.
Proof. apply Permutation_length, sorted_desc_perm. Qed.

Lemma top_indices_count scores top_k :
  0 <= top_k ->
  length (top_indices scores top_k) = (Z.to_nat top_k `min` length scores)%nat
  /\ NoDup (top_indices scores top_k).
Proof.
  intros Hk. unfold top_indices. rewrite slice_to_nonneg by done. split.
  - rewrite length_take, length_sorted_desc, length_seq. done.
  - eapply sublist_NoDup; [|apply sublist_take].
    rewrite (sorted_desc_perm _ _). apply NoDup_seq.
Qed.

(** X17.  On a built index, for a query with at least one token and
    [0 <= top_k], [search] returns exactly [min(top_k, n)] results for [n]
    chunks, each for a different position of the corpus. *)
Theorem search_count
    (self index : BM25Index) (chunks : list Chunk) (query : str) (top_k : Z) :
  rank_bm25_spec ->
  build self chunks = Ok index ->
  0 <= top_k ->
  tokenize_query (tokenizer index) query <> [] ->
  exists positions results,
    search index query top_k = Ok results
    /\ length results = (Z.to_nat top_k `min` length chunks)%nat
    /\ NoDup positions
    /\ Forall (fun p => (p < length chunks)%nat) positions
    /\ map fst results = map (fun p => nth p (map chunk_id chunks) []) positions.
Proof.
  intros Hspec Hbuild Hk Htok.
  destruct (build_inv _ _ _ Hbuild) as (okapi & Hokapi & Hbm & Hids & _).
  assert (forall query_tokens,
            length (get_scores okapi query_tokens) = length chunks) as Hlen.
  { intros qt. rewrite (Hspec _ _ _ _ qt Hokapi). now rewrite length_map. }
  pose proof (search_ok index okapi query top_k Hbm) as Hs. cbv zeta in Hs.
  rewrite Hs by (intros qt; rewrite Hlen, Hids, length_map; done).
  destruct (tokenize_query (tokenizer index) query) as [|t ts] eqn:Et; [done|].
  set (scores := get_scores okapi (t :: ts)).
  destruct (top_indices_count scores top_k Hk) as [Hc Hnd].
  exists (top_indices scores top_k). eexists. split; [reflexivity|].
  split; [rewrite length_map, Hc; subst scores; now rewrite Hlen|].
  split; [done|]. split.
  - apply Forall_forall. intros p Hp. apply top_indices_bound in Hp.
    subst scores. now rewrite Hlen in Hp.
  - rewrite map_map, Hids. reflexivity.
Qed.

End WithLibs.
End IndexFacts.

(** * The order of strings and [sorted] *)

Module StrOrderFacts.
Import Search.

Lemma str_ltb_irrefl a : str_ltb a a = false.
Proof.
  induction a as [|x a IH]; [done|]. cbn [str_ltb].
  now rewrite N.ltb_irrefl, N.eqb_refl, IH.
Qed.

Lemma str_ltb_trans a b c :
  str_ltb a b = true -> str_ltb b c = true -> str_ltb a c = true.
Proof.
  revert b c. induction a as [|x a IH]; intros [|y b] [|z c]; cbn [str_ltb]; try done.
  rewrite !orb_true_iff, !andb_true_iff, !N.ltb_lt, !N.eqb_eq.
  intros [H1|[H1 H1']] [H2|[H2 H2']].
  - left. lia.
  - left. lia.
  - left. lia.
  - right. split; [lia|]. eauto.
Qed.

Lemma str_ltb_total a b :
  str_ltb a b = false -> str_ltb b a = false -> a = b.
Proof.
  revert b. induction a as [|x a IH]; intros [|y b]; cbn [str_ltb]; try done.
  rewrite !orb_false_iff, !andb_false_iff, !N.ltb_ge, !N.eqb_neq.
  intros [H1 H1'] [H2 H2'].
  assert (x = y) as -> by lia. f_equal. apply IH.
  - destruct H1' as [?|?]; [done|assumption].
  - destruct H2' as [?|?]; [done|assumption].
Qed.

Lemma str_le_trans a b c : str_le a b -> str_le b c -> str_le a c.
Proof.
  unfold str_le. intros H1 H2.
  destruct (str_ltb c a) eqn:E; [|done].
  destruct (str_ltb b c) eqn:E2.
  - rewrite (str_ltb_trans _ _ _ E2 E) in H1. done.
  - assert (b = c) as -> by (now apply str_ltb_total). congruence.
Qed.

Lemma insert_str_perm x l : insert_str x l ≡ₚ x :: l.
Proof.
  induction l as [|y l IH]; [done|]. cbn [insert_str].
  destruct (str_ltb y x); [|done]. rewrite IH. apply Permutation_swap.
Qed.

Lemma sorted_strs_perm l : sorted_strs l ≡ₚ l.
Proof.
  induction l as [|x l IH]; [done|]. unfold sorted_strs. cbn [foldr].
  rewrite insert_str_perm. now constructor.
Qed.

Lemma insert_str_sorted x l :
  StronglySorted str_le l -> StronglySorted str_le (insert_str x l).
Proof.
  induction 1 as [|y l Hs IH Hy]; cbn [insert_str]; [repeat constructor|].
  destruct (str_ltb y x) eqn:E.
  - constructor; [done|]. apply Forall_forall. intros z Hz.
    apply (elem_of_Permutation_proper _ _ _ (insert_str_perm x l)) in Hz.
    apply elem_of_cons in Hz as [->|Hz].
    + unfold str_le. destruct (str_ltb x y) eqn:E2; [|done].
      pose proof (str_ltb_trans _ _ _ E E2) as F. now rewrite str_ltb_irrefl in F.
    + now apply (proj1 (Forall_forall _ _) Hy).
  - constructor; [now constructor|]. constructor; [exact E|].
    eapply Forall_impl; [exact Hy|]. intros z Hz. eapply str_le_trans; [exact E|exact Hz].
Qed.

Lemma sorted_strs_sorted l : StronglySorted str_le (sorted_strs l).
Proof.
  induction l as [|x l IH]; [constructor|]. now apply insert_str_sorted.
Qed.

Lemma sorted_strs_strict l :
  NoDup l -> StronglySorted str_lt (sorted_strs l).
Proof.
  intros Hn. rewrite <- (sorted_strs_perm l) in Hn.
  pose proof (sorted_strs_sorted l) as Hs.
  induction Hs as [|y l' Hs IH Hy]; [constructor|].
  apply NoDup_cons in Hn as [Hny Hn]. constructor; [auto|].
  apply Forall_forall. intros z Hz.
  unfold str_lt. destruct (str_ltb y z) eqn:E; [done|]. exfalso. apply Hny.
  pose proof (proj1 (Forall_forall _ _) Hy z Hz) as Hle.
  rewrite (str_ltb_total _ _ E Hle). exact Hz.
Qed.

End StrOrderFacts.

(** * The retrieval pipeline *)

Module PipelineFacts.
Import Search SortFacts SearchFacts ChunkStore StoreFacts StoreEffects StoreReads Pipeline
  StrOrderFacts.

Section WithLibs.
Context {unicode : UnicodeLib} {rank : RankBM25} {zstd : ZstdLib} {xxhash : XXHashLib}.

(** [mapM] of a function that keeps the state. *)
Lemma mapM_M_pure {A B} (f : A -> M B) l st ys st' :
  (forall x s, (f x s).2 = s) ->
  mapM f l st = (Ok ys, st') ->
  st' = st /\ Forall2 (fun x y => f x st = (Ok y, st)) l ys.
Proof.
  intros Hf. revert ys. induction l as [|x l IH]; intros ys H; cbn [mapM] in H.
  - injection H as <- <-. split; [done|constructor].
  - apply bind_inv in H as (y & s1 & Hy & H).
    pose proof (Hf x st) as Hs. rewrite Hy in Hs. cbn in Hs. subst s1.
    apply bind_inv in H as (k & s2 & Hk & H). injection H as <- <-.
    destruct (IH _ Hk) as [-> HF]. split; [done|]. now constructor.
Qed.

Lemma read_chunk_present id st c :
  read_chunk id st = (Ok (Some c), st) -> chunk_id c = id /\ ~ absent st id.
Proof.
  intros H.
  destruct (read_chunk_some id st _ c (f_equal fst H) eq_refl)
    as (rec & _ & _ & Hrec & Ha & _ & _ & _ & _ & _ & Hid & _).
  split; [done|]. unfold absent. rewrite Hrec, Ha. discriminate.
Qed.

Lemma read_chunk_none id st : read_chunk id st = (Ok None, st) -> absent st id.
Proof.
  unfold absent, read_chunk. rewrite run_bind. cbn [gets].
  destruct (index st !! id) as [rec|]; [|done].
  destruct (is_active rec); [|done]. cbn [negb].
  rewrite run_bind. cbn [gets]. rewrite run_bind. unfold lift.
  destruct (of_option _ _) as [file|]; [|discriminate].
  rewrite run_bind. destruct (seek_read _ _ _) as [cdata|]; [|discriminate].
  rewrite run_bind. destruct (Compression.decompress_data _) as [data|]; [|discriminate].
  rewrite run_bind. destruct (Utf8.decode _) as [txt|]; [|discriminate].
  destruct (negb _); discriminate.
Qed.

Lemma fetch_chunks_inv ids st chunks st' :
  fetch_chunks ids st = (Ok chunks, st') ->
  st' = st
  /\ map chunk_id chunks = filter (fun id => ~ absent st id) ids
  /\ Forall (fun c => read_chunk (chunk_id c) st = (Ok (Some c), st)) chunks.
Proof.
  unfold fetch_chunks. intros H.
  apply bind_inv in H as (found & s1 & Hf & H). injection H as <- <-.
  apply (mapM_M_pure _ _ _ _ _ read_chunk_keeps) in Hf as [-> HF].
  split; [done|]. induction HF as [|cid o ids found Hr _ [IH1 IH2]]; [done|].
  rewrite filter_cons. destruct o as [c|].
  - change (omap id (Some c :: found)) with (c :: omap id found).
    destruct (read_chunk_present _ _ _ Hr) as [Hid Hp].
    rewrite decide_True by done. cbn [map]. rewrite IH1, Hid.
    split; [done|]. constructor; [now rewrite Hid|done].
  - change (omap id (None :: found)) with (omap id found).
    apply read_chunk_none in Hr. rewrite decide_False by tauto. done.
Qed.

(** X19.  [fetch_chunks] skips the ids that the store does not know or
    that are tombstoned, and nothing else: when it returns, the chunks
    are those of the other ids, in the order of the list, each being what
    [read_chunk] returns for its id. *)
Theorem fetch_chunks_skips (chunk_ids : list str) (st st' : store) (chunks : list Chunk) :
  fetch_chunks chunk_ids st = (Ok chunks, st') ->
  map chunk_id chunks = filter (fun id => ~ absent st id) chunk_ids
  /\ Forall (fun c => read_chunk (chunk_id c) st = (Ok (Some c), st)) chunks.
Proof. intros H. now apply fetch_chunks_inv in H as (_ & H1 & H2). Qed.

Lemma process_query_inv index query top_k st results st' :
  process_query index true query top_k st = (Ok results, st') ->
  st' = st
  /\ exists hits,
       search index query top_k = Ok hits
       /\ map (fun r => (r_chunk_id r, score r)) results = hits
       /\ Forall (fun r =>
                    match (read_chunk (r_chunk_id r) st).1 with
                    | Ok (Some chunk) =>
                      matched_terms r
                      = sorted_strs
                          (filter (fun t => t ∈ tokenize (tokenizer index) (text chunk))
                             (remove_dups (tokenize_query (tokenizer index) query)))
                      /\ snippet r = generate_snippet (text chunk) (matched_terms r) 200
                      /\ r_source_ref r = source_ref chunk
                    | _ => matched_terms r = [] /\ snippet r = []
                           /\ r_source_ref r = empty_ref
                    end) results.
Proof.
  unfold process_query. intros H.
  apply bind_inv in H as (hits & s1 & Hh & H). unfold lift in Hh.
  destruct (search index query top_k) as [hits'|] eqn:Es; [|discriminate].
  injection Hh as <- <-.
  apply mapM_M_pure in H as [-> HF].
  2:{ intros [cid sc] s. rewrite run_bind. pose proof (read_chunk_keeps cid s) as Hk.
      destruct (read_chunk cid s) as [[found|e] s1]; cbn in Hk; subst s1; [|done].
      now destruct found. }
  split; [done|]. exists hits'. split; [done|]. clear Es.
  induction HF as [|[cid sc] r hits rs Hx _ [IH1 IH2]]; [done|].
  rewrite run_bind in Hx.
  pose proof (read_chunk_keeps cid st) as Hk.
  destruct (read_chunk cid st) as [[found|e] s1] eqn:Er; cbn in Hk; subst s1; [|discriminate].
  destruct found as [chunk|]; cbn in Hx; injection Hx as <-;
    cbn [map r_chunk_id score]; (split; [now rewrite IH1|]);
    constructor; try done; cbn [r_chunk_id]; rewrite Er; cbn; done.
Qed.

(** X18.  [retrieve] returns one result per hit of [search], in the same
    order and with the same id and score, whatever the store holds: a hit
    whose chunk the store cannot return ([read_chunk] gives [None]) is
    still a result, with no matched term, an empty snippet and an empty
    source reference, and a hit whose chunk is live carries the source
    reference of the chunk. *)
Theorem retrieve_follows_search
    (index : BM25Index) (query : str) (top_k : Z) (st st' : store)
    (results : list RetrievalResult) :
  retrieve index query top_k st = (Ok results, st') ->
  exists hits,
    search index query top_k = Ok hits
    /\ map (fun r => (r_chunk_id r, score r)) results = hits
    /\ Forall (fun r =>
                 match (read_chunk (r_chunk_id r) st).1 with
                 | Ok (Some chunk) => r_source_ref r = source_ref chunk
                 | _ => matched_terms r = [] /\ snippet r = []
                        /\ r_source_ref r = empty_ref
                 end) results.
Proof.
  intros H. apply process_query_inv in H as [_ (hits & H1 & H2 & H3)].
  exists hits. split; [done|]. split; [done|].
  eapply Forall_impl; [exact H3|]. intros r Hr. cbn beta in Hr.
  destruct (read_chunk (r_chunk_id r) st).1 as [[chunk|]|]; tauto.
Qed.

(** X23.  For a hit whose chunk is live, the matched terms of [retrieve]
    are the tokens that the query and the text of the chunk share, each
    once and in ascending order, and the snippet is that of
    [_generate_snippet] for the text of the chunk, these terms and 200
    characters. *)
Theorem retrieve_matched_terms
    (index : BM25Index) (query : str) (top_k : Z) (st st' : store)
    (results : list RetrievalResult) :
  retrieve index query top_k st = (Ok results, st') ->
  Forall (fun r =>
            forall chunk, (read_chunk (r_chunk_id r) st).1 = Ok (Some chunk) ->
              (forall t, t ∈ matched_terms r
                         <-> t ∈ tokenize_query (tokenizer index) query
                             /\ t ∈ tokenize (tokenizer index) (text chunk))
              /\ StronglySorted str_lt (matched_terms r)
              /\ snippet r = generate_snippet (text chunk) (matched_terms r) 200)
         results.
Proof.
  intros H. apply process_query_inv in H as [_ (hits & _ & _ & H3)].
  eapply Forall_impl; [exact H3|]. intros r Hr chunk Hc. cbn beta in Hr.
  rewrite Hc in Hr. destruct Hr as (Hm & Hs & _). split; [|split; [|exact Hs]].
  - intros t. rewrite Hm, sorted_strs_perm, list_elem_of_filter, elem_of_remove_dups.
    tauto.
  - rewrite Hm. apply sorted_strs_strict. apply NoDup_filter, NoDup_remove_dups.
Qed.

(** X20.  [retrieve_and_fetch] returns the results of [retrieve] and the
    chunks of [fetch_chunks] for the ids of these results: the chunks are
    those of the results whose id is known and not tombstoned, in the
    order of the results, so that there may be fewer chunks than
    results. *)
Theorem retrieve_and_fetch_pairs
    (index : BM25Index) (query : str) (top_k : Z) (st st' : store)
    (results : list RetrievalResult) (chunks : list Chunk) :
  retrieve_and_fetch index query top_k st = (Ok (results, chunks), st') ->
  retrieve index query top_k st = (Ok results, st)
  /\ fetch_chunks (map r_chunk_id results) st = (Ok chunks, st)
  /\ map chunk_id chunks
     = filter (fun id => ~ absent st id) (map r_chunk_id results)
  /\ (length chunks <= length results)%nat.
Proof.
  unfold retrieve_and_fetch. intros H.
  apply bind_inv in H as (rs & s1 & Hr & H).
  pose proof Hr as Hr'. apply process_query_inv in Hr' as [-> _].
  apply bind_inv in H as (cs & s2 & Hc & H). injection H as <- <- <-.
  pose proof Hc as Hc'. apply fetch_chunks_inv in Hc' as (-> & Hm & _).
  split; [done|]. split; [done|]. split; [done|].
  rewrite <- (length_map chunk_id), Hm, <- (length_map r_chunk_id rs).
  apply length_filter.
Qed.

End WithLibs.
End PipelineFacts.

(** * Tokens and snippets *)

Module TokenFacts.
Import Search.

Lemma runs_aux_all (p : N -> bool) cur s :
  Forall (fun c => p c = true) cur ->
  Forall (fun t => t <> [] /\ Forall (fun c => p c = true) t) (runs_aux p cur s).
Proof.
  revert cur. induction s as [|c s IH]; intros cur Hcur; cbn [runs_aux].
  - destruct cur as [|x cur]; constructor; [|constructor].
    split; [|now apply Forall_reverse].
    intros E. apply (f_equal length) in E. rewrite length_reverse in E. discriminate.
  - destruct (p c) eqn:Ec; [apply IH; now constructor|].
    destruct cur as [|x cur]; [apply IH; constructor|].
    constructor; [|apply IH; constructor].
    split; [|now apply Forall_reverse].
    intros E. apply (f_equal length) in E. rewrite length_reverse in E. discriminate.
Qed.

Lemma runs_aux_nil (p : N -> bool) cur s :
  runs_aux p cur s = [] <-> cur = [] /\ Forall (fun c => p c = false) s.
Proof.
  revert cur. induction s as [|c s IH]; intros cur; cbn [runs_aux].
  - destruct cur; split; try done. intros [? _]. done.
  - destruct (p c) eqn:Ec.
    + rewrite IH. split; [intros [? _]; done|].
      intros [_ H]. inversion H; congruence.
    + destruct cur as [|x cur].
      * rewrite IH. split; intros [_ H]; (split; [done|]); [now constructor|now inversion H].
      * split; [done|]. intros [? _]. done.
Qed.

Section WithUnicode.
Context {unicode : UnicodeLib}.

(** X22.  The tokens of [tokenize] are not empty and consist of word
    characters only; with stop words enabled none of them is a stop word;
    and without stop words a text has no token exactly when none of the
    characters of its lowercase form is a word character. *)
Theorem tokenize_tokens (self : BM25Tokenizer) (text : str) :
  Forall (fun t => t <> [] /\ Forall (fun c => is_word c = true) t
                   /\ (use_stopwords self = true -> t ∉ stopwords self))
         (tokenize self text)
  /\ (use_stopwords self = false ->
      (tokenize self text = [] <-> Forall (fun c => is_word c = false) (lower text))).
Proof.
  unfold tokenize, findall_words, runs.
  pose proof (runs_aux_all is_word [] (lower text) ltac:(constructor)) as H.
  split.
  - destruct (use_stopwords self).
    + apply Forall_forall. intros t Ht. apply list_elem_of_filter in Ht as [Hs Ht].
      destruct (proj1 (Forall_forall _ _) H t Ht). done.
    + eapply Forall_impl; [exact H|]. intros t [? ?]. done.
  - intros ->. rewrite runs_aux_nil. split; [now intros [_ ?]|done].
Qed.

End WithUnicode.
End TokenFacts.

Module SnippetFacts.
Import Search.
Section WithUnicode.
Context {unicode : UnicodeLib}.

Lemma length_slice a b (s : str) : (length (slice a b s) <= Z.to_nat b - Z.to_nat a)%nat.
Proof. unfold slice. rewrite length_take. lia. Qed.

(** X21.  A snippet is a piece [text[a:b]] of the text, possibly between
    ellipses: for [0 <= max_length] the piece has at most [max_length]
    characters, so the snippet has at most [max_length + 6].  Without
    matched terms the snippet is the first [max_length] characters of the
    text. *)
Theorem generate_snippet_piece (text : str) (matched_terms : list str) (max_length : Z) :
  0 <= max_length ->
  (exists (a b : Z) (pre post : str),
     generate_snippet text matched_terms max_length = pre ++ slice a b text ++ post
     /\ (pre = [] \/ pre = lit "...") /\ (post = [] \/ post = lit "...")
     /\ (length (slice a b text) <= Z.to_nat max_length)%nat)
  /\ (length (generate_snippet text matched_terms max_length) <= Z.to_nat max_length + 6)%nat
  /\ (matched_terms = [] ->
      generate_snippet text matched_terms max_length = take (Z.to_nat max_length) text).
Proof.
  intros Hm.
  assert (exists (a b : Z) (pre post : str),
     generate_snippet text matched_terms max_length = pre ++ slice a b text ++ post
     /\ (pre = [] \/ pre = lit "...") /\ (post = [] \/ post = lit "...")
     /\ (length (slice a b text) <= Z.to_nat max_length)%nat) as Hpiece.
  { assert (forall s : str, exists (a b : Z) (pre post : str),
              slice 0 max_length s = pre ++ slice a b s ++ post
              /\ (pre = [] \/ pre = lit "...") /\ (post = [] \/ post = lit "...")
              /\ (length (slice a b s) <= Z.to_nat max_length)%nat) as Hprefix.
    { intros s. exists 0, max_length, [], []. rewrite app_nil_r. cbn [app].
      repeat split; auto. pose proof (length_slice 0 max_length s). lia. }
    unfold generate_snippet.
    destruct matched_terms as [|t ts].
    { destruct text; [|apply Hprefix]. exists 0, 0, [], []. repeat split; auto.
      pose proof (length_slice 0 0 (@nil N)). lia. }
    destruct text as [|c text]; [exists 0, 0, [], []; repeat split; auto;
      pose proof (length_slice 0 0 (@nil N)); lia|].
    cbv zeta.
    set (len := Z.of_nat (length (c :: text))).
    set (first_pos := foldl _ len (t :: ts)).
    destruct (first_pos =? len); [apply Hprefix|].
    exists (Z.max 0 (first_pos - max_length / 2)), (Z.min len (first_pos + max_length / 2)).
    exists (if 0 <? Z.max 0 (first_pos - max_length / 2) then lit "..." else []),
           (if Z.min len (first_pos + max_length / 2) <? len then lit "..." else []).
    split.
    { destruct (0 <? _), (_ <? len); cbn [app]; rewrite ?app_nil_r; reflexivity. }
    split; [destruct (0 <? _); auto|]. split; [destruct (_ <? len); auto|].
    pose proof (length_slice (Z.max 0 (first_pos - max_length / 2))
                  (Z.min len (first_pos + max_length / 2)) (c :: text)) as Hl.
    assert (2 * (max_length / 2) <= max_length) by (apply Z.mul_div_le; lia).
    lia. }
  split; [exact Hpiece|]. split.
  - destruct Hpiece as (a & b & pre & post & -> & Hpre & Hpost & Hl).
    rewrite !length_app.
    assert (length pre <= 3)%nat by (destruct Hpre as [->| ->]; cbn; lia).
    assert (length post <= 3)%nat by (destruct Hpost as [->| ->]; cbn; lia).
    lia.
  - intros ->. unfold generate_snippet. destruct text; [now rewrite take_nil|].
    unfold slice. cbn [Z.to_nat drop]. now rewrite Nat.sub_0_r.
Qed.

End WithUnicode.
End SnippetFacts.

(** * A created manifest *)

Module ManifestCreation.
Import Manifest ManifestFacts.
Section WithHash.
Context {hashlib : HashLib}.

Lemma collect_checksums_eq dir files :
  collect_checksums dir files
  = Ok (omap (fun f => (fun data => (f, Ids.hexdigest data)) <$> dir !! f) files).
Proof.
  induction files as [|f files IH]; [done|]. cbn [collect_checksums omap list_omap].
  destruct (dir !! f) as [data|] eqn:E.
  - assert (exists_ dir f = true) as -> by (apply exists_true; eauto).
    rewrite (compute_file_checksum_eq _ _ _ E), IH. reflexivity.
  - assert (exists_ dir f = false) as ->.
    { apply not_true_iff_false. rewrite exists_true, E. by intros [? [=]]. }
    exact IH.
Qed.

Lemma collected_entries_ok dir files :
  Forall (entry_ok dir)
    (omap (fun f => (fun data => (f, Ids.hexdigest data)) <$> dir !! f) files).
Proof.
  induction files as [|f files IH]; [constructor|]. cbn [omap list_omap].
  destruct (dir !! f) as [data|] eqn:E; [|exact IH]. cbn [fmap option_fmap option_map].
  constructor; [|exact IH]. exists data. done.
Qed.

(** X24.  [create_manifest] lists, for each of the four required files
    that exists, the SHA-256 digest of its whole content, in the order
    of the required files.  The manifest it returns validates against
    the same directory exactly when all four files exist, and it is
    rejected once the content of a listed file is replaced by content
    with another digest. *)
Theorem create_manifest_validates
    (dir : directory) (total_docs total_chunks : Z)
    (index_type compression schema_version artifact_version now : str) :
  exists manifest,
    create_manifest dir total_docs total_chunks index_type compression
      schema_version artifact_version now = Ok manifest
    /\ checksums manifest
       = omap (fun f => (fun data => (f, Ids.hexdigest data)) <$> dir !! f) required_files
    /\ (validate_manifest manifest dir = Ok true
        <-> forall f, f ∈ required_files -> is_Some (dir !! f))
    /\ (validate_manifest manifest dir = Ok false
        <-> exists f, f ∈ required_files /\ dir !! f = None)
    /\ (forall f data data',
          f ∈ required_files -> dir !! f = Some data ->
          Ids.hexdigest data' <> Ids.hexdigest data ->
          validate_manifest manifest (<[f := data']> dir) = Ok false).
Proof.
  unfold create_manifest. cbv zeta. rewrite collect_checksums_eq.
  eexists. split; [reflexivity|]. cbn [checksums]. split; [reflexivity|].
  set (manifest := {| checksums := _ |}).
  assert (forall d b, validate_manifest manifest d = Ok b ->
                      (b = true <-> manifest_valid manifest d)) as Hv.
  { intros d b Hb. destruct (validate_manifest_spec manifest d) as (b' & H1 & H2).
    congruence. }
  destruct (validate_manifest_spec manifest dir) as (b & Hb & Hiff).
  assert (manifest_valid manifest dir
          <-> forall f, f ∈ required_files -> is_Some (dir !! f)) as Hall.
  { unfold manifest_valid. split; [tauto|]. intros H. split; [done|].
    apply collected_entries_ok. }
  split; [|split].
  - rewrite Hb. rewrite <- Hall, <- Hiff. split; congruence.
  - rewrite Hb. split.
    + intros [= ->].
      destruct (decide (Forall (fun f => is_Some (dir !! f)) required_files)) as [F|F].
      * exfalso. rewrite Forall_forall in F. apply Hall, Hiff in F. done.
      * apply not_Forall_Exists in F; [|apply _].
        apply Exists_exists in F as (f & Hf & Hn). exists f. split; [done|].
        now apply eq_None_not_Some.
    + intros (f & Hf & Hn). destruct b; [|done].
      assert (is_Some (dir !! f)) as [? ?] by (apply Hall; [tauto|done]). congruence.
  - intros f data data' Hf Hd Hne.
    destruct (validate_manifest_spec manifest (<[f := data']> dir)) as (b' & Hb' & Hiff').
    rewrite Hb'. destruct b'; [|done]. exfalso.
    destruct (proj1 Hiff' eq_refl) as [_ Hall'].
    assert ((f, Ids.hexdigest data) ∈ checksums manifest) as Hin.
    { cbn [checksums manifest]. apply list_elem_of_omap. exists f. split; [done|].
      now rewrite Hd. }
    rewrite Forall_forall in Hall'. destruct (Hall' _ Hin) as (d' & Hd' & Hh').
    cbn in Hd', Hh'. rewrite lookup_insert_eq in Hd'. congruence.
Qed.

End WithHash.
End ManifestCreation.

(** * The context of an answer *)

Module ContextFacts.
Import Pipeline.

Lemma context_parts_firsts seen chunks :
  exists firsts : list Chunk,
    context_parts seen chunks
    = map (fun c => citation_of c ++ lit " " ++ text c) firsts
    /\ firsts `sublist_of` chunks
    /\ NoDup (map doc_id firsts)
    /\ (forall c, c ∈ chunks -> doc_id c ∈ seen \/ doc_id c ∈ map doc_id firsts)
    /\ (forall c, c ∈ firsts ->
          (doc_id c ∉ seen)
          /\ exists i, chunks !! i = Some c /\ (doc_id c ∉ map doc_id (take i chunks))).
Proof.
  revert seen. induction chunks as [|chunk chunks IH]; intros seen.
  { exists []. split; [done|]. split; [constructor|]. split; [constructor|].
    split; intros c Hc; by apply elem_of_nil in Hc. }
  cbn [context_parts]. cbv zeta.
  destruct (decide (doc_id chunk ∈ seen)) as [Hs|Hs].
  - rewrite bool_decide_eq_true_2 by done.
    destruct (IH seen) as (firsts & E & Hsub & Hnd & Hcov & Hfirst).
    exists firsts. split; [done|]. split; [now apply sublist_cons|]. split; [done|].
    split.
    + intros c Hc. apply elem_of_cons in Hc as [->|Hc]; [now left|auto].
    + intros c Hc. destruct (Hfirst c Hc) as (Hn & i & Hi & Hni).
      split; [done|]. exists (S i). split; [done|]. cbn [take map].
      apply not_elem_of_cons. split; [congruence|done].
  - rewrite bool_decide_eq_false_2 by done.
    destruct (IH (doc_id chunk :: seen)) as (firsts & E & Hsub & Hnd & Hcov & Hfirst).
    exists (chunk :: firsts). split; [cbn [map]; now rewrite E|].
    split; [now apply sublist_skip|]. split.
    { cbn [map]. apply NoDup_cons. split; [|done].
      intros Hin. apply list_elem_of_fmap in Hin as (c & Hc & Hin).
      destruct (Hfirst c Hin) as [Hn _]. apply Hn. rewrite <- Hc. now left. }
    split.
    + intros c Hc. apply elem_of_cons in Hc as [->|Hc]; [right; now left|].
      destruct (Hcov c Hc) as [H|H].
      * apply elem_of_cons in H as [H|H]; [right; rewrite H; now left|now left].
      * right. cbn [map]. now right.
    + intros c Hc. apply elem_of_cons in Hc as [->|Hc].
      * split; [done|]. exists 0%nat. split; [done|]. cbn. apply not_elem_of_nil.
      * destruct (Hfirst c Hc) as (Hn & i & Hi & Hni).
        apply not_elem_of_cons in Hn as [Hn1 Hn2].
        split; [done|]. exists (S i). split; [done|]. cbn [take map].
        apply not_elem_of_cons. split; [done|done].
Qed.

(** X25.  [assemble_context] keeps one chunk per [doc_id], the first of
    the list: the context is the entries [citation text] of these chunks,
    in the order of the list, joined by an empty line; every later chunk
    of a document that has already contributed is left out. *)
Theorem assemble_context_first_of_doc (chunks : list Chunk) :
  exists firsts : list Chunk,
    assemble_context chunks
    = Paths.join [Normalizer.LF; Normalizer.LF]
        (map (fun c => citation_of c ++ lit " " ++ text c) firsts)
    /\ firsts `sublist_of` chunks
    /\ NoDup (map doc_id firsts)
    /\ (forall c, c ∈ chunks -> doc_id c ∈ map doc_id firsts)
    /\ (forall c, c ∈ firsts ->
          exists i, chunks !! i = Some c /\ (doc_id c ∉ map doc_id (take i chunks))).
Proof.
  destruct (context_parts_firsts [] chunks) as (firsts & E & Hsub & Hnd & Hcov & Hfirst).
  exists firsts. unfold assemble_context. rewrite E.
  split; [done|]. split; [done|]. split; [done|]. split.
  - intros c Hc. destruct (Hcov c Hc) as [H|H]; [by apply elem_of_nil in H|done].
  - intros c Hc. now destruct (Hfirst c Hc).
Qed.

End ContextFacts.

(** * The shape of a normalized text *)

Module NormalizerShape.
Import Normalizer BytesFacts NormalizerFacts.
Local Open Scope N_scope.

Lemma collapsed_adjacent prev s :
  collapsed prev s = true ->
  (TAB ∉ s)
  /\ (prev = true -> head s <> Some SP)
  /\ forall i, s !! i = Some SP -> s !! S i <> Some SP.
Proof.
  revert prev. induction s as [|c s IH]; intros prev H.
  { split; [apply not_elem_of_nil|]. split; [done|]. intros i Hi. done. }
  cbn [collapsed] in H. destruct (is_blank c) eqn:Eb.
  - apply andb_true_iff in H as [H H3]. apply andb_true_iff in H as [H1 H2].
    apply N.eqb_eq in H1 as ->. destruct (IH true H3) as (Ht & Hh & Hadj).
    split; [apply not_elem_of_cons; split; [done|exact Ht]|].
    split; [now destruct prev|].
    intros [|i] Hi; [|now apply Hadj].
    cbn. destruct s; [done|]. apply (Hh eq_refl).
  - destruct (IH false H) as (Ht & _ & Hadj).
    assert (c <> TAB /\ c <> SP) as [Hc1 Hc2].
    { unfold is_blank in Eb. apply orb_false_iff in Eb as [E1 E2].
      apply N.eqb_neq in E1, E2. done. }
    split; [apply not_elem_of_cons; split; [congruence|exact Ht]|].
    split; [cbn; congruence|].
    intros [|i] Hi; [cbn in Hi; congruence|now apply Hadj].
Qed.

Section WithUnicode.
Context {unicode : UnicodeLib}.

(** X26.  A normalized text holds no tab, no carriage return and no two
    spaces in a row, and it neither begins nor ends with a whitespace
    character. *)
Theorem normalize_text_shape (text : str) :
  let s := normalize_text text in
  (TAB ∉ s) /\ (CR ∉ s)
  /\ (forall i, s !! i = Some SP -> s !! S i <> Some SP)
  /\ (forall c, head s = Some c -> isspace c = false)
  /\ (forall c, last s = Some c -> isspace c = false).
Proof.
  cbv zeta.
  set (u := replace_cr (replace_crlf (sub_blank_runs false (nfkc text)))).
  assert (normalize_text text = strip u) as -> by reflexivity.
  assert (collapsed false (strip u) = true) as Hcol.
  { unfold strip. destruct (lstrip_suffix u) as [k Hk].
    destruct (rstrip_prefix (lstrip u)) as [k' Hk'].
    pose proof (replace_cr_collapsed _ _ (replace_crlf_collapsed _ _
                 (sub_blank_runs_collapsed false (nfkc text)))) as H.
    fold u in H. rewrite Hk in H. apply collapsed_app_r in H.
    rewrite Hk' in H. now apply collapsed_app_l in H. }
  destruct (collapsed_adjacent _ _ Hcol) as (Ht & _ & Hadj).
  split; [exact Ht|]. split.
  { intros H. apply strip_subseteq in H. now apply replace_cr_no_cr in H. }
  split; [exact Hadj|].
  assert (forall c, last (strip u) = Some c -> isspace c = false) as Hlast.
  { intros c. unfold strip, rstrip. rewrite last_reverse. apply drop_while_head. }
  split; [|exact Hlast].
  intros c Hc.
  assert (lstrip (strip u) = strip u) as Hfix.
  { unfold strip. apply lstrip_rstrip_fixed. apply drop_while_idem. }
  apply drop_while_fixed in Hfix as [E|(x & l' & E & Hx)]; rewrite E in Hc; [done|].
  cbn in Hc. congruence.
Qed.

End WithUnicode.
End NormalizerShape.

(** * The theorems at the examples *)

Module Coverage.
Import Instances Examples InstanceFacts Scenarios.

Lemma doc_identifiers_witness :
  let uid := Paths.generate_doc_uid ex_path in
  let id := Ids.generate_doc_id (lit "abc123def456") (lit "00ff") in
  length uid = 16%nat /\ Forall (fun c => is_lower_hex c = true) uid
  /\ length id = 16%nat /\ Forall (fun c => is_lower_hex c = true) id
  /\ Paths.generate_doc_uid (Paths.normalize_path ex_path) = uid.
Proof.
  apply (PathsFacts.doc_identifiers ex_path (lit "abc123def456") (lit "00ff")
           sha256_digest_spec); apply Checks.wf_str_forallb; reflexivity.
Defined.

Lemma parse_pdf_page_offsets_witness :
  let document :=
    Parsers.parse_pdf ex_pages (lit "docs/report.pdf") None (lit "report") in
  normalized_text document = Paths.join [Normalizer.LF] (map Normalizer.normalize_text ex_pages)
  /\ exists placed,
       pages document = Some placed
       /\ map page_text placed = ex_pages
       /\ map page_number placed
          = map (fun i => Z.of_nat (S i)) (seq 0 (length ex_pages))
       /\ Forall (page_slice (normalized_text document)) placed
       /\ (forall p, head placed = Some p -> page_offset_start p = 0)
       /\ (forall i p q, placed !! i = Some p -> placed !! S i = Some q ->
                         page_offset_start q = page_offset_end p + 1)
       /\ (forall p, last placed = Some p ->
                     page_offset_end p = Z.of_nat (length (normalized_text document))).
Proof.
  apply (ParsersFacts.parse_pdf_page_offsets ex_pages (lit "docs/report.pdf") None
           (lit "report")).
  - apply Checks.wf_str_forallb. reflexivity.
  - repeat constructor.
Defined.

Lemma chunks_are_slices_witness :
  map chunk_index ex_chunks = map Z.of_nat (seq 0 (length ex_chunks))
  /\ Forall (chunk_slice ex_doc) ex_chunks.
Proof.
  apply (ChunksFacts.chunks_are_slices 8 ex_cfg ex_doc ex_chunks).
  - apply Checks.wf_str_forallb. reflexivity.
  - apply Checks.wf_str_forallb. reflexivity.
  - vm_compute. reflexivity.
Defined.

Lemma chunks_cover_text_witness :
  (ex_chunks = [] <-> Chunker.split (normalized_text ex_doc) = [])
  /\ (forall c, head ex_chunks = Some c -> offset_start c = 0)
  /\ (forall c, last ex_chunks = Some c ->
                offset_end c = Z.of_nat (length (normalized_text ex_doc)))
  /\ (forall i c1 c2, ex_chunks !! i = Some c1 -> ex_chunks !! S i = Some c2 ->
                      offset_start c2 <= offset_end c1).
Proof.
  apply (ChunksFacts.chunks_cover_text 8 ex_cfg ex_doc ex_chunks).
  - cbn. lia.
  - apply Checks.wf_str_forallb. reflexivity.
  - apply Checks.wf_str_forallb. reflexivity.
  - vm_compute. reflexivity.
Defined.

Lemma tombstone_chunk_frame_witness :
  ChunkStore.read_chunk (chunk_id ex_chunk) st2 = (Ok None, st2)
  /\ forall other, other <> chunk_id ex_chunk ->
       (ChunkStore.read_chunk other st2).1 = (ChunkStore.read_chunk other st1).1.
Proof.
  apply (StoreReads.tombstone_chunk_frame (chunk_id ex_chunk) st1 st2).
  vm_compute. reflexivity.
Defined.

Lemma tombstone_document_reads_witness :
  let listed := default [] (ChunkStore.doc_uid_to_chunks st_both !! doc_uid ex_chunk) in
  (forall id, id ∈ listed -> ChunkStore.read_chunk id st_cleared = (Ok None, st_cleared))
  /\ (forall id, id ∉ listed ->
        (ChunkStore.read_chunk id st_cleared).1 = (ChunkStore.read_chunk id st_both).1)
  /\ (ChunkStore.doc_uid_to_chunks st_both !! doc_uid ex_chunk = None ->
      st_cleared = st_both).
Proof.
  apply (StoreReads.tombstone_document_reads (doc_uid ex_chunk) st_both st_cleared).
  vm_compute. reflexivity.
Defined.


Lemma write_chunk_frame_witness :
  (ChunkStore.read_chunk (chunk_id ex_chunk) st_both).1
  = (ChunkStore.read_chunk (chunk_id ex_chunk) st1).1.
Proof.
  eapply (StoreReload.write_chunk_frame st1 st_both ex_other
            (Compression.compress_data (Utf8.encode (text ex_other)) 3)
            (xxh32 (Utf8.encode (text ex_other))) (chunk_id ex_chunk)
            (default {| ChunkStore.rec_doc_uid := []; ChunkStore.rec_doc_id := [];
                        ChunkStore.store_offset := 0; ChunkStore.length_ := 0;
                        ChunkStore.checksum := 0; ChunkStore.is_active := false;
                        ChunkStore.rec_offset_start := 0; ChunkStore.rec_offset_end := 0;
                        ChunkStore.rec_chunk_index := 0;
                        ChunkStore.rec_page_start := None;
                        ChunkStore.rec_page_end := None |}
               (ChunkStore.index st1 !! chunk_id ex_chunk))).
  - vm_compute. reflexivity.
  - discriminate.
  - vm_compute. reflexivity.
  - eexists. split; [vm_compute; reflexivity|]. vm_compute. repeat split; discriminate.
Defined.

Lemma store_stays_valid_witness :
  (forall chunk compressed_data checksum,
     store_valid (ChunkStore.write_chunk chunk compressed_data checksum st1).2)
  /\ (forall id, store_valid (ChunkStore.tombstone_chunk id st1).2)
  /\ (forall doc_uid, store_valid (ChunkStore.tombstone_document doc_uid st1).2)
  /\ (forall items,
        Forall (fun '(id, rec) => ChunkStore.index st1 !! id = Some rec) items ->
        StoreChecks.validate_invariants items st1 = []).
Proof.
  apply (StoreValid.store_stays_valid st1).
  apply (StoreValid.write_chunk_valid ex_chunk), StoreValid.store_valid_init.
Defined.

Lemma tombstone_reload_read_witness :
  ChunkStore.read_chunk (chunk_id ex_chunk) st3 = (Ok None, st3).
Proof.
  apply (ReloadFacts.tombstone_reload_read st1 st2 st3 (chunk_id ex_chunk)).
  - vm_compute. eexists. reflexivity.
  - exists 1%nat. vm_compute. reflexivity.
  - vm_compute. reflexivity.
  - vm_compute. reflexivity.
Defined.

Lemma search_count_witness :
  exists positions results,
    Search.search (built ex_corpus) (lit "machine") 2 = Ok results
    /\ length results = (Z.to_nat 2 `min` length ex_corpus)%nat
    /\ NoDup positions
    /\ Forall (fun p => (p < length ex_corpus)%nat) positions
    /\ map fst results = map (fun p => nth p (map chunk_id ex_corpus) []) positions.
Proof.
  apply (IndexFacts.search_count (Search.new_index ex_cfg) (built ex_corpus) ex_corpus
           (lit "machine") 2 term_frequency_spec Checks.build_ex_corpus).
  - lia.
  - vm_compute. discriminate.
Defined.

Lemma retrieve_follows_search_witness :
  exists hits,
    Search.search (built [ex_chunk]) (lit "hello") 5 = Ok hits
    /\ map (fun r => (r_chunk_id r, score r)) ex_results_dead = hits
    /\ Forall (fun r =>
                 match (ChunkStore.read_chunk (r_chunk_id r) st3).1 with
                 | Ok (Some chunk) => r_source_ref r = source_ref chunk
                 | _ => matched_terms r = [] /\ snippet r = []
                        /\ r_source_ref r = empty_ref
                 end) ex_results_dead.
Proof.
  apply (PipelineFacts.retrieve_follows_search (built [ex_chunk]) (lit "hello") 5 st3 st3).
  vm_compute. reflexivity.
Defined.

Lemma fetch_chunks_skips_witness :
  map chunk_id ex_fetched
  = filter (fun id => ~ absent st1 id) [chunk_id ex_chunk; lit "missing"]
  /\ Forall (fun c => ChunkStore.read_chunk (chunk_id c) st1 = (Ok (Some c), st1)) ex_fetched.
Proof.
  apply (PipelineFacts.fetch_chunks_skips [chunk_id ex_chunk; lit "missing"] st1 st1).
  vm_compute. reflexivity.
Defined.

Lemma retrieve_and_fetch_pairs_witness :
  Search.retrieve (built [ex_chunk]) (lit "hello") 5 st1 = (Ok ex_results, st1)
  /\ Search.fetch_chunks (map r_chunk_id ex_results) st1 = (Ok ex_fetched, st1)
  /\ map chunk_id ex_fetched
     = filter (fun id => ~ absent st1 id) (map r_chunk_id ex_results)
  /\ (length ex_fetched <= length ex_results)%nat.
Proof.
  apply (PipelineFacts.retrieve_and_fetch_pairs (built [ex_chunk]) (lit "hello") 5 st1 st1).
  vm_compute. reflexivity.
Defined.

Lemma retrieve_matched_terms_witness :
  Forall (fun r =>
            forall chunk,
              (ChunkStore.read_chunk (r_chunk_id r) st1).1 = Ok (Some chunk) ->
              (forall t, t ∈ matched_terms r
                         <-> t ∈ Search.tokenize_query
                                   (Search.tokenizer (built [ex_chunk])) (lit "hello")
                             /\ t ∈ Search.tokenize (Search.tokenizer (built [ex_chunk]))
                                      (text chunk))
              /\ StronglySorted str_lt (matched_terms r)
              /\ snippet r = Search.generate_snippet (text chunk) (matched_terms r) 200)
         ex_results.
Proof.
  apply (PipelineFacts.retrieve_matched_terms (built [ex_chunk]) (lit "hello") 5 st1 st1).
  vm_compute. reflexivity.
Defined.

Lemma generate_snippet_piece_witness :
  (exists (a b : Z) (pre post : str),
     Search.generate_snippet (lit "Hello world") [lit "world"] 4
     = pre ++ Search.slice a b (lit "Hello world") ++ post
     /\ (pre = [] \/ pre = lit "...") /\ (post = [] \/ post = lit "...")
     /\ (length (Search.slice a b (lit "Hello world")) <= Z.to_nat 4)%nat)
  /\ (length (Search.generate_snippet (lit "Hello world") [lit "world"] 4)
      <= Z.to_nat 4 + 6)%nat
  /\ ([lit "world"] = [] ->
      Search.generate_snippet (lit "Hello world") [lit "world"] 4
      = take (Z.to_nat 4) (lit "Hello world")).
Proof.
  apply (SnippetFacts.generate_snippet_piece (lit "Hello world") [lit "world"] 4).
  lia.
Defined.

End Coverage.

